(** * Event and booking models: normalisation and pre-save validation

    A shallow embedding of [database/event.model.ts] and
    [database/booking.model.ts]: the slug generator, the date and time
    normalisers and the two pre-save hooks, together with the parts of the
    ECMAScript runtime they call (strings of UTF-16 code units, [trim],
    backtracking regular expressions, [parseInt], [padStart], the UTC
    calendar behind [Date]). *)

From Stdlib Require Import Ascii String DecimalString.
From Stdlib Require Import ZArith NArith Lia Bool List.
Import ListNotations.
Local Open Scope list_scope.

Set Implicit Arguments.

(** ** Strings *)

(** A JavaScript string is a sequence of UTF-16 code units. *)
Definition char := N.
Definition jsstring := list char.

Definition cu (a : ascii) : char := N_of_ascii a.

(** String literals of the source, as code units. *)
Definition js (s : string) : jsstring := map cu (list_ascii_of_string s).

Definition char_eqb (a b : char) : bool := N.eqb a b.

Definition jsstring_eqb (a b : jsstring) : bool :=
  if list_eq_dec N.eq_dec a b then true else false.

Definition inRange (lo hi : ascii) (c : char) : bool :=
  (N.leb (cu lo) c) && (N.leb c (cu hi)).

(** [\d] without the unicode flag: the ten ASCII digits. *)
Definition isDigit (c : char) : bool := inRange "0" "9" c.

(** WhiteSpace and LineTerminator code units: what [String.prototype.trim]
    strips and what [\s] matches. *)
Definition isWhiteSpace (c : char) : bool :=
  existsb (N.eqb c)
    [9; 10; 11; 12; 13; 32; 160; 5760; 8232; 8233; 8239; 8287; 12288; 65279]%N
  || (N.leb 8192 c && N.leb c 8202).

Fixpoint dropWhile (p : char -> bool) (s : jsstring) : jsstring :=
  match s with
  | [] => []
  | x :: t => if p x then dropWhile p t else s
  end.

Definition trimStart (s : jsstring) : jsstring := dropWhile isWhiteSpace s.
Definition trimEnd (s : jsstring) : jsstring := rev (dropWhile isWhiteSpace (rev s)).

(** [String.prototype.trim] *)
Definition trim (s : jsstring) : jsstring := trimEnd (trimStart s).

(** [String.prototype.padStart] with a one-unit fill string. *)
Definition padStart (n : nat) (fill : char) (s : jsstring) : jsstring :=
  repeat fill (n - length s) ++ s.

(** ** Regular expressions

    The backtracking matcher of ECMAScript (no flags besides [g]): a pattern
    is compiled to a matcher taking a continuation; alternatives are tried
    left to right and quantifiers are greedy. The state of a match is the
    not yet consumed suffix of the input and the captures made so far. *)

Inductive regex :=
| RChar (p : char -> bool)                       (* a literal or a class *)
| REmpty
| RSeq (r1 r2 : regex)
| RAlt (r1 r2 : regex)
| RRep (min : nat) (max : option nat) (r : regex) (* {min,max}, greedy *)
| RGroup (i : nat) (r : regex)                    (* ( ... ), numbered *)
| RBol                                            (* ^ *)
| REol.                                           (* $ *)

Definition captures := list (nat * jsstring).

Fixpoint getcap (i : nat) (c : captures) : option jsstring :=
  match c with
  | [] => None
  | (j, w) :: c' => if Nat.eqb i j then Some w else getcap i c'
  end.

Definition clearcaps (gs : list nat) (c : captures) : captures :=
  filter (fun e => negb (existsb (Nat.eqb (fst e)) gs)) c.

Fixpoint groupsOf (r : regex) : list nat :=
  match r with
  | RSeq a b | RAlt a b => groupsOf a ++ groupsOf b
  | RRep _ _ a => groupsOf a
  | RGroup i a => i :: groupsOf a
  | _ => []
  end.

Definition mresult := option (jsstring * captures).
Definition cont := jsstring -> captures -> mresult.

Definition accept : cont := fun s c => Some (s, c).

Definition decmax (max : option nat) : option nat :=
  match max with Some n => Some (pred n) | None => None end.

Definition isZero (max : option nat) : bool :=
  match max with Some O => true | _ => false end.

(** RepeatMatcher: one more iteration is tried before the continuation; an
    iteration that consumed nothing once [min] is reached is abandoned; the
    captures of the groups inside the quantified atom are reset at the start
    of each iteration. The fuel bounds the number of iterations by
    [min + length s], which they cannot exceed. *)
Fixpoint repeatMatcher (m : cont -> cont) (gs : list nat) (fuel min : nat)
    (max : option nat) (k : cont) (s : jsstring) (c : captures) : mresult :=
  match fuel with
  | O => None
  | S fuel' =>
      if isZero max then k s c
      else
        let d : cont := fun s' c' =>
          if Nat.eqb min 0 && Nat.eqb (length s') (length s) then None
          else repeatMatcher m gs fuel' (pred min) (decmax max) k s' c' in
        let c0 := clearcaps gs c in
        if Nat.ltb 0 min then m d s c0
        else match m d s c0 with
             | Some res => Some res
             | None => k s c
             end
  end.

Section Matcher.

(** The length of the whole input: [^] holds where nothing is consumed. *)
Variable inputLength : nat.

Fixpoint matcher (r : regex) (k : cont) (s : jsstring) (c : captures) : mresult :=
  match r with
  | RChar p =>
      match s with
      | x :: s' => if p x then k s' c else None
      | [] => None
      end
  | REmpty => k s c
  | RSeq r1 r2 => matcher r1 (matcher r2 k) s c
  | RAlt r1 r2 =>
      match matcher r1 k s c with
      | Some res => Some res
      | None => matcher r2 k s c
      end
  | RRep min max r' =>
      repeatMatcher (matcher r') (groupsOf r') (S (min + length s)) min max k s c
  | RGroup i r' =>
      matcher r' (fun s' c' => k s' ((i, firstn (length s - length s') s) :: c')) s c
  | RBol => if Nat.eqb (length s) inputLength then k s c else None
  | REol => match s with [] => k s c | _ :: _ => None end
  end.

End Matcher.

(** The result of a successful match: where it starts and ends (as suffixes
    of the input) and its captures. *)
Record matchResult := MatchResult {
  matchStart : jsstring;
  matchEnd : jsstring;
  groups : captures
}.

(** One attempt at the position whose suffix is [s]. *)
Definition matchAt (r : regex) (input s : jsstring) : option matchResult :=
  match matcher (length input) r accept s [] with
  | Some (e, c) => Some (MatchResult s e c)
  | None => None
  end.

(** RegExpBuiltinExec from [lastIndex]: the first position, left to right,
    at which the pattern matches. *)
Fixpoint execFrom (r : regex) (input s : jsstring) : option matchResult :=
  match matchAt r input s with
  | Some res => Some res
  | None => match s with
            | [] => None
            | _ :: s' => execFrom r input s'
            end
  end.

(** [String.prototype.match] and [RegExp.prototype.exec] of a pattern
    without the [g] flag. *)
Definition regexMatch (r : regex) (input : jsstring) : option matchResult :=
  execFrom r input input.

(** [RegExp.prototype.test] *)
Definition regexTest (r : regex) (input : jsstring) : bool :=
  match regexMatch r input with Some _ => true | None => false end.

(** [String.prototype.replace] with a [g] pattern and a replacement without
    [$]: matches are found left to right, each search resuming where the
    previous match ended (one unit further after an empty match). *)
Fixpoint replaceFrom (fuel : nat) (r : regex) (rep input s : jsstring) : jsstring :=
  match fuel with
  | O => s
  | S fuel' =>
      match matchAt r input s with
      | Some res =>
          if Nat.ltb (length (matchEnd res)) (length s)
          then rep ++ replaceFrom fuel' r rep input (matchEnd res)
          else rep ++ match s with
                      | [] => []
                      | x :: s' => x :: replaceFrom fuel' r rep input s'
                      end
      | None =>
          match s with
          | [] => []
          | x :: s' => x :: replaceFrom fuel' r rep input s'
          end
      end
  end.

Definition replaceAll (r : regex) (rep input : jsstring) : jsstring :=
  replaceFrom (S (length input)) r rep input input.

(** Pattern syntax. *)
Definition lit (a : ascii) : regex := RChar (char_eqb (cu a)).
Definition plus (r : regex) : regex := RRep 1 None r.
Definition star (r : regex) : regex := RRep 0 None r.
Definition opt (r : regex) : regex := RRep 0 (Some 1) r.
Fixpoint word (s : list ascii) : regex :=
  match s with
  | [] => REmpty
  | [a] => lit a
  | a :: s' => RSeq (lit a) (word s')
  end.
Definition str (s : string) : regex := word (list_ascii_of_string s).

(** ** Errors

    The paths of an event document, by name ([keyof EventDocument]). *)
Inductive EventKey :=
| Ktitle | Kslug | Kdescription | Koverview | Kimage | Kvenue | Klocation
| Kdate | Ktime | Kmode | Kaudience | Kagenda | Korganizer | Ktags.

(** A thrown [Error], by throw site: the two loops of the event hook, the
    date and the time normaliser, the two checks of the booking hook; with
    them the store's duplicate-key error and the [TypeError] of a method
    call on a value that is not a string. *)
Inductive error :=
| FieldRequired (f : EventKey)
| FieldNonEmptyArray (f : EventKey)
| InvalidEventDate
| InvalidEventTime
| InvalidEmailAddress
| ReferencedEventMissing
| DuplicateKey (f : EventKey)
| TypeError.

Inductive result (A : Type) :=
| Ok (a : A)
| Throw (e : error).
Arguments Ok {A} a.
Arguments Throw {A} e.

(** ** Numbers *)

Fixpoint takeWhile (p : char -> bool) (s : jsstring) : jsstring :=
  match s with
  | [] => []
  | x :: t => if p x then x :: takeWhile p t else []
  end.

Definition digitValue (c : char) : Z := Z.of_N c - 48.

Definition digitsValue (ds : jsstring) : Z :=
  fold_left (fun acc d => 10 * acc + digitValue d)%Z ds 0%Z.

(** [parseInt(s, 10)]: leading white space is skipped, a sign is read, then
    the longest run of decimal digits; [None] stands for NaN. (The values
    are exact as long as they stay below 2^53.) *)
Definition parseInt10 (s : jsstring) : option Z :=
  let s1 := trimStart s in
  let '(sign, s2) :=
    match s1 with
    | x :: t => if char_eqb x (cu "-") then ((-1)%Z, t)
                else if char_eqb x (cu "+") then (1%Z, t)
                else (1%Z, s1)
    | [] => (1%Z, s1)
    end in
  match takeWhile isDigit s2 with
  | [] => None
  | ds => Some (sign * digitsValue ds)%Z
  end.

(** [Number.prototype.toString] of an integer. *)
Definition numberToString (z : Z) : jsstring :=
  js (NilZero.string_of_int (Z.to_int z)).

Definition isAscii (c : char) : bool := N.ltb c 128.

Definition asciiLower (c : char) : char :=
  if inRange "A" "Z" c then (c + 32)%N else c.

(** ** Documents and the record store *)

Definition ObjectId := N.

(** The values a path of a document may hold. *)
Inductive value :=
| VUndefined
| VNull
| VBoolean (b : bool)
| VNumber (n : Z)
| VString (s : jsstring)
| VArray (xs : list jsstring).

Definition value_eq_dec (a b : value) : {a = b} + {a <> b}.
Proof.
  decide equality;
    first [ apply Bool.bool_dec | apply Z.eq_dec | apply (list_eq_dec N.eq_dec)
          | apply (list_eq_dec (list_eq_dec N.eq_dec)) ].
Defined.

Definition value_eqb (a b : value) : bool := if value_eq_dec a b then true else false.

Definition EventKey_eq_dec (a b : EventKey) : {a = b} + {a <> b}.
Proof. decide equality. Defined.

Definition key_eqb (a b : EventKey) : bool := if EventKey_eq_dec a b then true else false.

(** [EventDocument]: the paths of the schema, and the paths Mongoose holds
    as modified since the document was loaded or last saved (all the paths
    set at construction, for a new document). The timestamps are the
    store's. *)
Record EventDocument := mkEvent {
  _id : ObjectId;
  title : value;
  slug : value;
  description : value;
  overview : value;
  image : value;
  venue : value;
  location : value;
  date : value;
  time : value;
  mode : value;
  audience : value;
  agenda : value;
  organizer : value;
  tags : value;
  modifiedPaths : list EventKey
}.

Definition get (k : EventKey) (d : EventDocument) : value :=
  match k with
  | Ktitle => title d
  | Kslug => slug d
  | Kdescription => description d
  | Koverview => overview d
  | Kimage => image d
  | Kvenue => venue d
  | Klocation => location d
  | Kdate => date d
  | Ktime => time d
  | Kmode => mode d
  | Kaudience => audience d
  | Kagenda => agenda d
  | Korganizer => organizer d
  | Ktags => tags d
  end.

(** The document with path [k] holding [v] and [ps] as modified paths. *)
Definition put (k : EventKey) (v : value) (ps : list EventKey) (d : EventDocument) : EventDocument :=
  match k with
  | Ktitle =>
      mkEvent (_id d) v (slug d) (description d) (overview d) (image d) (venue d) (location d) (date d) (time d) (mode d) (audience d) (agenda d) (organizer d) (tags d) ps
  | Kslug =>
      mkEvent (_id d) (title d) v (description d) (overview d) (image d) (venue d) (location d) (date d) (time d) (mode d) (audience d) (agenda d) (organizer d) (tags d) ps
  | Kdescription =>
      mkEvent (_id d) (title d) (slug d) v (overview d) (image d) (venue d) (location d) (date d) (time d) (mode d) (audience d) (agenda d) (organizer d) (tags d) ps
  | Koverview =>
      mkEvent (_id d) (title d) (slug d) (description d) v (image d) (venue d) (location d) (date d) (time d) (mode d) (audience d) (agenda d) (organizer d) (tags d) ps
  | Kimage =>
      mkEvent (_id d) (title d) (slug d) (description d) (overview d) v (venue d) (location d) (date d) (time d) (mode d) (audience d) (agenda d) (organizer d) (tags d) ps
  | Kvenue =>
      mkEvent (_id d) (title d) (slug d) (description d) (overview d) (image d) v (location d) (date d) (time d) (mode d) (audience d) (agenda d) (organizer d) (tags d) ps
  | Klocation =>
      mkEvent (_id d) (title d) (slug d) (description d) (overview d) (image d) (venue d) v (date d) (time d) (mode d) (audience d) (agenda d) (organizer d) (tags d) ps
  | Kdate =>
      mkEvent (_id d) (title d) (slug d) (description d) (overview d) (image d) (venue d) (location d) v (time d) (mode d) (audience d) (agenda d) (organizer d) (tags d) ps
  | Ktime =>
      mkEvent (_id d) (title d) (slug d) (description d) (overview d) (image d) (venue d) (location d) (date d) v (mode d) (audience d) (agenda d) (organizer d) (tags d) ps
  | Kmode =>
      mkEvent (_id d) (title d) (slug d) (description d) (overview d) (image d) (venue d) (location d) (date d) (time d) v (audience d) (agenda d) (organizer d) (tags d) ps
  | Kaudience =>
      mkEvent (_id d) (title d) (slug d) (description d) (overview d) (image d) (venue d) (location d) (date d) (time d) (mode d) v (agenda d) (organizer d) (tags d) ps
  | Kagenda =>
      mkEvent (_id d) (title d) (slug d) (description d) (overview d) (image d) (venue d) (location d) (date d) (time d) (mode d) (audience d) v (organizer d) (tags d) ps
  | Korganizer =>
      mkEvent (_id d) (title d) (slug d) (description d) (overview d) (image d) (venue d) (location d) (date d) (time d) (mode d) (audience d) (agenda d) v (tags d) ps
  | Ktags =>
      mkEvent (_id d) (title d) (slug d) (description d) (overview d) (image d) (venue d) (location d) (date d) (time d) (mode d) (audience d) (agenda d) (organizer d) v ps
  end.

Definition keyName (k : EventKey) : string :=
  match k with
  | Ktitle => "title"
  | Kslug => "slug"
  | Kdescription => "description"
  | Koverview => "overview"
  | Kimage => "image"
  | Kvenue => "venue"
  | Klocation => "location"
  | Kdate => "date"
  | Ktime => "time"
  | Kmode => "mode"
  | Kaudience => "audience"
  | Kagenda => "agenda"
  | Korganizer => "organizer"
  | Ktags => "tags"
  end.

(** The message of an [Error] the hooks throw themselves. *)
Definition message (e : error) : option string :=
  let quoted (name : string) : string :=
    String (ascii_of_nat 34) (name ++ String (ascii_of_nat 34) EmptyString) in
  match e with
  | FieldRequired f => Some ("Field " ++ quoted (keyName f) ++ " is required")
  | FieldNonEmptyArray f =>
      Some ("Field " ++ quoted (keyName f) ++ " must be a non-empty array")
  | InvalidEventDate => Some "Invalid event date"
  | InvalidEventTime => Some "Invalid event time"
  | InvalidEmailAddress => Some "Invalid email address"
  | ReferencedEventMissing =>
      Some "Cannot create booking: referenced event does not exist"
  | DuplicateKey _ | TypeError => None
  end%string.

Record BookingDocument := mkBooking {
  bookingId : ObjectId;
  eventId : ObjectId;
  email : jsstring
}.

Record Store := mkStore {
  events : list EventDocument;
  bookings : list BookingDocument
}.

(** What a hook or a save asks of the record store, in order. *)
Inductive StoreOp :=
| FindEventById (id : ObjectId)
| WriteEvent (id : ObjectId)
| WriteBooking (id : ObjectId).

Definition isWrite (o : StoreOp) : bool :=
  match o with FindEventById _ => false | _ => true end.

(** [Event.findById(id).lean()] *)
Definition findById (id : ObjectId) (st : Store) : option EventDocument :=
  find (fun e => N.eqb (_id e) id) (events st).

(** ** Hooks as computations

    A pre-save hook runs on the document being saved ([this]), which it may
    mutate, may query the store, and ends in [next()] or [next(error)]:
    a computation over the document that yields a value or a thrown error,
    the document as it is left, and the queries made. *)
Section HookMonad.
Variable D : Type.

Definition Hook (A : Type) : Type := Store -> D -> result A * D * list StoreOp.

Definition ret {A} (a : A) : Hook A := fun _ d => (Ok a, d, []).

Definition throw {A} (e : error) : Hook A := fun _ d => (Throw e, d, []).

Definition bind {A B} (m : Hook A) (f : A -> Hook B) : Hook B :=
  fun st d =>
    match m st d with
    | (Ok a, d1, l1) => let '(r, d2, l2) := f a st d1 in (r, d2, l1 ++ l2)
    | (Throw e, d1, l1) => (Throw e, d1, l1)
    end.

Definition lift {A} (r : result A) : Hook A := fun _ d => (r, d, []).

Definition this {A} (f : D -> A) : Hook A := fun _ d => (Ok (f d), d, []).

Definition update (f : D -> D) : Hook unit := fun _ d => (Ok tt, f d, []).

Definition query {A} (o : StoreOp) (f : Store -> A) : Hook A :=
  fun st d => (Ok (f st), d, [o]).
End HookMonad.

Arguments ret {D A} a.
Arguments throw {D A} e.
Arguments bind {D A B} m f.
Arguments lift {D A} r.
Arguments this {D A} f.
Arguments update {D} f.
Arguments query {D A} o f.

Notation "x <- m ;; k" := (bind m (fun x => k))
  (at level 61, m at next level, right associativity).
Notation "m ;; k" := (bind m (fun _ => k))
  (at level 61, right associativity).

(** A [for ... of] loop whose body may throw. *)
Fixpoint forEach {D A} (xs : list A) (body : A -> Hook D unit) : Hook D unit :=
  match xs with
  | [] => ret tt
  | x :: xs' => body x ;; forEach xs' body
  end.

(** [this.isModified(path)] *)
Definition isModified (k : EventKey) : Hook EventDocument bool :=
  this (fun d => existsb (key_eqb k) (modifiedPaths d)).

(** [this[k] = v]: Mongoose records the path as modified when the value
    changes. *)
Definition assignValue (k : EventKey) (v : value) (d : EventDocument) : EventDocument :=
  if value_eqb (get k d) v then d
  else put k v (if existsb (key_eqb k) (modifiedPaths d) then modifiedPaths d
                else k :: modifiedPaths d) d.

Definition assign (k : EventKey) (v : value) : Hook EventDocument unit :=
  update (assignValue k v).

(** A path read where the code needs a string; the loops of the hook have
    established that it is one by then, anything else would be a
    [TypeError]. *)
Definition thisString (k : EventKey) : Hook EventDocument jsstring :=
  v <- this (get k) ;;
  match v with
  | VString s => ret s
  | _ => throw TypeError
  end.

(** ** The connection cache

    [connectToDatabase] is an async function: a call runs without
    interruption up to its [await], and again from there once the promise
    it waits for has settled. Calls may overlap, so the cache is a shared
    object of a runtime that also holds the promises made by
    [mongoose.connect] and the calls in flight. *)

Section Connection.

(** What a connection resolves to and what a failed one is rejected
    with. *)
Variable Mongoose : Type.
Variable Failure : Type.

(** The promises of [mongoose.connect(...).then(...)], numbered in the
    order they are made. *)
Definition PromiseId := nat.

Inductive PromiseState :=
| Pending
| Fulfilled (m : Mongoose)
| Rejected (e : Failure).

(** [interface MongooseCache] *)
Record MongooseCache := mkCache {
  conn : option Mongoose;
  promise : option PromiseId
}.

(** A call of [connectToDatabase]: suspended at its [await], or
    completed. *)
Inductive CallState :=
| Awaiting (p : PromiseId)
| Returned (m : Mongoose)
| Thrown (e : Failure).

Record Runtime := mkRuntime {
  cached : MongooseCache;
  promises : list PromiseState;
  calls : list CallState
}.

(** [global.mongoose || { conn: null, promise: null }] *)
Definition initialCache (global : option MongooseCache) : MongooseCache :=
  match global with
  | Some c => c
  | None => mkCache None None
  end.

(** The runtime once the module is loaded for the first time. *)
Definition start : Runtime := mkRuntime (initialCache None) [] [].

(** [xs[i] = x] on an index in range. *)
Fixpoint setNth {A} (i : nat) (x : A) (xs : list A) : list A :=
  match xs, i with
  | [], _ => []
  | _ :: xs', O => x :: xs'
  | y :: xs', S i' => y :: setNth i' x xs'
  end.

(** A call of [connectToDatabase], up to its [return] or its [await]. *)
Definition connectToDatabase (st : Runtime) : Runtime :=
  match conn (cached st) with
  | Some m =>
      (* Return the cached connection if it exists *)
      mkRuntime (cached st) (promises st) (calls st ++ [Returned m])
  | None =>
      match promise (cached st) with
      | None =>
          (* Create a new connection promise *)
          let p := length (promises st) in
          mkRuntime (mkCache None (Some p)) (promises st ++ [Pending])
                    (calls st ++ [Awaiting p])
      | Some p =>
          mkRuntime (cached st) (promises st) (calls st ++ [Awaiting p])
      end
  end.

(** Call [c] of [connectToDatabase], from its [await] on. *)
Definition resume (c : nat) (st : Runtime) : option Runtime :=
  match nth_error (calls st) c with
  | Some (Awaiting p) =>
      match nth_error (promises st) p with
      | Some (Fulfilled m) =>
          (* cached.conn = await cached.promise; return cached.conn *)
          Some (mkRuntime (mkCache (Some m) (promise (cached st))) (promises st)
                          (setNth c (Returned m) (calls st)))
      | Some (Rejected e) =>
          (* Reset the promise on error to allow retry *)
          Some (mkRuntime (mkCache (conn (cached st)) None) (promises st)
                          (setNth c (Thrown e) (calls st)))
      | _ => None
      end
  | _ => None
  end.

(** How a connection attempt ends. *)
Inductive Outcome :=
| Connects (m : Mongoose)
| Fails (e : Failure).

Definition settled (o : Outcome) : PromiseState :=
  match o with
  | Connects m => Fulfilled m
  | Fails e => Rejected e
  end.

(** The promise [p] of a connection attempt settles. *)
Definition settle (p : PromiseId) (o : Outcome) (st : Runtime) : option Runtime :=
  match nth_error (promises st) p with
  | Some Pending =>
      Some (mkRuntime (cached st) (setNth p (settled o) (promises st)) (calls st))
  | _ => None
  end.

(** What happens in the runtime: a call starts, a connection attempt
    ends, a suspended call goes on. *)
Inductive Action :=
| Call
| Settle (p : PromiseId) (o : Outcome)
| Resume (c : nat).

Definition step (st : Runtime) (a : Action) : option Runtime :=
  match a with
  | Call => Some (connectToDatabase st)
  | Settle p o => settle p o st
  | Resume c => resume c st
  end.

(** A schedule of actions, none if one of them cannot happen. *)
Fixpoint run (st : Runtime) (schedule : list Action) : option Runtime :=
  match schedule with
  | [] => Some st
  | a :: schedule' =>
      match step st a with
      | Some st' => run st' schedule'
      | None => None
      end
  end.

Definition isFailure (a : Action) : bool :=
  match a with
  | Settle _ (Fails _) => true
  | _ => false
  end.

Definition isAwaiting (c : CallState) : bool :=
  match c with
  | Awaiting _ => true
  | _ => false
  end.

(** Where the values in the runtime come from. *)
Definition provenance (st : Runtime) : Prop :=
  (forall m, conn (cached st) = Some m -> In (Fulfilled m) (promises st))
  /\ (forall m, In (Returned m) (calls st) -> In (Fulfilled m) (promises st))
  /\ (forall e, In (Thrown e) (calls st) -> In (Rejected e) (promises st)).

(** The runtime as long as no connection attempt has failed. *)
Definition unfailed (st : Runtime) : Prop :=
  (forall e, ~ In (Rejected e) (promises st))
  /\ length (promises st) <= 1
  /\ (promise (cached st) = None -> promises st = []).

(** The runtime once there is a connection: as many attempts made as
    before, and every call from number [n] on has returned at once. *)
Definition connected (n attempts : nat) (st : Runtime) : Prop :=
  conn (cached st) <> None
  /\ length (promises st) = attempts
  /\ (forall c cs, n <= c -> nth_error (calls st) c = Some cs ->
        exists m, cs = Returned m).

(** A promise is kept in the cache only while there is a connection or a
    call that waits for the promise. *)
Definition awaited (st : Runtime) : Prop :=
  forall p, conn (cached st) = None -> promise (cached st) = Some p ->
            In (Awaiting p) (calls st).

End Connection.

Arguments Pending {Mongoose Failure}.
Arguments Fulfilled {Mongoose Failure} m.
Arguments Rejected {Mongoose Failure} e.
Arguments Awaiting {Mongoose Failure} p.
Arguments Returned {Mongoose Failure} m.
Arguments Thrown {Mongoose Failure} e.
Arguments Connects {Mongoose Failure} m.
Arguments Fails {Mongoose Failure} e.
Arguments Call {Mongoose Failure}.
Arguments Settle {Mongoose Failure} p o.
Arguments Resume {Mongoose Failure} c.
Arguments mkCache {Mongoose} conn promise.
Arguments mkRuntime {Mongoose Failure} cached promises calls.
Arguments start {Mongoose Failure}.
Arguments provenance {Mongoose Failure} st.
Arguments unfailed {Mongoose Failure} st.
Arguments connected {Mongoose Failure} n attempts st.
Arguments awaited {Mongoose Failure} st.

(** ** The models *)

Section Host.

(** [String.prototype.toLowerCase] on text that is not pure ASCII follows
    the Unicode case mappings of the host. *)
Variable unicodeToLowerCase : jsstring -> jsstring.

Definition toLowerCase (s : jsstring) : jsstring :=
  if forallb isAscii s then map asciiLower s else unicodeToLowerCase s.

(** *** normalizeTime *)

Definition class (p : char -> bool) : regex := RChar p.

(** [/^(\d{1,2})(?::?(\d{2}))\s*(AM|PM|am|pm)?$/] *)
Definition timeRegex : regex :=
  RSeq RBol
 (RSeq (RGroup 1 (RRep 1 (Some 2) (class isDigit)))
 (RSeq (RSeq (opt (lit ":")) (RGroup 2 (RRep 2 (Some 2) (class isDigit))))
 (RSeq (star (class isWhiteSpace))
 (RSeq (opt (RGroup 3 (RAlt (str "AM") (RAlt (str "PM") (RAlt (str "am") (str "pm"))))))
       REol)))).

(** [match[i]], where a group that did not take part is [undefined]. *)
Definition group (i : nat) (m : matchResult) : option jsstring := getcap i (groups m).

Definition orUndefined (o : option jsstring) : jsstring :=
  match o with Some w => w | None => js "undefined" end.

Definition normalizeTime (timeStr : jsstring) : result jsstring :=
  let trimmed := trim timeStr in
  match regexMatch timeRegex trimmed with
  | None => Throw InvalidEventTime
  | Some m =>
      let hour := parseInt10 (orUndefined (group 1 m)) in
      let minute :=
        parseInt10 (match group 2 m with Some w => w | None => js "0" end) in
      let meridiem := option_map toLowerCase (group 3 m) in
      match hour, minute with
      | Some hour, Some minute =>
          if ((hour <? 0) || (hour >? 23) || (minute <? 0) || (minute >? 59))%Z
          then Throw InvalidEventTime
          else
            let hour :=
              match meridiem with
              | Some ((_ :: _) as meridiem) =>
                  if (hour =? 12)%Z
                  then (if jsstring_eqb meridiem (js "am") then 0 else 12)%Z
                  else if jsstring_eqb meridiem (js "pm") then (hour + 12)%Z
                  else hour
              | _ => hour
              end in
            let hourStr := padStart 2 (cu "0") (numberToString hour) in
            let minuteStr := padStart 2 (cu "0") (numberToString minute) in
            Ok (hourStr ++ js ":" ++ minuteStr)
      | _, _ => Throw InvalidEventTime
      end
  end.

(** *** generateSlug *)

Definition isSlugChar (c : char) : bool := inRange "a" "z" c || isDigit c.

(** [/[^a-z0-9]+/g] *)
Definition nonAlphanumeric : regex := plus (class (fun c => negb (isSlugChar c))).

(** [/^-+|-+$/g] *)
Definition edgeDashes : regex :=
  RAlt (RSeq RBol (plus (lit "-"))) (RSeq (plus (lit "-")) REol).

Definition generateSlug (title : jsstring) : jsstring :=
  replaceAll edgeDashes (js "")
    (replaceAll nonAlphanumeric (js "-")
      (trim (toLowerCase title))).

(** *** Date

    Time values are integral milliseconds since the epoch, UTC; [None]
    stands for NaN. The calendar functions are those of ECMAScript
    (Day, DayFromYear, YearFromTime, MonthFromTime, DateFromTime,
    MakeDay, MakeDate). *)

Local Open Scope Z_scope.

Definition msPerDay : Z := 86400000.
Definition Day (t : Z) : Z := t / msPerDay.

Definition isLeapYear (y : Z) : bool :=
  (y mod 4 =? 0) && (negb (y mod 100 =? 0) || (y mod 400 =? 0)).

Definition DaysInYear (y : Z) : Z := if isLeapYear y then 366 else 365.

Definition DayFromYear (y : Z) : Z :=
  365 * (y - 1970) + (y - 1969) / 4 - (y - 1901) / 100 + (y - 1601) / 400.

(** The largest year whose first day is not after day [d]: an estimate
    from the mean length of a year, off by one at most. *)
Definition YearFromDay (d : Z) : Z :=
  let y := 1970 + (400 * d) / 146097 in
  if DayFromYear (y + 1) <=? d then y + 1
  else if DayFromYear y <=? d then y
  else y - 1.

Definition YearFromTime (t : Z) : Z := YearFromDay (Day t).
Definition InLeapYear (t : Z) : Z := if isLeapYear (YearFromTime t) then 1 else 0.
Definition DayWithinYear (t : Z) : Z := Day t - DayFromYear (YearFromTime t).

(** The day within the year on which month [m] (0 to 11) starts. *)
Definition monthStart (leap m : Z) : Z :=
  match m with
  | 0 => 0 | 1 => 31 | 2 => 59 + leap | 3 => 90 + leap | 4 => 120 + leap
  | 5 => 151 + leap | 6 => 181 + leap | 7 => 212 + leap | 8 => 243 + leap
  | 9 => 273 + leap | 10 => 304 + leap | _ => 334 + leap
  end.

Definition MonthFromTime (t : Z) : Z :=
  let d := DayWithinYear t in
  let leap := InLeapYear t in
  if d <? 31 then 0
  else if d <? 59 + leap then 1
  else if d <? 90 + leap then 2
  else if d <? 120 + leap then 3
  else if d <? 151 + leap then 4
  else if d <? 181 + leap then 5
  else if d <? 212 + leap then 6
  else if d <? 243 + leap then 7
  else if d <? 273 + leap then 8
  else if d <? 304 + leap then 9
  else if d <? 334 + leap then 10
  else 11.

Definition DateFromTime (t : Z) : Z :=
  DayWithinYear t - monthStart (InLeapYear t) (MonthFromTime t) + 1.

Definition HourFromTime (t : Z) : Z := (t / 3600000) mod 24.
Definition MinFromTime (t : Z) : Z := (t / 60000) mod 60.
Definition SecFromTime (t : Z) : Z := (t / 1000) mod 60.
Definition msFromTime (t : Z) : Z := t mod 1000.

Definition MakeDay (year month date : Z) : Z :=
  let ym := year + month / 12 in
  let mn := month mod 12 in
  DayFromYear ym + monthStart (if isLeapYear ym then 1 else 0) mn + date - 1.

Definition MakeDate (day time : Z) : Z := day * msPerDay + time.

Definition TimeClip (t : Z) : option Z :=
  if Z.abs t <=? 8640000000000000 then Some t else None.

Definition DaysInMonth (y m : Z) : Z :=
  match m with
  | 2 => if isLeapYear y then 29 else 28
  | 4 | 6 | 9 | 11 => 30
  | _ => 31
  end.

(** The date-only form [YYYY-MM-DD] of the Date Time String Format, read
    as UTC midnight; month and day have to exist in that year. *)
Definition parseIsoDate (s : jsstring) : option Z :=
  match s with
  | [y1; y2; y3; y4; h1; m1; m2; h2; d1; d2] =>
      if forallb isDigit [y1; y2; y3; y4; m1; m2; d1; d2]
         && char_eqb h1 (cu "-") && char_eqb h2 (cu "-")
      then
        let y := digitsValue [y1; y2; y3; y4] in
        let m := digitsValue [m1; m2] in
        let d := digitsValue [d1; d2] in
        if (1 <=? m) && (m <=? 12) && (1 <=? d) && (d <=? DaysInMonth y m)
        then Some (MakeDate (MakeDay y (m - 1) d) 0)
        else None
      else None
  | _ => None
  end.


(** What the host's [Date.parse] makes of any other text: the other forms
    of the Date Time String Format and the implementation-defined
    fallbacks. *)
Variable hostDateParse : jsstring -> option Z.

(** The time value of [new Date(dateStr)]. *)
Definition dateParse (s : jsstring) : option Z :=
  match parseIsoDate s with
  | Some t => TimeClip t
  | None =>
      match hostDateParse s with
      | Some t => TimeClip t
      | None => None
      end
  end.

Definition pad (n : nat) (z : Z) : jsstring := padStart n (cu "0") (numberToString z).

(** [Date.prototype.toISOString] of a time value that is not NaN. *)
Definition toISOString (t : Z) : jsstring :=
  let y := YearFromTime t in
  let year :=
    if (0 <=? y) && (y <=? 9999) then pad 4 y
    else (if y <? 0 then js "-" else js "+") ++ pad 6 (Z.abs y) in
  year ++ js "-" ++ pad 2 (MonthFromTime t + 1) ++ js "-" ++ pad 2 (DateFromTime t)
    ++ js "T" ++ pad 2 (HourFromTime t) ++ js ":" ++ pad 2 (MinFromTime t)
    ++ js ":" ++ pad 2 (SecFromTime t) ++ js "." ++ pad 3 (msFromTime t) ++ js "Z".

(** [String.prototype.split] with a separator of one code unit. *)
Fixpoint split (sep : char) (s : jsstring) : list jsstring :=
  match s with
  | [] => [[]]
  | x :: t =>
      match split sep t with
      | w :: ws => if char_eqb x sep then [] :: w :: ws else (x :: w) :: ws
      | [] => [[x]]
      end
  end.

Definition normalizeDate (dateStr : jsstring) : result jsstring :=
  match dateParse dateStr with
  | None => Throw InvalidEventDate
  | Some date => Ok (nth 0%nat (split (cu "T") (toISOString date)) [])
  end.

Local Close Scope Z_scope.

(** ** The pre-save hooks *)

Definition requiredStringFields : list EventKey :=
  [Ktitle; Kdescription; Koverview; Kimage; Kvenue; Klocation; Kdate; Ktime;
   Kmode; Kaudience; Korganizer].

Definition requiredArrayFields : list EventKey := [Kagenda; Ktags].

Definition eventPreSave : Hook EventDocument unit :=
  (* Validate required string fields are present and non-empty *)
  forEach requiredStringFields (fun field =>
    value <- this (get field) ;;
    match value with
    | VString s =>
        if Nat.eqb (length (trim s)) 0 then throw (FieldRequired field) else ret tt
    | _ => throw (FieldRequired field)
    end) ;;
  (* Validate required array fields *)
  forEach requiredArrayFields (fun field =>
    value <- this (get field) ;;
    match value with
    | VArray xs =>
        if Nat.eqb (length xs) 0 then throw (FieldNonEmptyArray field) else ret tt
    | _ => throw (FieldNonEmptyArray field)
    end) ;;
  (* Generate or update slug when title changes *)
  modified <- isModified Ktitle ;;
  (if modified
   then title <- thisString Ktitle ;; assign Kslug (VString (generateSlug title))
   else ret tt) ;;
  (* Normalize date and time formats for consistency *)
  date <- thisString Kdate ;;
  date' <- lift (normalizeDate date) ;;
  assign Kdate (VString date') ;;
  time <- thisString Ktime ;;
  time' <- lift (normalizeTime time) ;;
  assign Ktime (VString time').

(** [/^[^\s@]+@[^\s@]+\.[^\s@]+$/] *)
Definition isAddressChar (c : char) : bool :=
  negb (isWhiteSpace c || char_eqb c (cu "@")).

Definition EMAIL_REGEX : regex :=
  RSeq RBol
 (RSeq (plus (class isAddressChar))
 (RSeq (lit "@")
 (RSeq (plus (class isAddressChar))
 (RSeq (lit ".")
 (RSeq (plus (class isAddressChar))
       REol))))).

Definition bookingPreSave : Hook BookingDocument unit :=
  (* Validate email format before saving *)
  email <- this email ;;
  (if negb (regexTest EMAIL_REGEX email) then throw InvalidEmailAddress else ret tt) ;;
  (* Ensure the referenced event exists before creating a booking *)
  eventId <- this eventId ;;
  existingEvent <- query (FindEventById eventId) (findById eventId) ;;
  match existingEvent with
  | None => throw ReferencedEventMissing
  | Some _ => ret tt
  end.

(** ** The write path *)

(** What a save leaves behind: its outcome, the document in memory, the
    store and the operations asked of the store. *)
Record SaveResult (D : Type) := mkSave {
  saved : result unit;
  document : D;
  store : Store;
  operations : list StoreOp
}.
Arguments mkSave {D} _ _ _ _.

Definition sameSlugElsewhere (d : EventDocument) (st : Store) : bool :=
  existsb (fun e => negb (N.eqb (_id e) (_id d)) && value_eqb (slug e) (slug d))
          (events st).

Definition putEvent (d : EventDocument) (st : Store) : Store :=
  mkStore (d :: filter (fun e => negb (N.eqb (_id e) (_id d))) (events st))
          (bookings st).

(** Modelled from the spec: the write of an event around its hook (section
    4.4, step 6), which the sources at hand leave to the route handlers and
    to Mongoose. The hook runs first; only when it ends without an error is
    the document written, and the store refuses a slug another event
    holds. A written document has no modified path left. *)
Definition saveEvent (st : Store) (d : EventDocument) : SaveResult EventDocument :=
  let '(r, d1, ops) := eventPreSave st d in
  match r with
  | Throw e => mkSave (Throw e) d1 st ops
  | Ok _ =>
      if sameSlugElsewhere d1 st
      then mkSave (Throw (DuplicateKey Kslug)) d1 st (ops ++ [WriteEvent (_id d1)])
      else
        let d2 := put Kslug (slug d1) [] d1 in
        mkSave (Ok tt) d2 (putEvent d2 st) (ops ++ [WriteEvent (_id d1)])
  end.

Definition allKeys : list EventKey :=
  [Ktitle; Kslug; Kdescription; Koverview; Kimage; Kvenue; Klocation; Kdate;
   Ktime; Kmode; Kaudience; Kagenda; Korganizer; Ktags].

(** Modelled from the spec: [createEvent] of section 6, the save of a new
    document, every path the candidate sets counting as modified. *)
Definition createEvent (st : Store) (candidate : EventDocument) : SaveResult EventDocument :=
  let paths := filter (fun k => negb (value_eqb (get k candidate) VUndefined)) allKeys in
  saveEvent st (put Kslug (slug candidate) paths candidate).

(** Modelled from the spec: [createBooking] of section 6 (section 4.5,
    step 3): the hook, then the write. *)
Definition createBooking (st : Store) (candidate : BookingDocument) : SaveResult BookingDocument :=
  let '(r, b1, ops) := bookingPreSave st candidate in
  match r with
  | Throw e => mkSave (Throw e) b1 st ops
  | Ok _ =>
      mkSave (Ok tt) b1 (mkStore (events st) (b1 :: bookings st))
             (ops ++ [WriteBooking (bookingId b1)])
  end.

(** ** The vocabulary of the specification *)

(** The error taxonomy of the specification. *)
Inductive ErrorKind :=
| MissingField (name : string)
| InvalidDate
| InvalidTime
| InvalidEmail
| DanglingReference
| DuplicateSlug
| Unclassified.

Definition kind (e : error) : ErrorKind :=
  match e with
  | FieldRequired f => MissingField (keyName f)
  | FieldNonEmptyArray f => MissingField (keyName f)
  | InvalidEventDate => InvalidDate
  | InvalidEventTime => InvalidTime
  | InvalidEmailAddress => InvalidEmail
  | ReferencedEventMissing => DanglingReference
  | DuplicateKey Kslug => DuplicateSlug
  | _ => Unclassified
  end.

(** The validation errors: all of the taxonomy but [DuplicateSlug]. *)
Definition isValidationError (e : error) : bool :=
  match kind e with
  | MissingField _ | InvalidDate | InvalidTime | InvalidEmail | DanglingReference => true
  | _ => false
  end.

(** A text attribute that is absent or empty after trimming. *)
Definition blank (v : value) : bool :=
  match v with
  | VString s => Nat.eqb (length (trim s)) 0
  | _ => true
  end.

(** A list attribute that is absent, not a list, or empty. *)
Definition noItems (v : value) : bool :=
  match v with
  | VArray xs => Nat.eqb (length xs) 0
  | _ => true
  end.

Definition dash : char := cu "-".
Definition isDash (c : char) : bool := char_eqb dash c.

(** Slug text: lowercase ASCII letters, digits and dashes only. *)
Definition isSlugText (s : jsstring) : bool :=
  forallb (fun c => isSlugChar c || isDash c) s.

Definition startsWithDash (s : jsstring) : bool :=
  match s with
  | x :: _ => isDash x
  | [] => false
  end.

Definition endsWithDash (s : jsstring) : bool := startsWithDash (rev s).

Fixpoint hasTwoDashesInARow (s : jsstring) : bool :=
  match s with
  | x :: t => (isDash x && startsWithDash t) || hasTwoDashesInARow t
  | [] => false
  end.

(** Runs of characters outside [a-z0-9] collapsed to one dash each;
    [inRun] tells that the dash of the current run is already out. *)
Fixpoint collapseRuns (inRun : bool) (s : jsstring) : jsstring :=
  match s with
  | [] => []
  | x :: t =>
      if isSlugChar x then x :: collapseRuns false t
      else if inRun then collapseRuns true t
      else dash :: collapseRuns true t
  end.

(** The text without the dashes it ends with. *)
Fixpoint stripTrailingDashes (s : jsstring) : jsstring :=
  match s with
  | [] => []
  | x :: t => if forallb isDash s then [] else x :: stripTrailingDashes t
  end.

Definition stripDashes (s : jsstring) : jsstring :=
  stripTrailingDashes (dropWhile isDash s).

(** A clock text [HH:mm] with the hour up to [maxHour] and the minute up
    to 59. *)
Definition clockShape (maxHour : Z) (s : jsstring) : bool :=
  match s with
  | [h1; h2; c; m1; m2] =>
      forallb isDigit [h1; h2; m1; m2] && char_eqb c (cu ":")
      && (digitsValue [h1; h2] <=? maxHour)%Z && (digitsValue [m1; m2] <=? 59)%Z
  | _ => false
  end.

(** A 24-hour clock text [HH:mm], hour 00 to 23 and minute 00 to 59. *)
Definition isClockText (s : jsstring) : bool := clockShape 23 s.

(** What [normalizeTime] makes of the groups of a match. *)
Definition timeOfGroups (g1 g2 g3 : option jsstring) : result jsstring :=
  let hour := parseInt10 (orUndefined g1) in
  let minute := parseInt10 (match g2 with Some w => w | None => js "0" end) in
  let meridiem := option_map toLowerCase g3 in
  match hour, minute with
  | Some hour, Some minute =>
      if ((hour <? 0) || (hour >? 23) || (minute <? 0) || (minute >? 59))%Z
      then Throw InvalidEventTime
      else
        let hour :=
          match meridiem with
          | Some ((_ :: _) as meridiem) =>
              if (hour =? 12)%Z
              then (if jsstring_eqb meridiem (js "am") then 0 else 12)%Z
              else if jsstring_eqb meridiem (js "pm") then (hour + 12)%Z
              else hour
          | _ => hour
          end in
        let hourStr := padStart 2 (cu "0") (numberToString hour) in
        let minuteStr := padStart 2 (cu "0") (numberToString minute) in
        Ok (hourStr ++ js ":" ++ minuteStr)
  | _, _ => Throw InvalidEventTime
  end.

Definition digitChars : list char := [48; 49; 50; 51; 52; 53; 54; 55; 56; 57]%N.

(** The texts of one or two digits, and the suffixes of the pattern. *)
Definition digitTexts (n : nat) : list jsstring :=
  match n with
  | 1%nat => map (fun a => [a]) digitChars
  | _ => flat_map (fun a => map (fun b => [a; b]) digitChars) digitChars
  end.

Definition meridiems : list jsstring := [js "AM"; js "PM"; js "am"; js "pm"].

(** An address of the shape local-part, at sign, domain with a dot, and no
    white space (nor a second at sign) anywhere. *)
Definition wellFormedEmail (s : jsstring) : Prop :=
  exists l d t,
    s = l ++ cu "@" :: d ++ cu "." :: t
    /\ l <> [] /\ d <> [] /\ t <> []
    /\ forallb isAddressChar (l ++ d ++ t) = true.

(** The days of month [m] (1 to 12) of year [y] in the Gregorian calendar. *)
Definition monthLength (y m : Z) : Z :=
  let leap := ((y mod 4 =? 0) && negb (y mod 100 =? 0) || (y mod 400 =? 0))%Z in
  nth (Z.to_nat (m - 1)) [31; if leap then 29 else 28; 31; 30; 31; 30; 31; 31; 30; 31; 30; 31]%Z 0%Z.

(** A canonical date text [YYYY-MM-DD] that denotes a day of the calendar. *)
Definition isCanonicalDate (s : jsstring) : bool :=
  match s with
  | [y1; y2; y3; y4; h1; m1; m2; h2; d1; d2] =>
      forallb isDigit [y1; y2; y3; y4; m1; m2; d1; d2]
      && isDash h1 && isDash h2
      && (1 <=? digitsValue [m1; m2])%Z && (digitsValue [m1; m2] <=? 12)%Z
      && (1 <=? digitsValue [d1; d2])%Z
      && (digitsValue [d1; d2] <=? monthLength (digitsValue [y1; y2; y3; y4]) (digitsValue [m1; m2]))%Z
  | _ => false
  end.

(** A candidate event with every attribute in place, at a given time. *)
Definition sampleEvent (time : jsstring) : EventDocument :=
  mkEvent 1%N
    (VString (js "My Dev Talk!!")) VUndefined
    (VString (js "A talk for developers")) (VString (js "One evening, one talk"))
    (VString (js "/images/talk.png")) (VString (js "Hall 1")) (VString (js "Jakarta"))
    (VString (js "2025-01-31")) (VString time)
    (VString (js "offline")) (VString (js "Developers"))
    (VArray [js "Doors open"; js "Talk"]) (VString (js "DevEvent"))
    (VArray [js "dev"])
    [Ktitle; Kdescription; Koverview; Kimage; Kvenue; Klocation; Kdate; Ktime;
     Kmode; Kaudience; Kagenda; Korganizer; Ktags].

(** A document as it is once written: no path modified. *)
Definition written (d : EventDocument) : EventDocument := put Kslug (slug d) [] d.

(** The text of an optional suffix of a time, and the captures of a match
    of hour [h], minute [mi] and that suffix. *)
Definition suffixText (g3 : option jsstring) : jsstring :=
  match g3 with Some mer => mer | None => [] end.

Definition timeCaptures (h mi : jsstring) (g3 : option jsstring) : captures :=
  match g3 with
  | Some mer => [(3%nat, mer); (2%nat, mi); (1%nat, h)]
  | None => [(2%nat, mi); (1%nat, h)]
  end.

(** The suffixes that stand for the afternoon. *)
Definition isPM (mer : jsstring) : bool :=
  jsstring_eqb mer (js "PM") || jsstring_eqb mer (js "pm").

(** The hour on the 24-hour clock of an hour [H] as parsed and a suffix,
    and the result for an hour and a minute as parsed. *)
Definition hour24 (H : Z) (g3 : option jsstring) : Z :=
  match g3 with
  | None => H
  | Some mer =>
      if (H =? 12)%Z then (if isPM mer then 12 else 0)%Z
      else if isPM mer then (H + 12)%Z else H
  end.

Definition timeResult (H M : Z) (mi : jsstring) (g3 : option jsstring) : result jsstring :=
  if ((H >? 23) || (M >? 59))%Z then Throw InvalidEventTime
  else Ok (pad 2 (hour24 H g3) ++ js ":" ++ mi).

Definition sameResult (a b : result jsstring) : bool :=
  match a, b with
  | Ok x, Ok y => jsstring_eqb x y
  | Throw InvalidEventTime, Throw InvalidEventTime => true
  | _, _ => false
  end.

Definition startsWithSpace (s : jsstring) : bool :=
  match s with
  | x :: _ => isWhiteSpace x
  | [] => false
  end.

(** The pattern after the hour: an optional colon, two digits of minutes,
    white space, an optional suffix, the end. *)
Definition afterHour : regex :=
  RSeq (RSeq (opt (lit ":")) (RGroup 2 (RRep 2 (Some 2) (class isDigit))))
 (RSeq (star (class isWhiteSpace))
 (RSeq (opt (RGroup 3 (RAlt (str "AM") (RAlt (str "PM") (RAlt (str "am") (str "pm"))))))
       REol)).

(** The text of a number padded to [k] digits is [k] digits that read as
    the number. *)
Definition wellPadded (k : nat) (y : Z) : bool :=
  Nat.eqb (length (pad k y)) k && forallb isDigit (pad k y)
  && (digitsValue (pad k y) =? y)%Z.

(** The paths the hook writes. *)
Definition normalised (k : EventKey) : bool :=
  match k with Kslug | Kdate | Ktime => true | _ => false end.

(** A document that differs from another at most in the paths the hook
    writes, and in their being recorded as modified. *)
Definition framed (d d' : EventDocument) : Prop :=
  _id d' = _id d
  /\ (forall k, normalised k = false -> get k d' = get k d)
  /\ (forall k, In k (modifiedPaths d) -> In k (modifiedPaths d'))
  /\ (forall k, In k (modifiedPaths d') ->
        In k (modifiedPaths d) \/ normalised k = true).

(** ** Properties of the matcher *)

Lemma clearcaps_nil (c : captures) : clearcaps [] c = c.
Proof.
  unfold clearcaps. induction c as [|e c IH]; simpl in *; [reflexivity|].
  now f_equal.
Qed.

(** Where a run of [p] stops. *)
Definition stopsAt (p : char -> bool) (s : jsstring) : Prop :=
  match s with
  | [] => True
  | y :: _ => p y = false
  end.

Definition within (n : nat) (max : option nat) : Prop :=
  match max with
  | Some mx => n <= mx
  | None => True
  end.

Section ClassRepetition.
Variable n : nat.
Variable p : char -> bool.

Let step := matcher n (class p).

(** A repetition of a class takes the whole run when what follows the
    run lets the rest of the pattern match. *)
Lemma repeat_class_greedy (w s' : jsstring) :
  forall fuel min max k c res,
    forallb p w = true ->
    stopsAt p s' \/ max = Some (length w) ->
    min <= length w -> within (length w) max -> length w < fuel ->
    k s' c = Some res ->
    repeatMatcher step [] fuel min max k (w ++ s') c = Some res.
Proof.
  induction w as [|x w IH]; intros fuel min max k c res Hp Hstop Hmin Hmax Hfuel Hk;
    (destruct fuel as [|fuel]; [simpl in Hfuel; lia|]).
  - simpl in *. assert (min = 0) by lia. subst min.
    destruct (isZero max) eqn:Hz; [exact Hk|].
    rewrite clearcaps_nil. simpl.
    destruct Hstop as [Hstop | Hmx].
    + unfold step. destruct s' as [|y s']; simpl; [exact Hk|].
      simpl in Hstop. rewrite Hstop. exact Hk.
    + subst max. discriminate.
  - simpl in Hp. apply andb_true_iff in Hp. destruct Hp as [Hx Hw].
    assert (Hnz : isZero max = false).
    { destruct max as [[|mx]|]; simpl in *; try reflexivity; lia. }
    simpl repeatMatcher. rewrite Hnz, clearcaps_nil.
    assert (Hd : step (fun s0 c' =>
                  if Nat.eqb min 0 && Nat.eqb (length s0) (length ((x :: w) ++ s'))
                  then None
                  else repeatMatcher step [] fuel (pred min) (decmax max) k s0 c')
                 ((x :: w) ++ s') c = Some res).
    { unfold step at 1. simpl. rewrite Hx.
      replace (Nat.eqb (length (w ++ s')) (S (length (w ++ s')))) with false
        by (symmetry; apply Nat.eqb_neq; lia).
      rewrite andb_false_r.
      apply IH; try assumption; simpl in *; try lia.
      - destruct Hstop as [Hstop | Hmx]; [now left|].
        right. subst max. reflexivity.
      - destruct max as [mx|]; simpl in *; lia. }
    simpl in Hd |- *. rewrite Hd. destruct (Nat.ltb 0 min); reflexivity.
Qed.

(** Whatever a repetition of a class matches is a run of the class, of a
    length the quantifier allows, after which the rest of the pattern
    matched. *)
Lemma repeat_class_sound :
  forall fuel min max k s c res,
    within min max ->
    repeatMatcher step [] fuel min max k s c = Some res ->
    exists w s', s = w ++ s' /\ forallb p w = true /\ min <= length w
                 /\ within (length w) max /\ k s' c = Some res.
Proof.
  induction fuel as [|fuel IH]; intros min max k s c res Hwf H; [discriminate|].
  simpl in H. destruct (isZero max) eqn:Hz.
  - exists [], s. destruct max as [[|mx]|]; try discriminate. simpl in *.
    repeat split; auto; lia.
  - rewrite clearcaps_nil in H.
    assert (Hiter : forall r0,
              step (fun s0 c' =>
                  if Nat.eqb min 0 && Nat.eqb (length s0) (length s) then None
                  else repeatMatcher step [] fuel (pred min) (decmax max) k s0 c')
                s c = Some r0 ->
              exists w s', s = w ++ s' /\ forallb p w = true /\ min <= length w
                 /\ within (length w) max /\ k s' c = Some r0).
    { intros r0 Hs. unfold step in Hs. destruct s as [|x s]; simpl in Hs; [discriminate|].
      destruct (p x) eqn:Hx; [|discriminate].
      destruct (Nat.eqb min 0 && Nat.eqb (length s) (S (length s))); [discriminate|].
      apply IH in Hs.
      - destruct Hs as (w & s' & -> & Hw & Hmin & Hmax & Hk).
        exists (x :: w), s'. simpl. rewrite Hx, Hw.
        repeat split; auto; try lia.
        destruct max as [[|mx]|]; simpl in *; try discriminate; auto; lia.
      - destruct max as [[|mx]|]; simpl in *; try discriminate; auto; lia. }
    destruct (Nat.ltb 0 min) eqn:Hlt.
    + now apply Hiter.
    + apply Nat.ltb_ge in Hlt. assert (min = 0) by lia. subst min.
      match type of H with match ?X with _ => _ end = _ => destruct X as [r0|] eqn:Hs end.
      * inversion H; subst r0. now apply Hiter.
      * exists [], s. simpl. repeat split; auto;
          destruct max as [mx|]; simpl; auto; lia.
Qed.

(** A run of the class the quantifier allows, followed by text on which
    the rest of the pattern matches, makes the repetition match (not
    necessarily in that way). *)
Lemma repeat_class_complete (w s' : jsstring) :
  forall fuel min max k c res,
    forallb p w = true ->
    min <= length w -> within (length w) max -> length w < fuel ->
    k s' c = Some res ->
    exists res', repeatMatcher step [] fuel min max k (w ++ s') c = Some res'.
Proof.
  induction w as [|x w IH]; intros fuel min max k c res Hp Hmin Hmax Hfuel Hk;
    (destruct fuel as [|fuel]; [simpl in Hfuel; lia|]).
  - simpl in *. assert (min = 0) by lia. subst min.
    destruct (isZero max); [eauto|]. simpl.
    match goal with |- exists r, match ?X with _ => _ end = _ => destruct X end; eauto.
  - simpl in Hp. apply andb_true_iff in Hp. destruct Hp as [Hx Hw].
    assert (Hnz : isZero max = false).
    { destruct max as [[|mx]|]; simpl in *; try reflexivity; lia. }
    simpl repeatMatcher. rewrite Hnz, clearcaps_nil.
    assert (Hd : exists res', step (fun s0 c' =>
                  if Nat.eqb min 0 && Nat.eqb (length s0) (length ((x :: w) ++ s'))
                  then None
                  else repeatMatcher step [] fuel (pred min) (decmax max) k s0 c')
                 ((x :: w) ++ s') c = Some res').
    { unfold step at 1. simpl. rewrite Hx.
      replace (Nat.eqb (length (w ++ s')) (S (length (w ++ s')))) with false
        by (symmetry; apply Nat.eqb_neq; lia).
      rewrite andb_false_r.
      apply IH with (res := res); try assumption; simpl in *; try lia.
      destruct max as [mx|]; simpl in *; lia. }
    destruct Hd as [res' Hd]. exists res'.
    simpl in Hd |- *. rewrite Hd. destruct (Nat.ltb 0 min); reflexivity.
Qed.

End ClassRepetition.

Lemma takeWhile_dropWhile p s : takeWhile p s ++ dropWhile p s = s.
Proof. induction s as [|x s IH]; simpl; [reflexivity|]. destruct (p x); simpl; congruence. Qed.

Lemma takeWhile_all p s : forallb p (takeWhile p s) = true.
Proof. induction s as [|x s IH]; simpl; [reflexivity|]. destruct (p x) eqn:E; simpl; [now rewrite E|reflexivity]. Qed.

Lemma dropWhile_stops p s : stopsAt p (dropWhile p s).
Proof. induction s as [|x s IH]; simpl; [exact I|]. destruct (p x) eqn:E; simpl; assumption. Qed.

Lemma dropWhile_length p s : length (dropWhile p s) <= length s.
Proof. induction s as [|x s IH]; simpl; [lia|]. destruct (p x); simpl; lia. Qed.

Lemma takeWhile_length p s : length (takeWhile p s) <= length s.
Proof. induction s as [|x s IH]; simpl; [lia|]. destruct (p x); simpl; lia. Qed.

Lemma forallb_takeWhile_id p s : forallb p s = true -> takeWhile p s = s /\ dropWhile p s = [].
Proof.
  induction s as [|x s IH]; simpl; [auto|].
  destruct (p x); simpl; [|discriminate]. intros H. destruct (IH H) as [-> ->]. auto.
Qed.

(** The equations of the matcher. *)
Lemma matcher_seq n a b k s c :
  matcher n (RSeq a b) k s c = matcher n a (matcher n b k) s c.
Proof. reflexivity. Qed.

Lemma matcher_alt n a b k s c :
  matcher n (RAlt a b) k s c =
    match matcher n a k s c with Some r => Some r | None => matcher n b k s c end.
Proof. reflexivity. Qed.

Lemma matcher_bol n k s c :
  matcher n RBol k s c = if Nat.eqb (length s) n then k s c else None.
Proof. reflexivity. Qed.

Lemma matcher_eol n k s c :
  matcher n REol k s c = match s with [] => k s c | _ :: _ => None end.
Proof. reflexivity. Qed.

Lemma matcher_char n p k x s c :
  matcher n (class p) k (x :: s) c = if p x then k s c else None.
Proof. reflexivity. Qed.

Lemma matcher_group n i r k s c :
  matcher n (RGroup i r) k s c =
    matcher n r (fun s' c' => k s' ((i, firstn (length s - length s') s) :: c')) s c.
Proof. reflexivity. Qed.

Lemma matcher_plus_class_miss n p k x t c :
  p x = false -> matcher n (plus (class p)) k (x :: t) c = None.
Proof. intros H. cbn. rewrite H. reflexivity. Qed.

(** A quantified class, unbounded, takes the whole run of the class when
    the rest of the pattern matches after it. *)
Lemma matcher_class_run n p min k s c res :
  min <= length (takeWhile p s) ->
  k (dropWhile p s) c = Some res ->
  matcher n (RRep min None (class p)) k s c = Some res.
Proof.
  intros Hmin Hk.
  pose proof (@repeat_class_greedy n p (takeWhile p s) (dropWhile p s)
                (S (min + length s)) min None k c res) as H.
  rewrite takeWhile_dropWhile in H. apply H; auto.
  - apply takeWhile_all.
  - left. apply dropWhile_stops.
  - exact I.
  - pose proof (takeWhile_length p s). lia.
Qed.

(** What a quantified class followed by the end of the pattern matches is
    a run of the class. *)
Lemma matcher_class_sound n p min max k s c res :
  within min max ->
  matcher n (RRep min max (class p)) k s c = Some res ->
  exists w s', s = w ++ s' /\ forallb p w = true /\ min <= length w
               /\ within (length w) max /\ k s' c = Some res.
Proof. intros Hwf H. exact (@repeat_class_sound n p _ min max k s c res Hwf H). Qed.

Lemma matcher_class_complete n p min max k w s' c res :
  forallb p w = true -> min <= length w -> within (length w) max ->
  k s' c = Some res ->
  exists res', matcher n (RRep min max (class p)) k (w ++ s') c = Some res'.
Proof.
  intros Hp Hmin Hmax Hk.
  apply (@repeat_class_complete n p w s' _ min max k c res); auto.
  rewrite length_app. lia.
Qed.

(** ** Properties of the slug generator *)

Definition notSlugChar (c : char) : bool := negb (isSlugChar c).

(** The pattern [[^a-z0-9]+] matches, where a run of such characters
    starts, the whole run. *)
Lemma matchAt_nonAlphanumeric input s :
  matchAt nonAlphanumeric input s =
    match s with
    | [] => None
    | x :: t => if isSlugChar x then None
                else Some (MatchResult s (dropWhile notSlugChar t) [])
    end.
Proof.
  unfold matchAt, nonAlphanumeric. fold notSlugChar.
  destruct s as [|x t]; [reflexivity|].
  destruct (isSlugChar x) eqn:Hx.
  - rewrite matcher_plus_class_miss; [reflexivity|]. unfold notSlugChar. now rewrite Hx.
  - unfold plus.
    rewrite (@matcher_class_run _ _ _ _ _ _ (dropWhile notSlugChar (x :: t), [])).
    + simpl. unfold notSlugChar at 1. rewrite Hx. reflexivity.
    + simpl. unfold notSlugChar at 1. rewrite Hx. simpl. lia.
    + reflexivity.
Qed.

Lemma collapseRuns_inRun s :
  collapseRuns true s = collapseRuns false (dropWhile notSlugChar s).
Proof.
  induction s as [|x s IH]; [reflexivity|].
  simpl. unfold notSlugChar at 1. destruct (isSlugChar x) eqn:Hx; simpl.
  - now rewrite Hx.
  - exact IH.
Qed.

Lemma replaceFrom_nonAlphanumeric input :
  forall fuel s, length s < fuel ->
    replaceFrom fuel nonAlphanumeric (js "-") input s = collapseRuns false s.
Proof.
  induction fuel as [|fuel IH]; intros s Hlen; [lia|].
  cbn [replaceFrom]. rewrite matchAt_nonAlphanumeric.
  destruct s as [|x t]; [reflexivity|].
  simpl in Hlen. cbn [collapseRuns].
  destruct (isSlugChar x) eqn:Hx.
  - rewrite IH by lia. reflexivity.
  - cbn [matchEnd].
    pose proof (dropWhile_length notSlugChar t) as Hd.
    replace (Nat.ltb (length (dropWhile notSlugChar t)) (length (x :: t))) with true
      by (symmetry; apply Nat.ltb_lt; simpl; lia).
    rewrite IH by lia. rewrite collapseRuns_inRun. reflexivity.
Qed.

(** [-+$] matches exactly on a text of dashes, and takes it all. *)
Lemma matcher_dashes_to_end n s c :
  matcher n (RSeq (plus (class isDash)) REol) accept s c =
    match s with
    | [] => None
    | _ :: _ => if forallb isDash s then Some ([], c) else None
    end.
Proof.
  destruct s as [|x t]; [reflexivity|].
  rewrite matcher_seq. unfold plus.
  destruct (forallb isDash (x :: t)) eqn:Hall.
  - destruct (forallb_takeWhile_id _ _ Hall) as [Ht Hd].
    apply matcher_class_run.
    + rewrite Ht. simpl. lia.
    + rewrite Hd. reflexivity.
  - match goal with |- ?X = None => destruct X as [res|] eqn:Hm end; [|reflexivity].
    apply matcher_class_sound in Hm; [|exact I].
    destruct Hm as (w & s' & Hs & Hw & _ & _ & Hk).
    destruct s' as [|y s']; [|discriminate].
    rewrite app_nil_r in Hs. rewrite Hs, Hw in Hall. discriminate.
Qed.

Lemma matchAt_edgeDashes_inside input s :
  length s < length input ->
  matchAt edgeDashes input s =
    match s with
    | [] => None
    | _ :: _ => if forallb isDash s then Some (MatchResult s [] []) else None
    end.
Proof.
  intros Hin. unfold matchAt, edgeDashes. change (lit "-") with (class isDash).
  rewrite matcher_alt, matcher_seq, matcher_bol.
  replace (Nat.eqb (length s) (length input)) with false
    by (symmetry; apply Nat.eqb_neq; lia).
  rewrite matcher_dashes_to_end.
  destruct s as [|x t]; [reflexivity|].
  destruct (forallb isDash (x :: t)); reflexivity.
Qed.

Lemma matchAt_edgeDashes_start u :
  matchAt edgeDashes u u =
    match u with
    | [] => None
    | x :: _ => if isDash x then Some (MatchResult u (dropWhile isDash u) []) else None
    end.
Proof.
  unfold matchAt, edgeDashes. change (lit "-") with (class isDash).
  rewrite matcher_alt, matcher_seq, matcher_bol, Nat.eqb_refl.
  destruct u as [|x t]; [reflexivity|].
  destruct (isDash x) eqn:Hx.
  - unfold plus at 1.
    rewrite (@matcher_class_run _ _ _ _ _ _ (dropWhile isDash (x :: t), [])).
    + reflexivity.
    + simpl. rewrite Hx. simpl. lia.
    + reflexivity.
  - rewrite matcher_plus_class_miss by exact Hx.
    rewrite matcher_seq, matcher_plus_class_miss by exact Hx. reflexivity.
Qed.

(** Away from the start of the text the pattern [^-+|-+$] removes the
    dashes the text ends with, and nothing else. *)
Lemma replaceFrom_edgeDashes_inside input :
  forall fuel s, length s < length input -> length s < fuel ->
    replaceFrom fuel edgeDashes (js "") input s = stripTrailingDashes s.
Proof.
  induction fuel as [|fuel IH]; intros s Hin Hlen; [lia|].
  cbn [replaceFrom]. rewrite matchAt_edgeDashes_inside by exact Hin.
  destruct s as [|x t]; [reflexivity|].
  simpl in Hlen, Hin. cbn [stripTrailingDashes].
  destruct (forallb isDash (x :: t)) eqn:Hall.
  - cbn [matchEnd].
    replace (Nat.ltb (length (@nil char)) (length (x :: t))) with true
      by (symmetry; apply Nat.ltb_lt; simpl; lia).
    match goal with |- context [js "" ++ ?z] => change (js "" ++ z) with z end.
    rewrite IH by (simpl; lia). reflexivity.
  - rewrite IH by lia. reflexivity.
Qed.

Lemma replaceAll_edgeDashes u :
  replaceAll edgeDashes (js "") u = stripDashes u.
Proof.
  unfold replaceAll, stripDashes. cbn [replaceFrom].
  rewrite matchAt_edgeDashes_start.
  destruct u as [|x t]; [reflexivity|].
  destruct (isDash x) eqn:Hx.
  - cbn [matchEnd].
    pose proof (dropWhile_length isDash t) as Hd.
    assert (Hlt : length (dropWhile isDash (x :: t)) < length (x :: t)).
    { simpl. rewrite Hx. simpl. lia. }
    replace (Nat.ltb (length (dropWhile isDash (x :: t))) (length (x :: t))) with true
      by (symmetry; apply Nat.ltb_lt; exact Hlt).
    match goal with |- context [js "" ++ ?z] => change (js "" ++ z) with z end.
    apply replaceFrom_edgeDashes_inside; exact Hlt.
  - cbn [dropWhile]. rewrite Hx.
    cbn [stripTrailingDashes forallb]. rewrite Hx. cbn [andb].
    rewrite replaceFrom_edgeDashes_inside by (simpl; lia). reflexivity.
Qed.

(** The slug generator in closed form: lower case, trim, collapse the
    runs, strip the dashes at both ends. *)
Lemma generateSlug_closed title :
  generateSlug title = stripDashes (collapseRuns false (trim (toLowerCase title))).
Proof.
  unfold generateSlug. rewrite replaceAll_edgeDashes. f_equal.
  unfold replaceAll. apply replaceFrom_nonAlphanumeric. lia.
Qed.

Lemma slugChar_not_dash x : isSlugChar x = true -> isDash x = false.
Proof.
  unfold isSlugChar, isDash, isDigit, inRange, char_eqb, dash, cu. simpl N_of_ascii.
  rewrite orb_true_iff, !andb_true_iff, !N.leb_le, N.eqb_neq. lia.
Qed.

Lemma isDash_dash : isDash dash = true.
Proof. reflexivity. Qed.

Lemma collapseRuns_text b s : isSlugText (collapseRuns b s) = true.
Proof.
  unfold isSlugText. revert b.
  induction s as [|x s IH]; intros b; simpl; [reflexivity|].
  destruct (isSlugChar x) eqn:Hx; [simpl; now rewrite Hx, IH|].
  destruct b; [apply IH|]. cbn [forallb]. rewrite IH, isDash_dash, orb_true_r. reflexivity.
Qed.

Lemma collapseRuns_dashes s :
  forall b, hasTwoDashesInARow (collapseRuns b s) = false
            /\ (b = true -> startsWithDash (collapseRuns b s) = false).
Proof.
  induction s as [|x s IH]; intros b; simpl; [auto|].
  destruct (isSlugChar x) eqn:Hx.
  - simpl. rewrite (slugChar_not_dash _ Hx). destruct (IH false) as [-> _]. auto.
  - destruct b.
    + apply IH.
    + destruct (IH true) as [H1 H2]. specialize (H2 eq_refl).
      split; [|discriminate].
      cbn [hasTwoDashesInARow]. rewrite H1, H2, andb_false_r. reflexivity.
Qed.

Lemma hasTwoDashesInARow_app a b :
  hasTwoDashesInARow (a ++ b) = false ->
  hasTwoDashesInARow a = false /\ hasTwoDashesInARow b = false.
Proof.
  induction a as [|x a IH]; simpl; [auto|].
  rewrite !orb_false_iff. intros [H1 H2]. destruct (IH H2) as [Ha Hb].
  repeat split; auto.
  destruct a; simpl in *; [apply andb_false_r | exact H1].
Qed.

Lemma stripTrailingDashes_prefix s :
  exists rest, s = stripTrailingDashes s ++ rest.
Proof.
  induction s as [|x s [rest IH]]; [exists []; reflexivity|].
  cbn [stripTrailingDashes]. destruct (forallb isDash (x :: s)).
  - exists (x :: s). reflexivity.
  - exists rest. simpl. now rewrite <- IH.
Qed.

Lemma stripTrailingDashes_nil s :
  stripTrailingDashes s = [] -> forallb isDash s = true.
Proof.
  destruct s as [|x s]; [reflexivity|].
  cbn [stripTrailingDashes]. destruct (forallb isDash (x :: s)); [reflexivity|discriminate].
Qed.

Lemma stripTrailingDashes_end s : endsWithDash (stripTrailingDashes s) = false.
Proof.
  unfold endsWithDash.
  induction s as [|x s IH]; [reflexivity|].
  cbn [stripTrailingDashes]. destruct (forallb isDash (x :: s)) eqn:Hall; [reflexivity|].
  destruct (stripTrailingDashes s) as [|y r] eqn:Hs.
  - apply stripTrailingDashes_nil in Hs. simpl in Hall |- *. rewrite Hs, andb_true_r in Hall.
    exact Hall.
  - change (rev (x :: y :: r)) with (rev (y :: r) ++ [x]).
    destruct (rev (y :: r)) as [|z q] eqn:Hr.
    + apply (f_equal (@length char)) in Hr. rewrite length_rev in Hr. discriminate.
    + exact IH.
Qed.

Lemma stripDashes_start u : startsWithDash (stripDashes u) = false.
Proof.
  unfold stripDashes. pose proof (dropWhile_stops isDash u) as H.
  destruct (dropWhile isDash u) as [|y r]; [reflexivity|].
  simpl in H. cbn [stripTrailingDashes forallb]. rewrite H. exact H.
Qed.

Lemma stripDashes_sub u : exists pre post, u = pre ++ stripDashes u ++ post.
Proof.
  unfold stripDashes.
  destruct (stripTrailingDashes_prefix (dropWhile isDash u)) as [post Hpost].
  exists (takeWhile isDash u), post.
  rewrite <- Hpost. symmetry. apply takeWhile_dropWhile.
Qed.

(** C4. For every title the slug holds lowercase ASCII letters, digits and
    dashes only, neither starts nor ends with a dash and has no two dashes
    in a row: it is the lower-cased, trimmed title with each maximal run of
    characters outside [a-z0-9] collapsed to one dash and the dashes at
    both ends stripped. The generator is total, and the empty title yields
    the empty slug. *)
Theorem generateSlug_shape (title : jsstring) :
  isSlugText (generateSlug title) = true
  /\ startsWithDash (generateSlug title) = false
  /\ endsWithDash (generateSlug title) = false
  /\ hasTwoDashesInARow (generateSlug title) = false
  /\ generateSlug title = stripDashes (collapseRuns false (trim (toLowerCase title)))
  /\ generateSlug (js "") = js "".
Proof.
  rewrite generateSlug_closed.
  set (u := collapseRuns false (trim (toLowerCase title))).
  destruct (stripDashes_sub u) as (pre & post & Hu).
  pose proof (collapseRuns_text false (trim (toLowerCase title))) as Htext.
  destruct (collapseRuns_dashes (trim (toLowerCase title)) false) as [Htwo _].
  fold u in Htext, Htwo. rewrite Hu in Htext, Htwo.
  unfold isSlugText in Htext. rewrite !forallb_app, !andb_true_iff in Htext.
  apply hasTwoDashesInARow_app in Htwo. destruct Htwo as [_ Htwo].
  apply hasTwoDashesInARow_app in Htwo. destruct Htwo as [Htwo _].
  repeat split.
  - apply Htext.
  - apply stripDashes_start.
  - apply stripTrailingDashes_end.
  - exact Htwo.
Qed.

(** ** Properties of the booking hook *)

Lemma execFrom_anchored_inside r input :
  forall s, length s < length input -> execFrom (RSeq RBol r) input s = None.
Proof.
  induction s as [|x s IH]; intros Hlen; cbn [execFrom]; unfold matchAt;
    rewrite matcher_seq, matcher_bol;
    (replace (Nat.eqb (length _) (length input)) with false
       by (symmetry; apply Nat.eqb_neq; lia)); [reflexivity|].
  apply IH. simpl in Hlen. lia.
Qed.

(** A pattern that starts with [^] matches at the start of the text or
    nowhere. *)
Lemma regexMatch_anchored r input :
  regexMatch (RSeq RBol r) input = matchAt (RSeq RBol r) input input.
Proof.
  unfold regexMatch. destruct input as [|x t]; cbn [execFrom];
    destruct (matchAt (RSeq RBol r) _ _); try reflexivity.
  apply execFrom_anchored_inside. simpl. lia.
Qed.

Lemma matcher_lit n a k s c res :
  matcher n (lit a) k s c = Some res ->
  exists s', s = cu a :: s' /\ k s' c = Some res.
Proof.
  destruct s as [|x s]; [discriminate|].
  unfold lit. fold (class (char_eqb (cu a))). rewrite matcher_char.
  destruct (char_eqb (cu a) x) eqn:E; [|discriminate].
  apply N.eqb_eq in E. subst x. eauto.
Qed.

Lemma matcher_lit_hit n a k s c :
  matcher n (lit a) k (cu a :: s) c = k s c.
Proof.
  unfold lit. fold (class (char_eqb (cu a))). rewrite matcher_char.
  unfold char_eqb. now rewrite N.eqb_refl.
Qed.

(** The pattern of the booking hook accepts exactly the well-formed
    addresses. *)
Lemma EMAIL_REGEX_spec (s : jsstring) :
  regexTest EMAIL_REGEX s = true <-> wellFormedEmail s.
Proof.
  unfold regexTest, EMAIL_REGEX. rewrite regexMatch_anchored. unfold matchAt.
  rewrite matcher_seq, matcher_bol, Nat.eqb_refl.
  split.
  - destruct (matcher _ _ accept s []) as [[e c]|] eqn:Hm; [intros _|discriminate].
    rewrite matcher_seq in Hm. unfold plus in Hm.
    apply matcher_class_sound in Hm; [|exact I].
    destruct Hm as (l & s1 & -> & Hl & Hl1 & _ & Hm).
    rewrite matcher_seq in Hm. apply matcher_lit in Hm. destruct Hm as (s2 & -> & Hm).
    rewrite matcher_seq in Hm. apply matcher_class_sound in Hm; [|exact I].
    destruct Hm as (d & s3 & -> & Hd & Hd1 & _ & Hm).
    rewrite matcher_seq in Hm. apply matcher_lit in Hm. destruct Hm as (s4 & -> & Hm).
    rewrite matcher_seq in Hm. apply matcher_class_sound in Hm; [|exact I].
    destruct Hm as (t & s5 & -> & Ht & Ht1 & _ & Hm).
    rewrite matcher_eol in Hm. destruct s5; [|discriminate].
    exists l, d, t. rewrite app_nil_r, !forallb_app, Hl, Hd, Ht.
    repeat split; try reflexivity; intros ->; simpl in *; lia.
  - intros (l & d & t & -> & Hl & Hd & Ht & Hall).
    rewrite !forallb_app, !andb_true_iff in Hall. destruct Hall as (Hal & Had & Hat).
    assert (H3 : forall c, exists res,
               matcher (length (l ++ cu "@" :: d ++ cu "." :: t))
                 (RSeq (plus (class isAddressChar)) REol) accept t c = Some res).
    { intros c. rewrite matcher_seq.
      destruct (@matcher_class_complete (length (l ++ cu "@" :: d ++ cu "." :: t))
                  isAddressChar 1 None
                  (matcher (length (l ++ cu "@" :: d ++ cu "." :: t)) REol accept)
                  t [] c ([], c)) as [res Hres];
        [ exact Hat | destruct t; [congruence | simpl; lia] | exact I | reflexivity | ].
      rewrite app_nil_r in Hres. eauto. }
    assert (H2 : forall c, exists res,
               matcher (length (l ++ cu "@" :: d ++ cu "." :: t))
                 (RSeq (plus (class isAddressChar))
                    (RSeq (lit ".") (RSeq (plus (class isAddressChar)) REol)))
                 accept (d ++ cu "." :: t) c = Some res).
    { intros c. destruct (H3 c) as [res Hres]. rewrite matcher_seq.
      apply matcher_class_complete with (res := res);
        [ exact Had | destruct d; [congruence | simpl; lia] | exact I | ].
      rewrite matcher_seq, matcher_lit_hit. exact Hres. }
    destruct (H2 []) as [res Hres].
    rewrite matcher_seq.
    destruct (@matcher_class_complete (length (l ++ cu "@" :: d ++ cu "." :: t))
                isAddressChar 1 None
                (matcher (length (l ++ cu "@" :: d ++ cu "." :: t))
                   (RSeq (lit "@")
                      (RSeq (plus (class isAddressChar))
                         (RSeq (lit ".") (RSeq (plus (class isAddressChar)) REol))))
                   accept)
                l (cu "@" :: d ++ cu "." :: t) [] res) as [res' Hres'];
      [ exact Hal | destruct l; [congruence | simpl; lia] | exact I
      | rewrite matcher_seq, matcher_lit_hit; exact Hres | ].
    unfold plus in *. rewrite Hres'. destruct res'. reflexivity.
Qed.

(** ** Properties of the event hook *)

Lemma get_put k k' v ps d :
  get k (put k' v ps d) = if key_eqb k k' then v else get k d.
Proof. destruct k, k'; reflexivity. Qed.

Lemma get_assignValue k k' v d :
  get k (assignValue k' v d) = if key_eqb k k' then v else get k d.
Proof.
  unfold assignValue, value_eqb. destruct (value_eq_dec (get k' d) v) as [E|E].
  - unfold key_eqb. destruct (EventKey_eq_dec k k') as [->|]; [exact E|reflexivity].
  - apply get_put.
Qed.

Lemma get_assignValue_other k k' v d :
  k <> k' -> get k (assignValue k' v d) = get k d.
Proof.
  intros H. rewrite get_assignValue. unfold key_eqb.
  destruct (EventKey_eq_dec k k'); [contradiction|reflexivity].
Qed.

Lemma get_assignValue_same k v d : get k (assignValue k v d) = v.
Proof.
  rewrite get_assignValue. unfold key_eqb.
  destruct (EventKey_eq_dec k k); [reflexivity|contradiction].
Qed.

Lemma requiredStrings_loop st d fields :
  forEach fields (fun field =>
    value <- this (get field) ;;
    match value with
    | VString s =>
        if Nat.eqb (length (trim s)) 0 then throw (FieldRequired field) else ret tt
    | _ => throw (FieldRequired field)
    end) st d
  = match find (fun f => blank (get f d)) fields with
    | Some k => (Throw (FieldRequired k), d, [])
    | None => (Ok tt, d, [])
    end.
Proof.
  induction fields as [|f fields IH]; [reflexivity|].
  cbn [forEach find]. unfold bind at 1. unfold bind at 1. unfold this at 1.
  unfold blank at 1.
  destruct (get f d) as [| | | |s0|]; try reflexivity.
  destruct (Nat.eqb (length (trim s0)) 0); [reflexivity|].
  cbn. rewrite IH. destruct (find _ fields); reflexivity.
Qed.

Lemma requiredArrays_loop st d fields :
  forEach fields (fun field =>
    value <- this (get field) ;;
    match value with
    | VArray xs =>
        if Nat.eqb (length xs) 0 then throw (FieldNonEmptyArray field) else ret tt
    | _ => throw (FieldNonEmptyArray field)
    end) st d
  = match find (fun f => noItems (get f d)) fields with
    | Some k => (Throw (FieldNonEmptyArray k), d, [])
    | None => (Ok tt, d, [])
    end.
Proof.
  induction fields as [|f fields IH]; [reflexivity|].
  cbn [forEach find]. unfold bind at 1. unfold bind at 1. unfold this at 1.
  unfold noItems at 1.
  destruct (get f d) as [| | | | |xs]; try reflexivity.
  destruct (Nat.eqb (length xs) 0); [reflexivity|].
  cbn. rewrite IH. destruct (find _ fields); reflexivity.
Qed.

Definition titleModified (d : EventDocument) : bool :=
  existsb (key_eqb Ktitle) (modifiedPaths d).

(** What the hook does to a document once the required fields are there:
    the slug, then the date, then the time. *)
Definition afterChecks (d : EventDocument) (t dt tm : jsstring)
  : result unit * EventDocument * list StoreOp :=
  let d1 := if titleModified d
            then assignValue Kslug (VString (generateSlug t)) d else d in
  match normalizeDate dt with
  | Throw e => (Throw e, d1, [])
  | Ok dt' =>
      let d2 := assignValue Kdate (VString dt') d1 in
      match normalizeTime tm with
      | Throw e => (Throw e, d2, [])
      | Ok tm' => (Ok tt, assignValue Ktime (VString tm') d2, [])
      end
  end.

Lemma eventPreSave_missing_string st d k :
  find (fun f => blank (get f d)) requiredStringFields = Some k ->
  eventPreSave st d = (Throw (FieldRequired k), d, []).
Proof.
  intros H. unfold eventPreSave. unfold bind at 1.
  rewrite requiredStrings_loop, H. reflexivity.
Qed.

Lemma eventPreSave_missing_array st d k :
  find (fun f => blank (get f d)) requiredStringFields = None ->
  find (fun f => noItems (get f d)) requiredArrayFields = Some k ->
  eventPreSave st d = (Throw (FieldNonEmptyArray k), d, []).
Proof.
  intros H1 H2. unfold eventPreSave. unfold bind at 1.
  rewrite requiredStrings_loop, H1. unfold bind at 1.
  rewrite requiredArrays_loop, H2. reflexivity.
Qed.

Lemma eventPreSave_checked st d t dt tm :
  find (fun f => blank (get f d)) requiredStringFields = None ->
  find (fun f => noItems (get f d)) requiredArrayFields = None ->
  title d = VString t -> date d = VString dt -> time d = VString tm ->
  eventPreSave st d = afterChecks d t dt tm.
Proof.
  intros H1 H2 Ht Hdt Htm. unfold eventPreSave. unfold bind at 1.
  rewrite requiredStrings_loop, H1. unfold bind at 1.
  rewrite requiredArrays_loop, H2.
  unfold afterChecks, titleModified, isModified, thisString, assign, update, lift.
  unfold bind, this, ret, throw.
  destruct (existsb (key_eqb Ktitle) (modifiedPaths d)) eqn:Hm;
    cbv beta iota zeta;
    change (get Ktitle d) with (title d); rewrite ?Ht; cbv beta iota zeta;
    rewrite ?get_assignValue_other by discriminate;
    change (get Kdate d) with (date d); rewrite Hdt; cbv beta iota zeta;
    (destruct (normalizeDate dt) as [dt'|e]; [|reflexivity]);
    cbv beta iota zeta;
    rewrite ?get_assignValue_other by discriminate;
    change (get Ktime d) with (time d); rewrite Htm; cbv beta iota zeta;
    (destruct (normalizeTime tm) as [tm'|e]; reflexivity).
Qed.

Lemma not_blank_string v : blank v = false -> exists s, v = VString s.
Proof. destruct v; try discriminate. eauto. Qed.

Lemma find_none_In {A} (f : A -> bool) l x : find f l = None -> In x l -> f x = false.
Proof. intros H Hin. exact (find_none f l H x Hin). Qed.

Lemma checked_strings d :
  find (fun f => blank (get f d)) requiredStringFields = None ->
  exists t dt tm, title d = VString t /\ date d = VString dt /\ time d = VString tm.
Proof.
  intros H.
  destruct (not_blank_string (title d)) as [t Ht];
    [apply (find_none_In (fun f => blank (get f d)) requiredStringFields Ktitle H); simpl; tauto|].
  destruct (not_blank_string (date d)) as [dt Hdt];
    [apply (find_none_In (fun f => blank (get f d)) requiredStringFields Kdate H); simpl; tauto|].
  destruct (not_blank_string (time d)) as [tm Htm];
    [apply (find_none_In (fun f => blank (get f d)) requiredStringFields Ktime H); simpl; tauto|].
  eauto 10.
Qed.

(** C5. The event hook fails with MissingField(name) whenever a required
    text attribute is absent or empty after trimming, and whenever agenda
    or tags is absent, not a list or an empty list; the field named is the
    first such one in the order of the checks (text attributes, then
    agenda, then tags). A candidate whose only defect is an empty tags list
    is rejected with MissingField("tags"). The document is left as it
    was and the store is not queried. *)
Theorem eventPreSave_missing_field (st : Store) (d : EventDocument) :
  (forall k, find (fun f => blank (get f d)) requiredStringFields = Some k ->
     eventPreSave st d = (Throw (FieldRequired k), d, [])
     /\ kind (FieldRequired k) = MissingField (keyName k))
  /\ (forall k, find (fun f => blank (get f d)) requiredStringFields = None ->
       find (fun f => noItems (get f d)) requiredArrayFields = Some k ->
       eventPreSave st d = (Throw (FieldNonEmptyArray k), d, [])
       /\ kind (FieldNonEmptyArray k) = MissingField (keyName k))
  /\ (forall k,
       (In k requiredStringFields /\ blank (get k d) = true)
       \/ (In k requiredArrayFields /\ noItems (get k d) = true) ->
       exists k' e,
         ((In k' requiredStringFields /\ blank (get k' d) = true)
          \/ (In k' requiredArrayFields /\ noItems (get k' d) = true))
         /\ eventPreSave st d = (Throw e, d, [])
         /\ kind e = MissingField (keyName k'))
  /\ (find (fun f => blank (get f d)) requiredStringFields = None ->
       noItems (agenda d) = false -> tags d = VArray [] ->
       eventPreSave st d = (Throw (FieldNonEmptyArray Ktags), d, [])
       /\ kind (FieldNonEmptyArray Ktags) = MissingField "tags").
Proof.
  assert (P1 : forall k, find (fun f => blank (get f d)) requiredStringFields = Some k ->
     eventPreSave st d = (Throw (FieldRequired k), d, [])
     /\ kind (FieldRequired k) = MissingField (keyName k)).
  { intros k H. split; [now apply eventPreSave_missing_string | reflexivity]. }
  assert (P2 : forall k, find (fun f => blank (get f d)) requiredStringFields = None ->
       find (fun f => noItems (get f d)) requiredArrayFields = Some k ->
       eventPreSave st d = (Throw (FieldNonEmptyArray k), d, [])
       /\ kind (FieldNonEmptyArray k) = MissingField (keyName k)).
  { intros k H1 H2. split; [now apply eventPreSave_missing_array | reflexivity]. }
  split; [exact P1|]. split; [exact P2|]. split.
  - intros k Hk.
    destruct (find (fun f => blank (get f d)) requiredStringFields) as [k1|] eqn:E1.
    + exists k1, (FieldRequired k1).
      destruct (find_some _ _ E1) as [Hin Hb].
      split; [left; auto|]. now apply P1.
    + destruct (find (fun f => noItems (get f d)) requiredArrayFields) as [k2|] eqn:E2.
      * exists k2, (FieldNonEmptyArray k2).
        destruct (find_some _ _ E2) as [Hin Hb].
        split; [right; auto|]. now apply P2.
      * exfalso. destruct Hk as [[Hin Hb]|[Hin Hb]].
        -- rewrite (find_none _ _ E1 k Hin) in Hb. discriminate.
        -- rewrite (find_none _ _ E2 k Hin) in Hb. discriminate.
  - intros Hs Hagenda Htags. apply P2; [assumption|].
    cbn [find requiredArrayFields get]. rewrite Hagenda, Htags. reflexivity.
Qed.

Lemma afterChecks_slug d t dt tm d' ops :
  afterChecks d t dt tm = (Ok tt, d', ops) ->
  slug d' = if titleModified d then VString (generateSlug t) else slug d.
Proof.
  unfold afterChecks.
  destruct (normalizeDate dt) as [dt'|e]; [|discriminate].
  destruct (normalizeTime tm) as [tm'|e]; [|discriminate].
  intros H. inversion H; subst d' ops. clear H.
  change (slug ?x) with (get Kslug x).
  rewrite !get_assignValue_other by discriminate.
  destruct (titleModified d); [apply get_assignValue_same | reflexivity].
Qed.

Lemma eventPreSave_ok st d d' ops :
  eventPreSave st d = (Ok tt, d', ops) ->
  exists t dt tm,
    title d = VString t /\ date d = VString dt /\ time d = VString tm
    /\ afterChecks d t dt tm = (Ok tt, d', ops).
Proof.
  intros H.
  destruct (find (fun f => blank (get f d)) requiredStringFields) as [k|] eqn:E1.
  { rewrite (eventPreSave_missing_string st d E1) in H. discriminate. }
  destruct (find (fun f => noItems (get f d)) requiredArrayFields) as [k|] eqn:E2.
  { rewrite (eventPreSave_missing_array st d E1 E2) in H. discriminate. }
  destruct (checked_strings d E1) as (t & dt & tm & Ht & Hdt & Htm).
  exists t, dt, tm. rewrite (eventPreSave_checked st d E1 E2 Ht Hdt Htm) in H. auto.
Qed.

(** C7. On a write that passes the hook the slug is recomputed from the
    title and overwritten exactly when the title counts as modified in
    that write (it was assigned a different value since the last write, or
    the document is new); otherwise the stored slug is left as it was. So
    for a document with an unmodified title to which a title is assigned
    before the write: a different title changes the slug to the one
    generated from it, the same title leaves the slug unchanged. *)
Theorem eventPreSave_slug (st : Store) (d d' : EventDocument) (ops : list StoreOp) :
  eventPreSave st d = (Ok tt, d', ops) ->
  (titleModified d = true ->
     exists t, title d = VString t /\ slug d' = VString (generateSlug t))
  /\ (titleModified d = false -> slug d' = slug d)
  /\ (forall d0 v, titleModified d0 = false -> d = assignValue Ktitle v d0 ->
        (v <> title d0 ->
           exists t, v = VString t /\ slug d' = VString (generateSlug t))
        /\ (v = title d0 -> slug d' = slug d0)).
Proof.
  intros H. destruct (@eventPreSave_ok st d d' ops H) as (t & dt & tm & Ht & _ & _ & Ha).
  apply afterChecks_slug in Ha.
  assert (P1 : titleModified d = true ->
               exists t, title d = VString t /\ slug d' = VString (generateSlug t)).
  { intros Hm. rewrite Hm in Ha. eauto. }
  assert (P2 : titleModified d = false -> slug d' = slug d).
  { intros Hm. now rewrite Hm in Ha. }
  split; [exact P1|]. split; [exact P2|].
  intros d0 v Hm0 Hd. split.
  - intros Hv.
    assert (Hm : titleModified d = true).
    { subst d. unfold assignValue, value_eqb.
      destruct (value_eq_dec (get Ktitle d0) v) as [E|E]; [now elim Hv|].
      unfold titleModified in *. cbn [get put modifiedPaths]. rewrite Hm0.
      reflexivity. }
    destruct (P1 Hm) as (t1 & Ht1 & Hs). exists t1. split; [|exact Hs].
    rewrite <- Ht1. subst d. symmetry. apply (get_assignValue_same Ktitle).
  - intros Hv. subst v.
    assert (Hd0 : d = d0).
    { subst d. unfold assignValue, value_eqb.
      destruct (value_eq_dec (get Ktitle d0) (title d0)) as [E|E]; [reflexivity|].
      now elim E. }
    subst d0. apply P2. exact Hm0.
Qed.

Lemma bookingPreSave_run st b :
  bookingPreSave st b =
    if regexTest EMAIL_REGEX (email b)
    then match findById (eventId b) st with
         | Some _ => (Ok tt, b, [FindEventById (eventId b)])
         | None => (Throw ReferencedEventMissing, b, [FindEventById (eventId b)])
         end
    else (Throw InvalidEmailAddress, b, []).
Proof.
  unfold bookingPreSave, bind, this, query, throw, ret.
  destruct (regexTest EMAIL_REGEX (email b)); cbn [negb]; [|reflexivity].
  destruct (findById (eventId b) st); reflexivity.
Qed.

(** C6. The booking hook fails with InvalidEmail on every address that is
    not of the shape local-part, at sign, domain with a dot, free of white
    space (such as not-an-email), and it does so without querying the
    store; on a well-formed address it queries the store for the
    referenced event, once, and fails with DanglingReference when there is
    none. The pattern of the hook accepts exactly the well-formed
    addresses. *)
Theorem bookingPreSave_checks (st : Store) (b : BookingDocument) :
  (~ wellFormedEmail (email b) ->
     bookingPreSave st b = (Throw InvalidEmailAddress, b, []))
  /\ (wellFormedEmail (email b) -> findById (eventId b) st = None ->
       bookingPreSave st b
       = (Throw ReferencedEventMissing, b, [FindEventById (eventId b)]))
  /\ (wellFormedEmail (email b) -> findById (eventId b) st <> None ->
       bookingPreSave st b = (Ok tt, b, [FindEventById (eventId b)]))
  /\ kind InvalidEmailAddress = InvalidEmail
  /\ kind ReferencedEventMissing = DanglingReference
  /\ (regexTest EMAIL_REGEX (email b) = true <-> wellFormedEmail (email b))
  /\ regexTest EMAIL_REGEX (js "not-an-email") = false.
Proof.
  pose proof (EMAIL_REGEX_spec (email b)) as Hspec.
  rewrite bookingPreSave_run.
  destruct (regexTest EMAIL_REGEX (email b)) eqn:Ht.
  - split; [intros Hn; elim Hn; now apply Hspec|].
    split; [intros _ Hf; now rewrite Hf|].
    split; [intros _ Hf; destruct (findById (eventId b) st); [reflexivity | now elim Hf]|].
    repeat split; try reflexivity; try apply Hspec.
  - assert (Hn : ~ wellFormedEmail (email b)).
    { intros Hw. apply Hspec in Hw. discriminate. }
    split; [reflexivity|].
    split; [intros Hw; now elim Hn|].
    split; [intros Hw; now elim Hn|].
    repeat split; try reflexivity; try apply Hspec; try (intros Hw; now elim Hn).
Qed.

Lemma eventPreSave_no_operation st d r d' ops :
  eventPreSave st d = (r, d', ops) -> ops = [].
Proof.
  intros H.
  destruct (find (fun f => blank (get f d)) requiredStringFields) as [k|] eqn:E1.
  { rewrite (eventPreSave_missing_string st d E1) in H. now inversion H. }
  destruct (find (fun f => noItems (get f d)) requiredArrayFields) as [k|] eqn:E2.
  { rewrite (eventPreSave_missing_array st d E1 E2) in H. now inversion H. }
  destruct (checked_strings d E1) as (t & dt & tm & Ht & Hdt & Htm).
  rewrite (eventPreSave_checked st d E1 E2 Ht Hdt Htm) in H.
  unfold afterChecks in H.
  destruct (normalizeDate dt); [|now inversion H].
  destruct (normalizeTime tm); now inversion H.
Qed.

Lemma bookingPreSave_no_write st b r b' ops :
  bookingPreSave st b = (r, b', ops) -> existsb isWrite ops = false.
Proof.
  rewrite bookingPreSave_run.
  destruct (regexTest EMAIL_REGEX (email b));
    [destruct (findById (eventId b) st)|]; intros H; now inversion H.
Qed.

(** C9. A createEvent or createBooking call that ends in an error leaves
    the record store as it was, and when the error is a validation error
    (MissingField, InvalidDate, InvalidTime, InvalidEmail,
    DanglingReference) no write was asked of the store before it was
    raised: what does not pass validation is not persisted. *)
Theorem create_error_writes_nothing (st : Store) :
  (forall candidate e,
     saved (createEvent st candidate) = Throw e ->
     store (createEvent st candidate) = st
     /\ (isValidationError e = true ->
         existsb isWrite (operations (createEvent st candidate)) = false))
  /\ (forall candidate e,
       saved (createBooking st candidate) = Throw e ->
       store (createBooking st candidate) = st
       /\ (isValidationError e = true ->
           existsb isWrite (operations (createBooking st candidate)) = false)).
Proof.
  split; intros candidate e.
  - unfold createEvent, saveEvent.
    destruct (eventPreSave st _) as [[r d1] ops] eqn:Hh.
    apply eventPreSave_no_operation in Hh. subst ops.
    destruct r as [[]|e1]; cbn.
    + destruct (sameSlugElsewhere d1 st); cbn; [|discriminate].
      intros H. inversion H; subst e. split; [reflexivity | discriminate].
    + intros _. auto.
  - unfold createBooking.
    destruct (bookingPreSave st candidate) as [[r b1] ops] eqn:Hh.
    apply bookingPreSave_no_write in Hh.
    destruct r as [[]|e1]; cbn; [discriminate|].
    intros _. auto.
Qed.

(** ** Properties of the time normaliser *)

Lemma matcher_class_greedy n p min max k w s' c res :
  forallb p w = true ->
  stopsAt p s' \/ max = Some (length w) ->
  min <= length w -> within (length w) max ->
  k s' c = Some res ->
  matcher n (RRep min max (class p)) k (w ++ s') c = Some res.
Proof.
  intros Hp Hstop Hmin Hmax Hk.
  apply (@repeat_class_greedy n p w s' _ min max k c res); auto.
  rewrite length_app. lia.
Qed.

Lemma firstn_consumed (w s' : jsstring) :
  firstn (length (w ++ s') - length s') (w ++ s') = w.
Proof.
  replace (length (w ++ s') - length s') with (length w + 0)
    by (rewrite length_app; lia).
  rewrite firstn_app_2. simpl. apply app_nil_r.
Qed.

Lemma matcher_group_class_greedy n i p min max k w s' c res :
  forallb p w = true ->
  stopsAt p s' \/ max = Some (length w) ->
  min <= length w -> within (length w) max ->
  k s' ((i, w) :: c) = Some res ->
  matcher n (RGroup i (RRep min max (class p))) k (w ++ s') c = Some res.
Proof.
  intros Hp Hstop Hmin Hmax Hk. rewrite matcher_group.
  apply matcher_class_greedy; auto.
  rewrite firstn_consumed. exact Hk.
Qed.

Lemma trim_inner (s : jsstring) x y :
  isWhiteSpace x = false -> isWhiteSpace y = false ->
  trim (x :: s ++ [y]) = x :: s ++ [y].
Proof.
  intros Hx Hy. unfold trim, trimStart, trimEnd. cbn [dropWhile]. rewrite Hx.
  change (x :: s ++ [y]) with ((x :: s) ++ [y]). rewrite rev_app_distr.
  cbn [rev app dropWhile]. rewrite Hy.
  change (y :: rev s ++ [x]) with (rev [y] ++ rev (x :: s)).
  rewrite <- rev_app_distr. apply rev_involutive.
Qed.

(** The match of the pattern on midnight followed by a meridiem. *)
Lemma timeRegex_midnight (ws mer : jsstring) :
  forallb isWhiteSpace ws = true ->
  In mer [js "AM"; js "PM"; js "am"; js "pm"] ->
  regexMatch timeRegex (js "00:00" ++ ws ++ mer)
  = Some (MatchResult (js "00:00" ++ ws ++ mer) []
            [(3, mer); (2, js "00"); (1, js "00")]).
Proof.
  intros Hws Hmer. unfold timeRegex. rewrite regexMatch_anchored. unfold matchAt.
  set (n := length (js "00:00" ++ ws ++ mer)).
  rewrite matcher_seq, matcher_bol. unfold n at 1. rewrite Nat.eqb_refl.
  assert (H : matcher n
    (RSeq (RGroup 1 (RRep 1 (Some 2) (class isDigit)))
       (RSeq (RSeq (opt (lit ":")) (RGroup 2 (RRep 2 (Some 2) (class isDigit))))
          (RSeq (star (class isWhiteSpace))
             (RSeq
                (opt (RGroup 3 (RAlt (str "AM") (RAlt (str "PM") (RAlt (str "am") (str "pm"))))))
                REol))))
    accept (js "00:00" ++ ws ++ mer) []
    = Some ([], [(3, mer); (2, js "00"); (1, js "00")])); [|now rewrite H].
  rewrite matcher_seq.
  change (js "00:00" ++ ws ++ mer) with (js "00" ++ (js ":" ++ js "00" ++ ws ++ mer)).
  apply matcher_group_class_greedy;
    [reflexivity | right; reflexivity | simpl; lia | simpl; lia |].
  rewrite !matcher_seq.
  unfold opt at 1. change (lit ":") with (class (char_eqb (cu ":"))).
  apply matcher_class_greedy;
    [reflexivity | right; reflexivity | simpl; lia | simpl; lia |].
  apply matcher_group_class_greedy;
    [reflexivity | right; reflexivity | simpl; lia | simpl; lia |].
  rewrite matcher_seq. unfold star.
  apply matcher_class_greedy; [exact Hws | left | lia | exact I |].
  - simpl in Hmer. decompose [or] Hmer; subst; try reflexivity; contradiction.
  - simpl in Hmer. decompose [or] Hmer; subst; try reflexivity; contradiction.
Qed.

(** C2, as amended. Midnight followed by a meridiem suffix (AM, PM, am or
    pm, after any amount of white space) is accepted: the pattern matches
    it, the hour 0 as parsed passes the range check, and the result is
    00:00 with AM and 12:00 with PM. *)
Theorem normalizeTime_midnight_meridiem (ws : jsstring) :
  forallb isWhiteSpace ws = true ->
  normalizeTime (js "00:00" ++ ws ++ js "AM") = Ok (js "00:00")
  /\ normalizeTime (js "00:00" ++ ws ++ js "am") = Ok (js "00:00")
  /\ normalizeTime (js "00:00" ++ ws ++ js "PM") = Ok (js "12:00")
  /\ normalizeTime (js "00:00" ++ ws ++ js "pm") = Ok (js "12:00").
Proof.
  clear hostDateParse. intros Hws.
  assert (Htrim : forall x y, isWhiteSpace y = false ->
            trim (js "00:00" ++ ws ++ [x; y]) = js "00:00" ++ ws ++ [x; y]).
  { intros x y Hy.
    change (js "00:00" ++ ws ++ [x; y])
      with (cu "0" :: (js "0:00" ++ ws ++ [x; y])).
    replace (js "0:00" ++ ws ++ [x; y]) with ((js "0:00" ++ ws ++ [x]) ++ [y])
      by (rewrite <- !app_assoc; reflexivity).
    apply trim_inner; [reflexivity | exact Hy]. }
  repeat split; unfold normalizeTime.
  - rewrite (Htrim (cu "A") (cu "M") eq_refl
               : trim (js "00:00" ++ ws ++ js "AM") = js "00:00" ++ ws ++ js "AM").
    rewrite (@timeRegex_midnight ws (js "AM") Hws) by (simpl; tauto). reflexivity.
  - rewrite (Htrim (cu "a") (cu "m") eq_refl
               : trim (js "00:00" ++ ws ++ js "am") = js "00:00" ++ ws ++ js "am").
    rewrite (@timeRegex_midnight ws (js "am") Hws) by (simpl; tauto). reflexivity.
  - rewrite (Htrim (cu "P") (cu "M") eq_refl
               : trim (js "00:00" ++ ws ++ js "PM") = js "00:00" ++ ws ++ js "PM").
    rewrite (@timeRegex_midnight ws (js "PM") Hws) by (simpl; tauto). reflexivity.
  - rewrite (Htrim (cu "p") (cu "m") eq_refl
               : trim (js "00:00" ++ ws ++ js "pm") = js "00:00" ++ ws ++ js "pm").
    rewrite (@timeRegex_midnight ws (js "pm") Hws) by (simpl; tauto). reflexivity.
Qed.

Lemma normalizeTime_groups s :
  normalizeTime s =
    match regexMatch timeRegex (trim s) with
    | None => Throw InvalidEventTime
    | Some m => timeOfGroups (group 1 m) (group 2 m) (group 3 m)
    end.
Proof. reflexivity. Qed.

(** What an optional part matches: its body, on a continuation that only
    succeeds where the rest of the pattern does, or nothing. *)
Lemma matcher_opt_sound n r k s c res :
  matcher n (opt r) k s c = Some res ->
  (exists d : cont,
      (forall s' c' res', d s' c' = Some res' -> k s' c' = Some res')
      /\ matcher n r d s (clearcaps (groupsOf r) c) = Some res)
  \/ k s c = Some res.
Proof.
  unfold opt. cbn [matcher repeatMatcher isZero Nat.ltb Nat.leb Nat.add].
  match goal with
  | |- match matcher n r ?d s _ with _ => _ end = _ -> _ =>
      destruct (matcher n r d s (clearcaps (groupsOf r) c)) as [r0|] eqn:E
  end.
  - intros H. inversion H; subst r0. left. eexists. split; [|exact E].
    intros s' c' res'. cbn beta.
    destruct (Nat.eqb 0 0 && Nat.eqb (length s') (length s)); [discriminate|].
    destruct (length s); cbn [repeatMatcher]; [discriminate|]. cbn. auto.
  - auto.
Qed.

Lemma matcher_meridiem_sound n (k : cont) s c res :
  matcher n (RAlt (str "AM") (RAlt (str "PM") (RAlt (str "am") (str "pm")))) k s c
  = Some res ->
  exists mer rest, In mer meridiems /\ s = mer ++ rest /\ k rest c = Some res.
Proof.
  change (str "AM") with (RSeq (lit "A") (lit "M")).
  change (str "PM") with (RSeq (lit "P") (lit "M")).
  change (str "am") with (RSeq (lit "a") (lit "m")).
  change (str "pm") with (RSeq (lit "p") (lit "m")).
  assert (Hword : forall a b, matcher n (RSeq (lit a) (lit b)) k s c = Some res ->
                    s = [cu a; cu b] ++ skipn 2 s /\ k (skipn 2 s) c = Some res).
  { intros a b H. rewrite matcher_seq in H.
    apply matcher_lit in H. destruct H as (s1 & -> & H).
    apply matcher_lit in H. destruct H as (s2 & -> & H). auto. }
  rewrite !matcher_alt.
  destruct (matcher n (RSeq (lit "A") (lit "M")) k s c) as [r0|] eqn:E1.
  { intros H; inversion H; subst r0. destruct (Hword _ _ E1) as [Hs Hk].
    exists (js "AM"), (skipn 2 s). unfold meridiems. simpl In. auto. }
  destruct (matcher n (RSeq (lit "P") (lit "M")) k s c) as [r0|] eqn:E2.
  { intros H; inversion H; subst r0. destruct (Hword _ _ E2) as [Hs Hk].
    exists (js "PM"), (skipn 2 s). unfold meridiems. simpl In. auto. }
  destruct (matcher n (RSeq (lit "a") (lit "m")) k s c) as [r0|] eqn:E3.
  { intros H; inversion H; subst r0. destruct (Hword _ _ E3) as [Hs Hk].
    exists (js "am"), (skipn 2 s). unfold meridiems. simpl In. auto. }
  intros E4. destruct (Hword _ _ E4) as [Hs Hk].
  exists (js "pm"), (skipn 2 s). unfold meridiems. simpl In. auto 6.
Qed.

Lemma isDigit_In c : isDigit c = true -> In c digitChars.
Proof.
  unfold isDigit, inRange, cu. simpl N_of_ascii.
  rewrite andb_true_iff, !N.leb_le. intros [H1 H2]. unfold digitChars. simpl.
  assert (c = 48 \/ c = 49 \/ c = 50 \/ c = 51 \/ c = 52 \/ c = 53 \/ c = 54
          \/ c = 55 \/ c = 56 \/ c = 57)%N by lia.
  intuition auto.
Qed.

Lemma digits_In_texts w :
  forallb isDigit w = true ->
  (length w = 1%nat -> In w (digitTexts 1)) /\ (length w = 2%nat -> In w (digitTexts 2)).
Proof.
  intros Hw. split; intros Hlen.
  - destruct w as [|a [|b w]]; try discriminate.
    simpl in Hw. rewrite andb_true_r in Hw. apply isDigit_In in Hw.
    unfold digitTexts. apply in_map_iff. exists a. auto.
  - destruct w as [|a [|b [|c w]]]; try discriminate.
    simpl in Hw. rewrite andb_true_r in Hw. apply andb_true_iff in Hw.
    destruct Hw as [Ha Hb]. apply isDigit_In in Ha, Hb.
    unfold digitTexts. apply in_flat_map. exists a. split; [exact Ha|].
    apply in_map_iff. exists b. auto.
Qed.

(** What the pattern of the time normaliser captures: one or two digits,
    two digits, and one of the four suffixes or nothing. *)
Lemma timeRegex_sound t m :
  regexMatch timeRegex t = Some m ->
  exists h mi g3,
    In h (digitTexts 1 ++ digitTexts 2) /\ In mi (digitTexts 2)
    /\ In g3 (None :: map Some meridiems)
    /\ group 1 m = Some h /\ group 2 m = Some mi /\ group 3 m = g3.
Proof.
  unfold timeRegex. rewrite regexMatch_anchored. unfold matchAt.
  destruct (matcher _ _ accept t []) as [[e c]|] eqn:H; [|discriminate].
  intros Hm. inversion Hm; subst m. clear Hm. unfold group. cbn [groups].
  rewrite matcher_seq, matcher_bol, Nat.eqb_refl in H.
  rewrite matcher_seq, matcher_group in H.
  apply matcher_class_sound in H; [|simpl; lia].
  destruct H as (h & s1 & -> & Hh & Hh1 & Hh2 & H). cbn beta in H.
  rewrite firstn_consumed in H.
  rewrite !matcher_seq in H. unfold opt at 1 in H.
  change (lit ":") with (class (char_eqb (cu ":"))) in H.
  apply matcher_class_sound in H; [|simpl; lia].
  destruct H as (colon & s2 & -> & _ & _ & _ & H).
  rewrite matcher_group in H.
  apply matcher_class_sound in H; [|simpl; lia].
  destruct H as (mi & s3 & -> & Hmi & Hmi1 & Hmi2 & H). cbn beta in H.
  rewrite firstn_consumed in H.
  rewrite matcher_seq in H. unfold star in H.
  apply matcher_class_sound in H; [|exact I].
  destruct H as (ws & s4 & -> & _ & _ & _ & H).
  rewrite matcher_seq in H.
  assert (Hh' : In h (digitTexts 1 ++ digitTexts 2)).
  { simpl in Hh2. destruct (digits_In_texts h Hh) as [H1 H2].
    apply in_or_app. destruct (Nat.eq_dec (length h) 1); [left; auto | right; apply H2; lia]. }
  assert (Hmi' : In mi (digitTexts 2)).
  { simpl in Hmi2. destruct (digits_In_texts mi Hmi) as [_ H2]. apply H2. lia. }
  apply matcher_opt_sound in H. destruct H as [(d & Hd & H) | H].
  - rewrite matcher_group in H. apply matcher_meridiem_sound in H.
    destruct H as (mer & rest & Hmer & -> & H). apply Hd in H.
    rewrite matcher_eol in H. destruct rest as [|x rest]; [|discriminate].
    inversion H; subst e c. rewrite firstn_consumed.
    exists h, mi, (Some mer). repeat split; auto.
    right. apply in_map. exact Hmer.
  - rewrite matcher_eol in H. destruct s4 as [|x s4]; [|discriminate].
    inversion H; subst e c.
    exists h, mi, None. repeat split; auto. left. reflexivity.
Qed.

(** Whatever the groups, the text made of them is a clock text with the
    hour up to 35. *)
Lemma timeOfGroups_shape h mi g3 out :
  In h (digitTexts 1 ++ digitTexts 2) -> In mi (digitTexts 2) ->
  In g3 (None :: map Some meridiems) ->
  timeOfGroups (Some h) (Some mi) g3 = Ok out -> clockShape 35 out = true.
Proof.
  intros Hh Hmi Hg3 Hout.
  assert (H : forallb (fun h => forallb (fun mi => forallb (fun g3 =>
                match timeOfGroups (Some h) (Some mi) g3 with
                | Ok out => clockShape 35 out
                | Throw _ => true
                end) (None :: map Some meridiems)) (digitTexts 2))
                (digitTexts 1 ++ digitTexts 2) = true)
    by (vm_compute; reflexivity).
  rewrite forallb_forall in H. specialize (H h Hh).
  rewrite forallb_forall in H. specialize (H mi Hmi).
  rewrite forallb_forall in H. specialize (H g3 Hg3).
  now rewrite Hout in H.
Qed.

Lemma normalizeTime_shape s out :
  normalizeTime s = Ok out -> clockShape 35 out = true.
Proof.
  rewrite normalizeTime_groups.
  destruct (regexMatch timeRegex (trim s)) as [m|] eqn:Hm; [|discriminate].
  apply timeRegex_sound in Hm.
  destruct Hm as (h & mi & g3 & Hh & Hmi & Hg3 & -> & -> & ->).
  now apply timeOfGroups_shape.
Qed.

(** C3. The examples of the specification: 2:30 PM gives 14:30, 14:30
    gives 14:30, 12:00 AM gives 00:00, 12:00 PM gives 12:00, and 25:00 fails
    with InvalidTime. *)
Theorem normalizeTime_examples :
  normalizeTime (js "2:30 PM") = Ok (js "14:30")
  /\ normalizeTime (js "14:30") = Ok (js "14:30")
  /\ normalizeTime (js "12:00 AM") = Ok (js "00:00")
  /\ normalizeTime (js "12:00 PM") = Ok (js "12:00")
  /\ normalizeTime (js "25:00") = Throw InvalidEventTime
  /\ kind InvalidEventTime = InvalidTime.
Proof. repeat split; vm_compute; reflexivity. Qed.

(** C1, at the inputs where it fails. The text 13:00 PM is accepted, and
    what is returned for it, 25:00, is not a 24-hour clock text: the hour is
    checked against 0 to 23 before the twelve hours of PM are added. What
    every accepted text does yield is two digits, a colon and two digits,
    with the minute from 00 to 59 and the hour from 00 to 35. *)
Theorem normalizeTime_hour_past_23 :
  normalizeTime (js "13:00 PM") = Ok (js "25:00")
  /\ isClockText (js "25:00") = false
  /\ normalizeTime (js "23:59pm") = Ok (js "35:59")
  /\ isClockText (js "35:59") = false
  /\ (forall s out, normalizeTime s = Ok out -> clockShape 35 out = true).
Proof.
  repeat split; try (vm_compute; reflexivity).
  intros s out. apply normalizeTime_shape.
Qed.

(** C10. The time normaliser is not idempotent on what it accepts: 13:00 PM
    is accepted and normalised to 25:00, which the normaliser itself
    rejects with InvalidTime. An event with that time passes the hook once,
    and the hook fails on the document so written the next time it runs. *)
Theorem normalizeTime_not_idempotent (st : Store) :
  normalizeTime (js "13:00 PM") = Ok (js "25:00")
  /\ normalizeTime (js "25:00") = Throw InvalidEventTime
  /\ (exists d1,
        eventPreSave st (sampleEvent (js "13:00 PM")) = (Ok tt, d1, [])
        /\ time d1 = VString (js "25:00")
        /\ eventPreSave st (written d1) = (Throw InvalidEventTime, written d1, [])).
Proof.
  split; [vm_compute; reflexivity|]. split; [vm_compute; reflexivity|].
  eexists. split; [vm_compute; reflexivity|].
  split; vm_compute; reflexivity.
Qed.

(** ** Properties of the date normaliser *)

Local Open Scope Z_scope.

Lemma isLeapYear_spec y :
  isLeapYear y = true <-> (y mod 4 = 0 /\ (y mod 100 <> 0 \/ y mod 400 = 0)).
Proof.
  unfold isLeapYear.
  rewrite andb_true_iff, orb_true_iff, negb_true_iff, !Z.eqb_eq, Z.eqb_neq. tauto.
Qed.

Lemma DayFromYear_succ y : DayFromYear (y + 1) = DayFromYear y + DaysInYear y.
Proof.
  unfold DayFromYear, DaysInYear. destruct (isLeapYear y) eqn:E.
  - apply isLeapYear_spec in E. Z.div_mod_to_equations. lia.
  - assert (~ (y mod 4 = 0 /\ (y mod 100 <> 0 \/ y mod 400 = 0)))
      by (rewrite <- isLeapYear_spec; congruence).
    Z.div_mod_to_equations. lia.
Qed.

Lemma DayFromYear_mono a b : a <= b -> DayFromYear a <= DayFromYear b.
Proof. unfold DayFromYear. intros. Z.div_mod_to_equations. lia. Qed.

(** [YearFromDay] is the year ECMAScript defines: the one day [d] falls in. *)
Lemma YearFromDay_spec d :
  DayFromYear (YearFromDay d) <= d < DayFromYear (YearFromDay d + 1).
Proof.
  unfold YearFromDay. set (y := 1970 + 400 * d / 146097).
  assert (H1 : DayFromYear (y - 1) <= d)
    by (unfold DayFromYear, y; Z.div_mod_to_equations; lia).
  assert (H2 : d < DayFromYear (y + 2))
    by (unfold DayFromYear, y; Z.div_mod_to_equations; lia).
  destruct (Z.leb_spec (DayFromYear (y + 1)) d).
  - replace (y + 1 + 1) with (y + 2) by lia. lia.
  - destruct (Z.leb_spec (DayFromYear y) d).
    + lia.
    + replace (y - 1 + 1) with y by lia. lia.
Qed.

Lemma YearFromDay_unique y d :
  DayFromYear y <= d < DayFromYear (y + 1) -> YearFromDay d = y.
Proof.
  intros H. pose proof (YearFromDay_spec d) as Hs.
  destruct (Z.lt_trichotomy (YearFromDay d) y) as [Hlt | [Heq | Hgt]]; [|exact Heq|].
  - pose proof (@DayFromYear_mono (YearFromDay d + 1) y ltac:(lia)). lia.
  - pose proof (@DayFromYear_mono (y + 1) (YearFromDay d) ltac:(lia)). lia.
Qed.

Definition leapDay (y : Z) : Z := if isLeapYear y then 1 else 0.

Lemma month_cases m : 1 <= m <= 12 ->
  m = 1 \/ m = 2 \/ m = 3 \/ m = 4 \/ m = 5 \/ m = 6 \/ m = 7 \/ m = 8 \/ m = 9
  \/ m = 10 \/ m = 11 \/ m = 12.
Proof. lia. Qed.

Ltac each_month m H :=
  destruct (@month_cases m H) as [?|[?|[?|[?|[?|[?|[?|[?|[?|[?|[?|?]]]]]]]]]]]; subst m;
  repeat match goal with
  | |- context [Z.sub (Zpos ?p) 1] =>
      let v := eval vm_compute in (Z.sub (Zpos p) 1) in
      change (Z.sub (Zpos p) 1) with v in *
  end.

Lemma MakeDay_in_year y m d :
  1 <= m <= 12 -> 1 <= d <= DaysInMonth y m ->
  MakeDay y (m - 1) d = DayFromYear y + (monthStart (leapDay y) (m - 1) + d - 1)
  /\ 0 <= monthStart (leapDay y) (m - 1) + d - 1 < DaysInYear y.
Proof.
  intros Hm Hd. unfold MakeDay, leapDay, DaysInYear.
  rewrite (Z.div_small (m - 1) 12), (Z.mod_small (m - 1) 12), Z.add_0_r by lia.
  each_month m Hm; cbn [monthStart DaysInMonth] in Hd |- *;
    destruct (isLeapYear y); lia.
Qed.

Lemma Day_MakeDate day : Day (MakeDate day 0) = day.
Proof. unfold Day, MakeDate, msPerDay. rewrite Z.add_0_r. now apply Z.div_mul. Qed.

(** The calendar date of a day made from a date that exists is that date. *)
Lemma calendar_roundtrip y m d :
  1 <= m <= 12 -> 1 <= d <= DaysInMonth y m ->
  let t := MakeDate (MakeDay y (m - 1) d) 0 in
  YearFromTime t = y /\ MonthFromTime t + 1 = m /\ DateFromTime t = d.
Proof.
  intros Hm Hd t.
  destruct (@MakeDay_in_year y m d Hm Hd) as [Hday Hin].
  assert (Hy : YearFromTime t = y).
  { unfold YearFromTime, t. rewrite Day_MakeDate. apply YearFromDay_unique.
    rewrite DayFromYear_succ. lia. }
  assert (Hw : DayWithinYear t = monthStart (leapDay y) (m - 1) + d - 1).
  { unfold DayWithinYear. rewrite Hy. unfold t. rewrite Day_MakeDate. lia. }
  assert (Hl : InLeapYear t = leapDay y).
  { unfold InLeapYear. now rewrite Hy. }
  split; [exact Hy|].
  unfold DateFromTime, MonthFromTime. rewrite Hw, Hl. clear Hday Hy Hw Hl.
  unfold leapDay, DaysInYear in *.
  each_month m Hm; cbn [monthStart DaysInMonth] in Hd, Hin |- *;
    destruct (isLeapYear y);
    repeat match goal with
    | |- context [Z.ltb ?a ?b] => destruct (Z.ltb_spec a b); try lia
    end; cbn [monthStart]; lia.
Qed.

Lemma jsstring_eqb_eq a b : jsstring_eqb a b = true -> a = b.
Proof. unfold jsstring_eqb. destruct (list_eq_dec N.eq_dec a b); [auto|discriminate]. Qed.

(** Two digits, read and written back with padding, are the same digits. *)
Lemma pad2_digits a b :
  isDigit a = true -> isDigit b = true -> pad 2 (digitsValue [a; b]) = [a; b].
Proof.
  intros Ha Hb. apply isDigit_In in Ha. apply isDigit_In in Hb.
  assert (H : forallb (fun a => forallb (fun b =>
                jsstring_eqb (pad 2 (digitsValue [a; b])) [a; b]) digitChars) digitChars
              = true) by (vm_compute; reflexivity).
  rewrite forallb_forall in H. specialize (H a Ha).
  rewrite forallb_forall in H. specialize (H b Hb).
  now apply jsstring_eqb_eq.
Qed.

Lemma pad4_digits a b c d :
  isDigit a = true -> isDigit b = true -> isDigit c = true -> isDigit d = true ->
  pad 4 (digitsValue [a; b; c; d]) = [a; b; c; d].
Proof.
  intros Ha Hb Hc Hd.
  apply isDigit_In in Ha. apply isDigit_In in Hb.
  apply isDigit_In in Hc. apply isDigit_In in Hd.
  assert (H : forallb (fun a => forallb (fun b => forallb (fun c => forallb (fun d =>
                jsstring_eqb (pad 4 (digitsValue [a; b; c; d])) [a; b; c; d])
                digitChars) digitChars) digitChars) digitChars
              = true) by (vm_compute; reflexivity).
  rewrite forallb_forall in H. specialize (H a Ha).
  rewrite forallb_forall in H. specialize (H b Hb).
  rewrite forallb_forall in H. specialize (H c Hc).
  rewrite forallb_forall in H. specialize (H d Hd).
  now apply jsstring_eqb_eq.
Qed.

Lemma digitValue_range c : isDigit c = true -> 0 <= digitValue c <= 9.
Proof.
  unfold isDigit, inRange, cu, digitValue. simpl N_of_ascii.
  rewrite andb_true_iff, !N.leb_le. lia.
Qed.

Lemma year_range a b c d :
  isDigit a = true -> isDigit b = true -> isDigit c = true -> isDigit d = true ->
  0 <= digitsValue [a; b; c; d] <= 9999.
Proof.
  intros Ha Hb Hc Hd. apply digitValue_range in Ha, Hb, Hc, Hd.
  unfold digitsValue. cbn [fold_left]. lia.
Qed.

Lemma leap_formula y :
  ((y mod 4 =? 0) && negb (y mod 100 =? 0) || (y mod 400 =? 0)) = isLeapYear y.
Proof.
  unfold isLeapYear.
  destruct (Z.eqb_spec (y mod 4) 0), (Z.eqb_spec (y mod 100) 0),
    (Z.eqb_spec (y mod 400) 0); cbn; try reflexivity;
    exfalso; Z.div_mod_to_equations; lia.
Qed.

Lemma monthLength_DaysInMonth y m : 1 <= m <= 12 -> monthLength y m = DaysInMonth y m.
Proof.
  intros Hm. unfold monthLength, DaysInMonth. rewrite leap_formula.
  each_month m Hm; reflexivity.
Qed.

Lemma split_cons sep s : exists w ws, split sep s = w :: ws.
Proof.
  induction s as [|x s (w & ws & IH)]; cbn [split]; [eauto|].
  rewrite IH. destruct (char_eqb x sep); eauto.
Qed.

(** The first piece of a split is the text before the first separator. *)
Lemma split_first sep w rest :
  forallb (fun c => negb (char_eqb c sep)) w = true ->
  nth 0%nat (split sep (w ++ sep :: rest)) [] = w.
Proof.
  induction w as [|x w IH]; cbn [forallb app split].
  - intros _. destruct (split_cons sep rest) as (w' & ws & ->).
    unfold char_eqb. rewrite N.eqb_refl. reflexivity.
  - rewrite andb_true_iff, negb_true_iff. intros [Hx Hw]. specialize (IH Hw).
    destruct (split_cons sep (w ++ sep :: rest)) as (w' & ws & E).
    rewrite E in IH |- *. rewrite Hx. cbn in IH |- *. now rewrite IH.
Qed.

Lemma digit_not_T c : isDigit c = true -> negb (char_eqb c (cu "T")) = true.
Proof.
  unfold isDigit, inRange, cu, char_eqb. simpl N_of_ascii.
  rewrite andb_true_iff, !N.leb_le, negb_true_iff, N.eqb_neq. lia.
Qed.

Lemma isDash_eq c : isDash c = true -> c = cu "-".
Proof. unfold isDash, char_eqb, dash. rewrite N.eqb_eq. auto. Qed.

Lemma TimeClip_in_range y m d :
  0 <= y <= 9999 -> 1 <= m <= 12 -> 1 <= d <= DaysInMonth y m ->
  TimeClip (MakeDate (MakeDay y (m - 1) d) 0) = Some (MakeDate (MakeDay y (m - 1) d) 0).
Proof.
  intros Hy Hm Hd.
  destruct (@MakeDay_in_year y m d Hm Hd) as [Hday Hin].
  pose proof (@DayFromYear_mono 0 y ltac:(lia)) as Hlo.
  pose proof (@DayFromYear_mono (y + 1) 10000 ltac:(lia)) as Hhi.
  rewrite DayFromYear_succ in Hhi.
  assert (H0 : DayFromYear 0 = -719528) by reflexivity.
  assert (H1 : DayFromYear 10000 = 2932897) by reflexivity.
  unfold TimeClip.
  destruct (Z.leb_spec (Z.abs (MakeDate (MakeDay y (m - 1) d) 0)) 8640000000000000) as [|Hbig];
    [reflexivity|].
  exfalso. unfold MakeDate, msPerDay in Hbig. lia.
Qed.

Lemma parseIsoDate_canonical y1 y2 y3 y4 m1 m2 d1 d2 :
  forallb isDigit [y1; y2; y3; y4; m1; m2; d1; d2] = true ->
  1 <= digitsValue [m1; m2] <= 12 ->
  1 <= digitsValue [d1; d2]
    <= DaysInMonth (digitsValue [y1; y2; y3; y4]) (digitsValue [m1; m2]) ->
  parseIsoDate [y1; y2; y3; y4; cu "-"; m1; m2; cu "-"; d1; d2]
  = Some (MakeDate (MakeDay (digitsValue [y1; y2; y3; y4])
                      (digitsValue [m1; m2] - 1) (digitsValue [d1; d2])) 0).
Proof.
  intros Hdig Hm Hd. unfold parseIsoDate. rewrite Hdig.
  destruct (Z.leb_spec 1 (digitsValue [m1; m2])); [|lia].
  destruct (Z.leb_spec (digitsValue [m1; m2]) 12); [|lia].
  destruct (Z.leb_spec 1 (digitsValue [d1; d2])); [|lia].
  destruct (Z.leb_spec (digitsValue [d1; d2])
              (DaysInMonth (digitsValue [y1; y2; y3; y4]) (digitsValue [m1; m2]))); [|lia].
  reflexivity.
Qed.

(** The date part of what [toISOString] writes. *)
Lemma toISOString_date t :
  0 <= YearFromTime t <= 9999 ->
  exists timePart,
    toISOString t
    = (pad 4 (YearFromTime t) ++ js "-" ++ pad 2 (MonthFromTime t + 1) ++ js "-"
       ++ pad 2 (DateFromTime t)) ++ cu "T" :: timePart.
Proof.
  intros Hy. unfold toISOString.
  destruct (Z.leb_spec 0 (YearFromTime t)); [|lia].
  destruct (Z.leb_spec (YearFromTime t) 9999); [|lia].
  cbn [andb]. eexists. rewrite <- !app_assoc. reflexivity.
Qed.

(** A canonical date is read as the midnight of its day and written back
    unchanged. *)
Lemma normalizeDate_canonical s :
  isCanonicalDate s = true -> normalizeDate s = Ok s.
Proof.
  intros H.
  destruct s as [|y1 [|y2 [|y3 [|y4 [|h1 [|m1 [|m2 [|h2 [|d1 [|d2 [|]]]]]]]]]]];
    try discriminate.
  unfold isCanonicalDate in H. rewrite !andb_true_iff in H.
  destruct H as ((((((Hdig & Hh1) & Hh2) & Hm1) & Hm12) & Hd1) & Hdm).
  apply isDash_eq in Hh1, Hh2. subst h1 h2.
  pose proof Hdig as Hdig'. cbn [forallb] in Hdig'. rewrite !andb_true_iff in Hdig'.
  destruct Hdig' as (Hy1 & Hy2 & Hy3 & Hy4 & Hm1d & Hm2d & Hd1d & Hd2d & _).
  apply Z.leb_le in Hm1, Hm12, Hd1, Hdm.
  rewrite monthLength_DaysInMonth in Hdm by lia.
  pose proof (@year_range _ _ _ _ Hy1 Hy2 Hy3 Hy4) as Hy.
  pose proof (@parseIsoDate_canonical y1 y2 y3 y4 m1 m2 d1 d2 Hdig
                (conj Hm1 Hm12) (conj Hd1 Hdm)) as Hparse.
  pose proof (@TimeClip_in_range _ _ _ Hy (conj Hm1 Hm12) (conj Hd1 Hdm)) as Hclip.
  destruct (@calendar_roundtrip _ _ _ (conj Hm1 Hm12) (conj Hd1 Hdm))
    as (Hyear & Hmonth & Hdate).
  unfold normalizeDate, dateParse. rewrite Hparse, Hclip. f_equal.
  destruct (@toISOString_date
              (MakeDate (MakeDay (digitsValue [y1; y2; y3; y4])
                          (digitsValue [m1; m2] - 1) (digitsValue [d1; d2])) 0))
    as [timePart Hiso]; [rewrite Hyear; exact Hy|].
  rewrite Hiso, Hyear, Hmonth, Hdate.
  rewrite pad4_digits, !pad2_digits by assumption.
  apply split_first. cbn [forallb app js map list_ascii_of_string].
  rewrite (@digit_not_T y1 Hy1), (@digit_not_T y2 Hy2), (@digit_not_T y3 Hy3),
    (@digit_not_T y4 Hy4), (@digit_not_T m1 Hm1d), (@digit_not_T m2 Hm2d),
    (@digit_not_T d1 Hd1d), (@digit_not_T d2 Hd2d).
  reflexivity.
Qed.



Local Close Scope Z_scope.
Unset Implicit Arguments.

(** ** Further properties of the time normaliser *)

Lemma digit_not_colon c : isDigit c = true -> char_eqb (cu ":") c = false.
Proof.
  unfold isDigit, inRange, cu, char_eqb. simpl N_of_ascii.
  rewrite andb_true_iff, !N.leb_le, N.eqb_neq. lia.
Qed.

Lemma digit_not_space c : isDigit c = true -> isWhiteSpace c = false.
Proof.
  intros H. apply isDigit_In in H. unfold digitChars in H. simpl in H.
  decompose [or] H; subst; try reflexivity; contradiction.
Qed.

Lemma space_not_digit c : isWhiteSpace c = true -> isDigit c = false.
Proof.
  intros H. destruct (isDigit c) eqn:E; [|reflexivity].
  apply digit_not_space in E. congruence.
Qed.

(** What follows the minutes of a time: nothing, or white space and a
    suffix; it does not start with a digit. *)
Lemma time_tail_stops ws g3 :
  forallb isWhiteSpace ws = true -> In g3 (None :: map Some meridiems) ->
  stopsAt isDigit (ws ++ suffixText g3) /\ stopsAt isWhiteSpace (suffixText g3).
Proof.
  intros Hws Hg3. split.
  - destruct ws as [|x ws]; simpl in *.
    + decompose [or] Hg3; subst; try reflexivity; contradiction.
    + apply andb_true_iff in Hws. apply space_not_digit. apply Hws.
  - simpl in Hg3. decompose [or] Hg3; subst; try reflexivity; contradiction.
Qed.

Lemma time_suffix_match n h mi g3 :
  In g3 (None :: map Some meridiems) ->
  matcher n
    (RSeq (opt (RGroup 3 (RAlt (str "AM") (RAlt (str "PM") (RAlt (str "am") (str "pm"))))))
          REol)
    accept (suffixText g3) [(2%nat, mi); (1%nat, h)]
  = Some ([], timeCaptures h mi g3).
Proof.
  intros Hg3. simpl in Hg3. decompose [or] Hg3; subst; try reflexivity; contradiction.
Qed.

(** One or two of a class, followed by one more of the class: the longer
    run is tried first, then the shorter one. *)
Lemma matcher_one_or_two n p k a b rest c :
  p a = true -> p b = true ->
  matcher n (RRep 1 (Some 2) (class p)) k (a :: b :: rest) c
  = match k rest c with
    | Some r => Some r
    | None => k (b :: rest) c
    end.
Proof.
  intros Ha Hb. cbn [matcher class groupsOf length Nat.add repeatMatcher isZero Nat.ltb Nat.leb].
  rewrite ?clearcaps_nil, ?Ha.
  cbn [Nat.eqb andb pred decmax repeatMatcher isZero Nat.ltb Nat.leb length].
  rewrite ?clearcaps_nil, ?Hb.
  replace (Nat.eqb (length rest) (S (length rest))) with false
    by (symmetry; apply Nat.eqb_neq; lia).
  reflexivity.
Qed.


Lemma afterHour_match n h colon mi ws g3 :
  colon = [] \/ colon = js ":" ->
  forallb isDigit mi = true -> length mi = 2 ->
  forallb isWhiteSpace ws = true -> In g3 (None :: map Some meridiems) ->
  matcher n afterHour accept (colon ++ mi ++ ws ++ suffixText g3) [(1, h)]
  = Some ([], timeCaptures h mi g3).
Proof.
  intros Hcolon Hmi Hlen Hws Hg3. unfold afterHour.
  destruct (time_tail_stops ws g3 Hws Hg3) as [Hstop1 Hstop2].
  rewrite !matcher_seq. unfold opt at 1.
  change (lit ":") with (class (char_eqb (cu ":"))).
  assert (Hrest : matcher n (RGroup 2 (RRep 2 (Some 2) (class isDigit)))
            (matcher n
               (RSeq (star (class isWhiteSpace))
                  (RSeq (opt (RGroup 3 (RAlt (str "AM") (RAlt (str "PM")
                                          (RAlt (str "am") (str "pm"))))))
                     REol)) accept)
            (mi ++ ws ++ suffixText g3) [(1, h)]
          = Some ([], timeCaptures h mi g3)).
  { apply matcher_group_class_greedy;
      [exact Hmi | right; now rewrite Hlen | lia | simpl; lia |].
    rewrite matcher_seq. unfold star.
    apply matcher_class_greedy; [exact Hws | left; exact Hstop2 | lia | exact I |].
    apply time_suffix_match. exact Hg3. }
  destruct Hcolon as [-> | ->].
  - apply (@matcher_class_greedy n (char_eqb (cu ":")) 0 (Some 1) _ []
             (mi ++ ws ++ suffixText g3));
      [reflexivity | left | simpl; lia | simpl; lia | exact Hrest].
    destruct mi as [|m1 mi]; [discriminate|]. simpl in Hmi |- *.
    apply andb_true_iff in Hmi. apply digit_not_colon. apply Hmi.
  - apply (@matcher_class_greedy n (char_eqb (cu ":")) 0 (Some 1) _ (js ":")
             (mi ++ ws ++ suffixText g3));
      [reflexivity | right; reflexivity | simpl; lia | simpl; lia | exact Hrest].
Qed.

(** After the hour the pattern needs two digits: one digit will not do. *)
Lemma afterHour_one_digit n x rest c :
  isDigit x = true -> stopsAt isDigit rest ->
  matcher n afterHour accept (x :: rest) c = None.
Proof.
  intros Hx Hstop.
  destruct (matcher n afterHour accept (x :: rest) c) as [res|] eqn:E; [exfalso|reflexivity].
  unfold afterHour in E. rewrite !matcher_seq in E. unfold opt at 1 in E.
  change (lit ":") with (class (char_eqb (cu ":"))) in E.
  apply matcher_class_sound in E; [|simpl; lia].
  destruct E as (colon & s2 & Hs & Hcolon & _ & _ & E).
  destruct colon as [|y colon].
  - simpl in Hs. subst s2. rewrite matcher_group in E.
    apply matcher_class_sound in E; [|simpl; lia].
    destruct E as (w & s3 & Hs & Hw & Hlen & _ & _).
    destruct w as [|w1 [|w2 w]]; simpl in Hlen; try lia.
    simpl in Hs. inversion Hs; subst. simpl in Hw, Hstop.
    rewrite !andb_true_iff in Hw. destruct Hw as (_ & Hw2 & _). congruence.
  - simpl in Hs. inversion Hs; subst y. cbn [forallb] in Hcolon.
    apply andb_true_iff in Hcolon. destruct Hcolon as [Hcolon _].
    rewrite (digit_not_colon _ Hx) in Hcolon. discriminate.
Qed.

(** The match of the pattern on a time in any of its four forms, with or
    without a suffix. *)
Lemma timeRegex_match h colon mi ws g3 :
  forallb isDigit h = true -> length h = 1 \/ length h = 2 ->
  colon = [] \/ colon = js ":" ->
  forallb isDigit mi = true -> length mi = 2 ->
  forallb isWhiteSpace ws = true -> In g3 (None :: map Some meridiems) ->
  regexMatch timeRegex (h ++ colon ++ mi ++ ws ++ suffixText g3)
  = Some (MatchResult (h ++ colon ++ mi ++ ws ++ suffixText g3) []
            (timeCaptures h mi g3)).
Proof.
  intros Hh Hlen Hcolon Hmi Hlenmi Hws Hg3.
  unfold timeRegex. rewrite regexMatch_anchored. unfold matchAt.
  set (n := length (h ++ colon ++ mi ++ ws ++ suffixText g3)).
  rewrite matcher_seq, matcher_bol. unfold n at 1. rewrite Nat.eqb_refl.
  fold afterHour.
  assert (H : matcher n (RSeq (RGroup 1 (RRep 1 (Some 2) (class isDigit))) afterHour)
                accept (h ++ colon ++ mi ++ ws ++ suffixText g3) []
              = Some ([], timeCaptures h mi g3)); [|now rewrite H].
  rewrite matcher_seq.
  pose proof (@afterHour_match n h colon mi ws g3 Hcolon Hmi Hlenmi Hws Hg3) as Hafter.
  destruct Hlen as [Hlen | Hlen]; [destruct Hcolon as [-> | ->]|].
  - (* one digit, no colon: the two-digit hour is tried and given up *)
    destruct h as [|a [|? ?]]; try discriminate.
    destruct mi as [|m1 [|m2 [|? ?]]]; try discriminate.
    cbn [forallb] in Hh, Hmi.
    rewrite !andb_true_iff in Hh. rewrite !andb_true_iff in Hmi.
    destruct Hh as [Ha _]. destruct Hmi as (Hm1 & Hm2 & _).
    change ([a] ++ [] ++ [m1; m2] ++ ws ++ suffixText g3)
      with (a :: m1 :: m2 :: ws ++ suffixText g3) in *.
    rewrite matcher_group, matcher_one_or_two by assumption.
    rewrite afterHour_one_digit;
      [| exact Hm2 | apply (time_tail_stops ws g3 Hws Hg3)].
    pose proof (firstn_consumed [a] (m1 :: m2 :: ws ++ suffixText g3)) as Hf.
    cbn [app] in Hf. rewrite Hf. exact Hafter.
  - apply matcher_group_class_greedy;
      [exact Hh | left; reflexivity | lia | simpl; lia | exact Hafter].
  - apply matcher_group_class_greedy;
      [exact Hh | right; now rewrite Hlen | lia | simpl; lia | exact Hafter].
Qed.


Lemma trim_fixed s :
  startsWithSpace s = false -> startsWithSpace (rev s) = false -> trim s = s.
Proof.
  intros H1 H2. unfold trim, trimStart, trimEnd.
  assert (Hd : forall u, startsWithSpace u = false -> dropWhile isWhiteSpace u = u).
  { intros [|x u]; simpl; [reflexivity|]. now intros ->. }
  rewrite (Hd s H1), (Hd (rev s) H2). apply rev_involutive.
Qed.

Lemma dropWhile_app_all p a s :
  forallb p a = true -> dropWhile p (a ++ s) = dropWhile p s.
Proof.
  induction a as [|x a IH]; simpl; [reflexivity|].
  destruct (p x); [exact IH | discriminate].
Qed.

Lemma dropWhile_all p a : forallb p a = true -> dropWhile p a = [].
Proof.
  intros H. rewrite <- (app_nil_r a). rewrite dropWhile_app_all by exact H. reflexivity.
Qed.

Lemma dropWhile_app_keep p s b :
  forallb p s = false -> dropWhile p (s ++ b) = dropWhile p s ++ b.
Proof.
  induction s as [|x s IH]; simpl; [discriminate|].
  destruct (p x); simpl; [exact IH | reflexivity].
Qed.

Lemma forallb_rev p (s : jsstring) : forallb p (rev s) = forallb p s.
Proof.
  induction s as [|x s IH]; [reflexivity|].
  simpl. rewrite forallb_app, IH. simpl. rewrite andb_true_r. apply andb_comm.
Qed.

Lemma trimEnd_app s b :
  forallb isWhiteSpace b = true -> trimEnd (s ++ b) = trimEnd s.
Proof.
  intros Hb. unfold trimEnd. rewrite rev_app_distr.
  rewrite dropWhile_app_all by (now rewrite forallb_rev). reflexivity.
Qed.

(** White space around a text does not count for [trim]. *)
Lemma trim_around a s b :
  forallb isWhiteSpace a = true -> forallb isWhiteSpace b = true ->
  trim (a ++ s ++ b) = trim s.
Proof.
  intros Ha Hb. unfold trim, trimStart. rewrite dropWhile_app_all by exact Ha.
  destruct (forallb isWhiteSpace s) eqn:Hs.
  - rewrite dropWhile_app_all by exact Hs.
    now rewrite (dropWhile_all _ _ Hb), (dropWhile_all _ _ Hs).
  - rewrite dropWhile_app_keep by exact Hs. now apply trimEnd_app.
Qed.

Lemma sameResult_eq a b : sameResult a b = true -> a = b.
Proof.
  destruct a as [x|[]], b as [y|[]]; simpl; try discriminate; try reflexivity.
  intros H. apply jsstring_eqb_eq in H. now subst.
Qed.

(** The result for every hour, minute and suffix the pattern can capture. *)
Lemma timeOfGroups_value h mi g3 :
  In h (digitTexts 1 ++ digitTexts 2) -> In mi (digitTexts 2) ->
  In g3 (None :: map Some meridiems) ->
  timeOfGroups (Some h) (Some mi) g3 = timeResult (digitsValue h) (digitsValue mi) mi g3.
Proof.
  intros Hh Hmi Hg3. apply sameResult_eq.
  assert (H : forallb (fun h => forallb (fun mi => forallb (fun g3 =>
                sameResult (timeOfGroups (Some h) (Some mi) g3)
                           (timeResult (digitsValue h) (digitsValue mi) mi g3))
                (None :: map Some meridiems)) (digitTexts 2))
                (digitTexts 1 ++ digitTexts 2) = true)
    by (vm_compute; reflexivity).
  rewrite forallb_forall in H. specialize (H h Hh).
  rewrite forallb_forall in H. specialize (H mi Hmi).
  rewrite forallb_forall in H. exact (H g3 Hg3).
Qed.

Lemma hour_text_In h :
  forallb isDigit h = true -> length h = 1 \/ length h = 2 ->
  In h (digitTexts 1 ++ digitTexts 2).
Proof.
  intros Hh Hlen. destruct (@digits_In_texts h Hh) as [H1 H2].
  apply in_or_app. destruct Hlen; [left; auto | right; auto].
Qed.

Lemma minute_text_In mi :
  forallb isDigit mi = true -> length mi = 2 -> In mi (digitTexts 2).
Proof. intros Hmi Hlen. destruct (@digits_In_texts mi Hmi) as [_ H2]. auto. Qed.

(** A time in one of the four forms, with a suffix after white space or
    with nothing after the minutes, gives what its hour, minute and suffix
    give. *)
Lemma normalizeTime_parsed h colon mi ws g3 :
  forallb isDigit h = true -> length h = 1 \/ length h = 2 ->
  colon = [] \/ colon = js ":" ->
  forallb isDigit mi = true -> length mi = 2 ->
  forallb isWhiteSpace ws = true -> In g3 (None :: map Some meridiems) ->
  (g3 = None -> ws = []) ->
  normalizeTime (h ++ colon ++ mi ++ ws ++ suffixText g3)
  = timeResult (digitsValue h) (digitsValue mi) mi g3.
Proof.
  intros Hh Hlen Hcolon Hmi Hlenmi Hws Hg3 Hnone.
  rewrite normalizeTime_groups.
  assert (Htrim : trim (h ++ colon ++ mi ++ ws ++ suffixText g3)
                  = h ++ colon ++ mi ++ ws ++ suffixText g3).
  { apply trim_fixed.
    - destruct h as [|a h]; [destruct Hlen; discriminate|].
      cbn [forallb] in Hh. apply andb_true_iff in Hh.
      simpl. apply digit_not_space. apply Hh.
    - rewrite !rev_app_distr.
      destruct mi as [|m1 [|m2 [|? ?]]]; try discriminate.
      cbn [forallb] in Hmi. rewrite !andb_true_iff in Hmi. destruct Hmi as (_ & Hm2 & _).
      simpl in Hg3. destruct Hg3 as [<- | Hg3].
      + rewrite (Hnone eq_refl). simpl. apply digit_not_space. exact Hm2.
      + decompose [or] Hg3; subst; try reflexivity; contradiction. }
  rewrite Htrim, (timeRegex_match h colon mi ws g3) by assumption.
  unfold group. cbn [groups].
  replace (getcap 1 (timeCaptures h mi g3)) with (Some h) by (destruct g3; reflexivity).
  replace (getcap 2 (timeCaptures h mi g3)) with (Some mi) by (destruct g3; reflexivity).
  replace (getcap 3 (timeCaptures h mi g3)) with g3 by (destruct g3; reflexivity).
  apply timeOfGroups_value; [now apply hour_text_In | now apply minute_text_In | exact Hg3].
Qed.


(** X1. A time on the 24-hour clock in any of the forms H:mm, HH:mm, Hmm and
    HHmm, with the hour up to 23 and the minute up to 59, is accepted and
    returned with the hour padded to two digits, a colon, and the minutes as
    they were written. *)
Theorem normalizeTime_24h (h colon mi : jsstring) :
  forallb isDigit h = true -> length h = 1 \/ length h = 2 ->
  colon = [] \/ colon = js ":" ->
  forallb isDigit mi = true -> length mi = 2 ->
  (digitsValue h <= 23)%Z -> (digitsValue mi <= 59)%Z ->
  normalizeTime (h ++ colon ++ mi) = Ok (pad 2 (digitsValue h) ++ js ":" ++ mi).
Proof.
  intros Hh Hlen Hcolon Hmi Hlenmi HH HM.
  pose proof (normalizeTime_parsed h colon mi [] None Hh Hlen Hcolon Hmi Hlenmi
                eq_refl (or_introl eq_refl) (fun _ => eq_refl)) as H.
  cbn [suffixText app] in H. rewrite app_nil_r in H. rewrite H.
  unfold timeResult, hour24.
  destruct (Z.gtb_spec (digitsValue h) 23); [lia|].
  destruct (Z.gtb_spec (digitsValue mi) 59); [lia|]. reflexivity.
Qed.

(** X2. A time on the 12-hour clock (hour 1 to 12, minute up to 59, in any
    of the four forms) followed by white space, if any, and AM, PM, am or pm
    is converted as the clock demands: 12 AM is hour 0, 12 PM is hour 12, the
    other hours keep their number in the morning and gain twelve in the
    afternoon. *)
Theorem normalizeTime_12h (h colon mi ws mer : jsstring) :
  forallb isDigit h = true -> length h = 1 \/ length h = 2 ->
  colon = [] \/ colon = js ":" ->
  forallb isDigit mi = true -> length mi = 2 ->
  forallb isWhiteSpace ws = true -> In mer meridiems ->
  (1 <= digitsValue h <= 12)%Z -> (digitsValue mi <= 59)%Z ->
  normalizeTime (h ++ colon ++ mi ++ ws ++ mer)
  = Ok (pad 2 ((digitsValue h) mod 12 + (if isPM mer then 12 else 0))%Z ++ js ":" ++ mi).
Proof.
  intros Hh Hlen Hcolon Hmi Hlenmi Hws Hmer HH HM.
  pose proof (normalizeTime_parsed h colon mi ws (Some mer) Hh Hlen Hcolon Hmi Hlenmi
                Hws (or_intror (in_map Some _ _ Hmer)) (fun E => ltac:(discriminate E))) as H.
  cbn [suffixText] in H. rewrite H.
  unfold timeResult, hour24.
  destruct (Z.gtb_spec (digitsValue h) 23); [lia|].
  destruct (Z.gtb_spec (digitsValue mi) 59); [lia|]. cbn [orb].
  do 2 f_equal.
  destruct (Z.eqb_spec (digitsValue h) 12) as [E|E].
  - rewrite E. destruct (isPM mer); reflexivity.
  - f_equal. rewrite Z.mod_small by lia. destruct (isPM mer); lia.
Qed.

(** X3. A time whose hour as written is past 23, or whose minute is past 59,
    is rejected as an invalid time, whatever suffix follows it. *)
Theorem normalizeTime_out_of_range (h colon mi ws : jsstring) (g3 : option jsstring) :
  forallb isDigit h = true -> length h = 1 \/ length h = 2 ->
  colon = [] \/ colon = js ":" ->
  forallb isDigit mi = true -> length mi = 2 ->
  forallb isWhiteSpace ws = true -> In g3 (None :: map Some meridiems) ->
  (g3 = None -> ws = []) ->
  (23 < digitsValue h \/ 59 < digitsValue mi)%Z ->
  normalizeTime (h ++ colon ++ mi ++ ws ++ suffixText g3) = Throw InvalidEventTime.
Proof.
  intros Hh Hlen Hcolon Hmi Hlenmi Hws Hg3 Hnone Hout.
  rewrite (normalizeTime_parsed h colon mi ws g3) by assumption.
  unfold timeResult.
  destruct (Z.gtb_spec (digitsValue h) 23); [reflexivity|].
  destruct (Z.gtb_spec (digitsValue mi) 59); [reflexivity|]. lia.
Qed.

(** A text of two digits, a colon and two digits is returned as it is when
    it is a 24-hour clock text, and rejected otherwise. *)
Lemma normalizeTime_clock_text h1 h2 m1 m2 :
  forallb isDigit [h1; h2; m1; m2] = true ->
  normalizeTime [h1; h2; cu ":"; m1; m2]
  = if isClockText [h1; h2; cu ":"; m1; m2] then Ok [h1; h2; cu ":"; m1; m2]
    else Throw InvalidEventTime.
Proof.
  intros Hd. pose proof Hd as Hd'. cbn [forallb] in Hd'. rewrite !andb_true_iff in Hd'.
  destruct Hd' as (Hh1 & Hh2 & Hm1 & Hm2 & _).
  pose proof (normalizeTime_parsed [h1; h2] (js ":") [m1; m2] [] None) as H.
  cbn [suffixText app] in H. change (js ":") with [cu ":"] in H. cbn [app] in H.
  rewrite H; try reflexivity; auto.
  - unfold isClockText, clockShape, timeResult, hour24. rewrite Hd.
    replace (char_eqb (cu ":") (cu ":")) with true by reflexivity. cbn [andb].
    destruct (Z.gtb_spec (digitsValue [h1; h2]) 23), (Z.leb_spec (digitsValue [h1; h2]) 23);
      try lia; cbn [orb andb]; [reflexivity|].
    destruct (Z.gtb_spec (digitsValue [m1; m2]) 59), (Z.leb_spec (digitsValue [m1; m2]) 59);
      try lia; [reflexivity|].
    rewrite pad2_digits by assumption. reflexivity.
  - cbn [forallb]. now rewrite Hh1, Hh2.
  - cbn [forallb]. now rewrite Hm1, Hm2.
  - simpl. auto.
Qed.

(** X4. Normalising again what the normaliser returned never changes it:
    it comes back as it is when its hour is at most 23, and it is rejected
    as an invalid time otherwise. In particular every 24-hour clock text is
    a fixed point. *)
Theorem normalizeTime_again (s out : jsstring) :
  normalizeTime s = Ok out ->
  normalizeTime out = (if isClockText out then Ok out else Throw InvalidEventTime)
  /\ (isClockText out = true -> normalizeTime out = Ok out).
Proof.
  intros H. apply normalizeTime_shape in H.
  assert (Hgoal : normalizeTime out
                  = if isClockText out then Ok out else Throw InvalidEventTime).
  { destruct out as [|h1 [|h2 [|c [|m1 [|m2 [|? ?]]]]]]; try discriminate.
    unfold clockShape in H. rewrite !andb_true_iff in H.
    destruct H as (((Hd & Hc) & _) & _).
    apply N.eqb_eq in Hc. subst c. now apply normalizeTime_clock_text. }
  split; [exact Hgoal|]. intros Hc. now rewrite Hc in Hgoal.
Qed.

(** X5. White space before and after a time does not count: the text is
    trimmed first. *)
Theorem normalizeTime_white_space (a s b : jsstring) :
  forallb isWhiteSpace a = true -> forallb isWhiteSpace b = true ->
  normalizeTime (a ++ s ++ b) = normalizeTime s.
Proof.
  intros Ha Hb. rewrite !normalizeTime_groups. now rewrite trim_around.
Qed.


(** ** Further properties of the slug generator *)

Lemma generateSlug_wellformed title :
  isSlugText (generateSlug title) = true
  /\ startsWithDash (generateSlug title) = false
  /\ endsWithDash (generateSlug title) = false
  /\ hasTwoDashesInARow (generateSlug title) = false.
Proof.
  rewrite generateSlug_closed.
  set (u := collapseRuns false (trim (toLowerCase title))).
  destruct (stripDashes_sub u) as (pre & post & Hu).
  pose proof (collapseRuns_text false (trim (toLowerCase title))) as Htext.
  destruct (collapseRuns_dashes (trim (toLowerCase title)) false) as [Htwo _].
  fold u in Htext, Htwo. rewrite Hu in Htext, Htwo.
  unfold isSlugText in Htext. rewrite !forallb_app, !andb_true_iff in Htext.
  apply hasTwoDashesInARow_app in Htwo. destruct Htwo as [_ Htwo].
  apply hasTwoDashesInARow_app in Htwo. destruct Htwo as [Htwo _].
  split; [apply Htext|]. split; [apply stripDashes_start|].
  split; [apply stripTrailingDashes_end | exact Htwo].
Qed.

(** A character of a slug is ASCII, is not an upper-case letter and is not
    white space. *)
Lemma slug_character c :
  isSlugChar c || isDash c = true ->
  isAscii c = true /\ asciiLower c = c /\ isWhiteSpace c = false.
Proof.
  unfold isSlugChar, isDash, isDigit, isAscii, asciiLower, inRange, char_eqb, dash, cu.
  simpl N_of_ascii.
  rewrite !orb_true_iff, !andb_true_iff, !N.leb_le, N.eqb_eq, N.ltb_lt. intros H.
  split; [lia|]. split.
  - destruct (N.leb_spec 65 c), (N.leb_spec c 90); cbn [andb]; try reflexivity. lia.
  - unfold isWhiteSpace. cbn [existsb]. rewrite !orb_false_iff, andb_false_iff, !N.eqb_neq.
    rewrite N.leb_gt. repeat split; try lia; try discriminate.
Qed.

Lemma toLowerCase_slug s : isSlugText s = true -> toLowerCase s = s.
Proof.
  unfold isSlugText, toLowerCase. intros H.
  assert (Ha : forallb isAscii s = true /\ map asciiLower s = s).
  { induction s as [|x s IH]; [auto|].
    cbn [forallb] in H. apply andb_true_iff in H. destruct H as [Hx Hs].
    destruct (slug_character x Hx) as (Hx1 & Hx2 & _).
    destruct (IH Hs) as [IH1 IH2]. cbn [forallb map]. now rewrite Hx1, Hx2, IH1, IH2. }
  destruct Ha as [-> ->]. reflexivity.
Qed.

Lemma trim_slug s : isSlugText s = true -> trim s = s.
Proof.
  unfold isSlugText. intros H. apply trim_fixed.
  - destruct s as [|x s]; [reflexivity|]. cbn [forallb] in H.
    apply andb_true_iff in H. apply (slug_character x). apply H.
  - rewrite <- forallb_rev in H. destruct (rev s) as [|x r]; [reflexivity|].
    cbn [forallb] in H. apply andb_true_iff in H. apply (slug_character x). apply H.
Qed.

Lemma collapseRuns_slug s :
  isSlugText s = true -> hasTwoDashesInARow s = false ->
  collapseRuns false s = s /\ (startsWithDash s = false -> collapseRuns true s = s).
Proof.
  unfold isSlugText.
  induction s as [|x s IH]; intros Htext Htwo; [auto|].
  cbn [forallb] in Htext. apply andb_true_iff in Htext. destruct Htext as [Hx Hs].
  cbn [hasTwoDashesInARow] in Htwo. apply orb_false_iff in Htwo. destruct Htwo as [Hxs Htwo].
  destruct (IH Hs Htwo) as [IH1 IH2]. cbn [collapseRuns startsWithDash].
  destruct (isSlugChar x) eqn:E.
  - rewrite IH1. auto.
  - cbn [orb] in Hx. rewrite Hx in Hxs. cbn [andb] in Hxs.
    split; [|intros Hd; congruence].
    rewrite (IH2 Hxs). f_equal. symmetry. now apply isDash_eq.
Qed.

Lemma endsWithDash_cons x y s : endsWithDash (x :: y :: s) = endsWithDash (y :: s).
Proof.
  unfold endsWithDash. cbn [rev]. destruct (rev s ++ [y]) eqn:E; [|reflexivity].
  apply (f_equal (@length char)) in E. rewrite length_app in E. simpl in E. lia.
Qed.

Lemma dashes_end_with_dash x s : forallb isDash (x :: s) = true -> endsWithDash (x :: s) = true.
Proof.
  intros H. unfold endsWithDash. rewrite <- forallb_rev in H.
  destruct (rev (x :: s)) as [|y r] eqn:E.
  - apply (f_equal (@length char)) in E. rewrite length_rev in E. discriminate.
  - cbn [forallb] in H. apply andb_true_iff in H. apply H.
Qed.

Lemma stripTrailingDashes_fixed s :
  endsWithDash s = false -> stripTrailingDashes s = s.
Proof.
  induction s as [|x s IH]; [reflexivity|]. intros H. cbn [stripTrailingDashes].
  destruct (forallb isDash (x :: s)) eqn:E.
  - apply dashes_end_with_dash in E. congruence.
  - f_equal. destruct s as [|y s]; [reflexivity|]. apply IH.
    now rewrite endsWithDash_cons in H.
Qed.

Lemma stripDashes_fixed s :
  startsWithDash s = false -> endsWithDash s = false -> stripDashes s = s.
Proof.
  intros H1 H2. unfold stripDashes.
  assert (Hd : dropWhile isDash s = s).
  { destruct s as [|x s]; [reflexivity|]. simpl in H1 |- *. now rewrite H1. }
  rewrite Hd. now apply stripTrailingDashes_fixed.
Qed.

(** X6. A slug is its own slug: generating the slug of a generated slug
    returns it unchanged. *)
Theorem generateSlug_idempotent (title : jsstring) :
  generateSlug (generateSlug title) = generateSlug title.
Proof.
  destruct (generateSlug_wellformed title) as (Htext & Hstart & Hend & Htwo).
  set (slug := generateSlug title) in *.
  rewrite generateSlug_closed, (toLowerCase_slug slug Htext), (trim_slug slug Htext).
  destruct (collapseRuns_slug slug Htext Htwo) as [-> _].
  now apply stripDashes_fixed.
Qed.

Lemma In_dropWhile p (x : char) s : In x s -> p x = false -> In x (dropWhile p s).
Proof.
  induction s as [|y s IH]; [auto|]. intros Hin Hx. cbn [dropWhile].
  destruct (p y) eqn:E; [|exact Hin].
  destruct Hin as [-> | Hin]; [congruence | auto].
Qed.

Lemma dropWhile_In p (x : char) s : In x (dropWhile p s) -> In x s.
Proof.
  induction s as [|y s IH]; [auto|]. cbn [dropWhile].
  destruct (p y); [right; auto | auto].
Qed.

Lemma In_trim x s : In x s -> isWhiteSpace x = false -> In x (trim s).
Proof.
  intros Hin Hx. unfold trim, trimEnd, trimStart.
  apply in_rev. rewrite rev_involutive. apply In_dropWhile; [|exact Hx].
  apply (proj1 (in_rev _ _)). now apply In_dropWhile.
Qed.

Lemma trim_In x s : In x (trim s) -> In x s.
Proof.
  unfold trim, trimEnd, trimStart. intros H.
  apply in_rev in H. apply dropWhile_In in H. apply in_rev in H.
  now apply dropWhile_In in H.
Qed.

Lemma In_collapseRuns x s b : In x s -> isSlugChar x = true -> In x (collapseRuns b s).
Proof.
  revert b. induction s as [|y s IH]; intros b Hin Hx; [auto|].
  cbn [collapseRuns]. destruct Hin as [-> | Hin].
  - rewrite Hx. left. reflexivity.
  - destruct (isSlugChar y); [right; auto|]. destruct b; [auto | right; auto].
Qed.

Lemma In_stripTrailingDashes x s :
  In x s -> isDash x = false -> In x (stripTrailingDashes s).
Proof.
  induction s as [|y s IH]; [auto|]. intros Hin Hx. cbn [stripTrailingDashes].
  destruct (forallb isDash (y :: s)) eqn:E.
  - rewrite forallb_forall in E. rewrite (E x Hin) in Hx. discriminate.
  - destruct Hin as [-> | Hin]; [left; reflexivity | right; auto].
Qed.

Lemma collapseRuns_no_slug s b :
  existsb isSlugChar s = false ->
  collapseRuns b s = if b then [] else match s with [] => [] | _ :: _ => [dash] end.
Proof.
  revert b. induction s as [|x s IH]; intros b H; [destruct b; reflexivity|].
  cbn [existsb] in H. apply orb_false_iff in H. destruct H as [Hx Hs].
  cbn [collapseRuns]. rewrite Hx, (IH true Hs). destruct b; reflexivity.
Qed.

Lemma existsb_false_In (f : char -> bool) s :
  existsb f s = false <-> (forall x, In x s -> f x = false).
Proof.
  split.
  - intros H x Hin. destruct (f x) eqn:E; [|reflexivity].
    assert (existsb f s = true) by (apply existsb_exists; eauto). congruence.
  - intros H. destruct (existsb f s) eqn:E; [|reflexivity].
    apply existsb_exists in E. destruct E as (x & Hin & Hx). rewrite (H x Hin) in Hx.
    discriminate.
Qed.

Lemma generateSlug_nil title :
  generateSlug title = [] <-> existsb isSlugChar (toLowerCase title) = false.
Proof.
  rewrite generateSlug_closed. split.
  - intros H. apply existsb_false_In. intros x Hin.
    destruct (isSlugChar x) eqn:Hx; [exfalso|reflexivity].
    assert (Hs : isSlugChar x || isDash x = true) by now rewrite Hx.
    destruct (slug_character x Hs) as (_ & _ & Hws).
    pose proof (In_collapseRuns x _ false (In_trim x _ Hin Hws) Hx) as H1.
    unfold stripDashes in H.
    pose proof (In_stripTrailingDashes x _
                  (In_dropWhile isDash x _ H1 (slugChar_not_dash x Hx))
                  (slugChar_not_dash x Hx)) as H2.
    rewrite H in H2. exact H2.
  - intros H.
    assert (Ht : existsb isSlugChar (trim (toLowerCase title)) = false).
    { apply existsb_false_In. intros x Hin. apply trim_In in Hin.
      now apply (proj1 (existsb_false_In isSlugChar _) H). }
    rewrite (collapseRuns_no_slug _ false Ht).
    destruct (trim (toLowerCase title)); reflexivity.
Qed.

(** X7. The slug is empty exactly when the title, lower-cased, holds no
    ASCII letter and no digit: such titles (punctuation only, or written in
    another script) all get the same, empty, slug. *)
Theorem generateSlug_empty (title : jsstring) :
  generateSlug title = [] <-> existsb isSlugChar (toLowerCase title) = false.
Proof. exact (generateSlug_nil title). Qed.


(** ** Further properties of the date normaliser *)

Local Open Scope Z_scope.

Lemma DayWithinYear_range t :
  0 <= DayWithinYear t < DaysInYear (YearFromTime t).
Proof.
  unfold DayWithinYear, YearFromTime.
  pose proof (YearFromDay_spec (Day t)) as H. rewrite DayFromYear_succ in H. lia.
Qed.

(** The calendar date of any instant exists, and its day is the day of the
    instant. *)
Lemma calendar_of_instant t :
  0 <= MonthFromTime t <= 11
  /\ 1 <= DateFromTime t <= DaysInMonth (YearFromTime t) (MonthFromTime t + 1)
  /\ MakeDay (YearFromTime t) (MonthFromTime t) (DateFromTime t) = Day t.
Proof.
  pose proof (DayWithinYear_range t) as Hd.
  assert (Hday : Day t = DayFromYear (YearFromTime t) + DayWithinYear t)
    by (unfold DayWithinYear; lia).
  unfold DateFromTime, MonthFromTime, InLeapYear, MakeDay.
  unfold DaysInYear in Hd. rewrite Hday. clear Hday.
  remember (DayWithinYear t) as d eqn:Ed. remember (YearFromTime t) as y eqn:Ey.
  clear Ed Ey.
  destruct (isLeapYear y) eqn:Eleap;
    repeat match goal with
    | |- context [Z.ltb ?a ?b] => destruct (Z.ltb_spec a b)
    end;
    repeat match goal with
    | |- context [Z.add (Zpos ?p) 1] =>
        let v := eval vm_compute in (Z.add (Zpos p) 1) in
        change (Z.add (Zpos p) 1) with v
    | |- context [Z.add 0 1] => change (Z.add 0 1) with 1
    | |- context [Z.div ?a 12] =>
        let v := eval vm_compute in (Z.div a 12) in change (Z.div a 12) with v
    | |- context [Z.modulo ?a 12] =>
        let v := eval vm_compute in (Z.modulo a 12) in change (Z.modulo a 12) with v
    end;
    cbn [monthStart DaysInMonth]; rewrite ?Z.add_0_r, ?Eleap; lia.
Qed.

Lemma wellPadded_spec k y :
  wellPadded k y = true ->
  length (pad k y) = k /\ forallb isDigit (pad k y) = true /\ digitsValue (pad k y) = y.
Proof.
  unfold wellPadded. rewrite !andb_true_iff, Nat.eqb_eq, Z.eqb_eq. tauto.
Qed.

(** A number of at most four digits, padded to four, is four digits that
    read as the number; likewise for two. *)
Lemma pad4_number y : 0 <= y <= 9999 -> wellPadded 4 y = true.
Proof.
  intros Hy.
  assert (H : forallb (fun n => wellPadded 4 (Z.of_nat n)) (seq 0 (Z.to_nat 10000)) = true)
    by (vm_compute; reflexivity).
  rewrite forallb_forall in H. specialize (H (Z.to_nat y)).
  rewrite Z2Nat.id in H by lia. apply H. apply in_seq. lia.
Qed.

Lemma pad2_number y : 0 <= y <= 99 -> wellPadded 2 y = true.
Proof.
  intros Hy.
  assert (H : forallb (fun n => wellPadded 2 (Z.of_nat n)) (seq 0 (Z.to_nat 100)) = true)
    by (vm_compute; reflexivity).
  rewrite forallb_forall in H. specialize (H (Z.to_nat y)).
  rewrite Z2Nat.id in H by lia. apply H. apply in_seq. lia.
Qed.

(** X8. Whatever text the host reads as an instant of the years 0 to 9999,
    the normaliser returns the canonical text of the UTC calendar day of
    that instant: a well-formed date, read back as the midnight that
    starts the day, and left unchanged by a second normalisation. *)
Theorem normalizeDate_utc_day (s : jsstring) (t : Z) :
  dateParse s = Some t -> 0 <= YearFromTime t <= 9999 ->
  let out := pad 4 (YearFromTime t) ++ js "-" ++ pad 2 (MonthFromTime t + 1)
               ++ js "-" ++ pad 2 (DateFromTime t) in
  normalizeDate s = Ok out
  /\ isCanonicalDate out = true
  /\ dateParse out = Some (Day t * msPerDay)
  /\ normalizeDate out = Ok out.
Proof.
  clear unicodeToLowerCase. intros Hp Hy out.
  destruct (calendar_of_instant t) as (Hm & Hd & Hday).
  assert (Hd31 : DaysInMonth (YearFromTime t) (MonthFromTime t + 1) <= 31).
  { unfold DaysInMonth.
    repeat match goal with
           | |- context [match ?x with _ => _ end] => destruct x
           end; lia. }
  destruct (wellPadded_spec 4 _ (pad4_number _ Hy)) as (L4 & D4 & V4).
  destruct (wellPadded_spec 2 _ (pad2_number (MonthFromTime t + 1) ltac:(lia)))
    as (Lm & Dm & Vm).
  destruct (wellPadded_spec 2 _ (pad2_number (DateFromTime t) ltac:(lia)))
    as (Ld & Dd & Vd).
  destruct (toISOString_date t Hy) as [timePart Hiso].
  assert (Hcanon : isCanonicalDate out = true).
  { subst out.
    destruct (pad 4 (YearFromTime t)) as [|y1 [|y2 [|y3 [|y4 [|]]]]]; try discriminate.
    destruct (pad 2 (MonthFromTime t + 1)) as [|m1 [|m2 [|]]]; try discriminate.
    destruct (pad 2 (DateFromTime t)) as [|d1 [|d2 [|]]]; try discriminate.
    cbn [forallb] in D4, Dm, Dd.
    rewrite !andb_true_iff in D4. rewrite !andb_true_iff in Dm.
    rewrite !andb_true_iff in Dd.
    destruct D4 as (Hy1 & Hy2 & Hy3 & Hy4 & _).
    destruct Dm as (Hm1 & Hm2 & _). destruct Dd as (Hd1 & Hd2 & _).
    cbn [app js map list_ascii_of_string]. unfold isCanonicalDate.
    cbn [forallb]. rewrite Hy1, Hy2, Hy3, Hy4, Hm1, Hm2, Hd1, Hd2, V4, Vm, Vd.
    rewrite monthLength_DaysInMonth by lia.
    destruct (Z.leb_spec 1 (MonthFromTime t + 1)); [|lia].
    destruct (Z.leb_spec (MonthFromTime t + 1) 12); [|lia].
    destruct (Z.leb_spec 1 (DateFromTime t)); [|lia].
    destruct (Z.leb_spec (DateFromTime t)
                (DaysInMonth (YearFromTime t) (MonthFromTime t + 1))); [|lia].
    reflexivity. }
  assert (Hout : normalizeDate s = Ok out).
  { unfold normalizeDate. rewrite Hp, Hiso. f_equal. apply split_first.
    subst out. rewrite !forallb_app. cbn [forallb js map list_ascii_of_string].
    rewrite !andb_true_iff. repeat split;
      try reflexivity;
      apply forallb_forall; intros c Hc; apply digit_not_T;
      [ rewrite forallb_forall in D4; now apply D4
      | rewrite forallb_forall in Dm; now apply Dm
      | rewrite forallb_forall in Dd; now apply Dd ]. }
  repeat split; [exact Hout | exact Hcanon | | now apply normalizeDate_canonical].
  pose proof (normalizeDate_canonical out Hcanon) as Hfix.
  subst out.
  destruct (pad 4 (YearFromTime t)) as [|y1 [|y2 [|y3 [|y4 [|]]]]]; try discriminate.
  destruct (pad 2 (MonthFromTime t + 1)) as [|m1 [|m2 [|]]]; try discriminate.
  destruct (pad 2 (DateFromTime t)) as [|d1 [|d2 [|]]]; try discriminate.
  cbn [app js map list_ascii_of_string]. unfold dateParse.
  assert (Hdig : forallb isDigit [y1; y2; y3; y4; m1; m2; d1; d2] = true).
  { cbn [forallb] in D4, Dm, Dd |- *.
    rewrite !andb_true_iff in D4. rewrite !andb_true_iff in Dm.
    rewrite !andb_true_iff in Dd. rewrite !andb_true_iff. tauto. }
  rewrite (parseIsoDate_canonical y1 y2 y3 y4 m1 m2 d1 d2 Hdig)
    by (rewrite ?V4, ?Vm, ?Vd; lia).
  rewrite V4, Vm, Vd.
  rewrite (@TimeClip_in_range (YearFromTime t) (MonthFromTime t + 1) (DateFromTime t))
    by lia.
  replace (MonthFromTime t + 1 - 1) with (MonthFromTime t) by lia.
  rewrite Hday. unfold MakeDate. f_equal. lia.
Qed.







Local Close Scope Z_scope.

(** ** Further properties of the event hook *)

Lemma framed_refl d : framed d d.
Proof. unfold framed. auto. Qed.

Lemma framed_trans d1 d2 d3 : framed d1 d2 -> framed d2 d3 -> framed d1 d3.
Proof.
  intros (Hi & Hg & Hm & Hn) (Hi' & Hg' & Hm' & Hn'). unfold framed.
  split; [congruence|]. split; [intros k Hk; rewrite Hg', Hg; auto|].
  split; [auto|]. intros k Hk. destruct (Hn' k Hk); auto.
Qed.

Lemma id_put k v ps d : _id (put k v ps d) = _id d.
Proof. destruct k; reflexivity. Qed.

Lemma modifiedPaths_put k v ps d : modifiedPaths (put k v ps d) = ps.
Proof. destruct k; reflexivity. Qed.

Lemma framed_assignValue k v d : normalised k = true -> framed d (assignValue k v d).
Proof.
  intros Hk. unfold assignValue.
  destruct (value_eqb (get k d) v); [apply framed_refl|].
  unfold framed. rewrite id_put, modifiedPaths_put.
  split; [reflexivity|]. split.
  - intros k0 Hk0. rewrite get_put. unfold key_eqb.
    destruct (EventKey_eq_dec k0 k); [congruence|reflexivity].
  - destruct (existsb (key_eqb k) (modifiedPaths d)); split; intros k0 H0;
      cbn [In] in *; intuition (subst; auto).
Qed.

Lemma assignValue_same k v d : get k d = v -> assignValue k v d = d.
Proof.
  intros H. unfold assignValue, value_eqb.
  destruct (value_eq_dec (get k d) v); [reflexivity|contradiction].
Qed.

Lemma titleModified_framed d d' : framed d d' -> titleModified d' = titleModified d.
Proof.
  intros (_ & _ & Hm & Hn). unfold titleModified.
  destruct (existsb (key_eqb Ktitle) (modifiedPaths d)) eqn:E.
  - apply existsb_exists in E. destruct E as (k & Hin & Hk).
    apply existsb_exists. exists k. auto.
  - destruct (existsb (key_eqb Ktitle) (modifiedPaths d')) eqn:E'; [|reflexivity].
    apply existsb_exists in E'. destruct E' as (k & Hin & Hk).
    unfold key_eqb in Hk. destruct (EventKey_eq_dec Ktitle k); [subst k|discriminate].
    destruct (Hn Ktitle Hin) as [H|H]; [|discriminate].
    assert (Ht : existsb (key_eqb Ktitle) (modifiedPaths d) = true).
    { apply existsb_exists. exists Ktitle. split; [exact H|].
      unfold key_eqb. destruct (EventKey_eq_dec Ktitle Ktitle); congruence. }
    congruence.
Qed.

(** The three ways a run of the hook can go. *)
Lemma eventPreSave_cases st d :
  (exists k, In k requiredStringFields /\ blank (get k d) = true
             /\ eventPreSave st d = (Throw (FieldRequired k), d, []))
  \/ (exists k, In k requiredArrayFields /\ noItems (get k d) = true
                /\ eventPreSave st d = (Throw (FieldNonEmptyArray k), d, []))
  \/ (exists t dt tm,
        title d = VString t /\ date d = VString dt /\ time d = VString tm
        /\ find (fun f => blank (get f d)) requiredStringFields = None
        /\ find (fun f => noItems (get f d)) requiredArrayFields = None
        /\ eventPreSave st d = afterChecks d t dt tm).
Proof.
  destruct (find (fun f => blank (get f d)) requiredStringFields) as [k|] eqn:E1.
  { left. exists k. destruct (find_some _ _ E1) as [Hin Hb].
    split; [exact Hin|]. split; [exact Hb|]. now apply eventPreSave_missing_string. }
  destruct (find (fun f => noItems (get f d)) requiredArrayFields) as [k|] eqn:E2.
  { right. left. exists k. destruct (find_some _ _ E2) as [Hin Hb].
    split; [exact Hin|]. split; [exact Hb|]. now apply eventPreSave_missing_array. }
  right. right.
  destruct (checked_strings d E1) as (t & dt & tm & Ht & Hdt & Htm).
  exists t, dt, tm. repeat split; try assumption.
  now apply eventPreSave_checked.
Qed.

Lemma afterChecks_framed d t dt tm r d' ops :
  afterChecks d t dt tm = (r, d', ops) -> framed d d' /\ ops = [].
Proof.
  unfold afterChecks. intros H.
  assert (H1 : framed d (if titleModified d
                         then assignValue Kslug (VString (generateSlug t)) d else d)).
  { destruct (titleModified d); [now apply framed_assignValue | apply framed_refl]. }
  destruct (normalizeDate dt) as [dt'|e]; [|inversion H; subst; auto].
  assert (H2 := framed_trans _ _ _ H1
                  (framed_assignValue Kdate (VString dt') _ eq_refl)).
  destruct (normalizeTime tm) as [tm'|e]; inversion H; subst; [|auto].
  split; [|reflexivity].
  exact (framed_trans _ _ _ H2 (framed_assignValue Ktime (VString tm') _ eq_refl)).
Qed.

(** X9. Whatever the outcome, the hook leaves the identifier and every
    attribute other than slug, date and time as they were, keeps every
    path recorded as modified and records no path other than those three,
    and asks nothing of the store. *)
Theorem eventPreSave_frame (st : Store) (d d' : EventDocument)
    (r : result unit) (ops : list StoreOp) :
  eventPreSave st d = (r, d', ops) ->
  _id d' = _id d
  /\ (forall k, normalised k = false -> get k d' = get k d)
  /\ (forall k, In k (modifiedPaths d) -> In k (modifiedPaths d'))
  /\ (forall k, In k (modifiedPaths d') ->
        In k (modifiedPaths d) \/ normalised k = true)
  /\ ops = [].
Proof.
  intros H.
  assert (Hf : framed d d' /\ ops = []).
  { destruct (eventPreSave_cases st d)
      as [(k & _ & _ & E)|[(k & _ & _ & E)|(t & dt & tm & _ & _ & _ & _ & _ & E)]];
      rewrite E in H.
    - inversion H; subst. split; [apply framed_refl|reflexivity].
    - inversion H; subst. split; [apply framed_refl|reflexivity].
    - now apply afterChecks_framed in H. }
  destruct Hf as ((Hi & Hg & Hm & Hn) & Ho). auto.
Qed.

Lemma normalizeDate_error s e : normalizeDate s = Throw e -> e = InvalidEventDate.
Proof.
  unfold normalizeDate. destruct (dateParse s); [discriminate|]. congruence.
Qed.

Lemma normalizeTime_error s e : normalizeTime s = Throw e -> e = InvalidEventTime.
Proof.
  unfold normalizeTime.
  repeat match goal with
         | |- context [match ?x with _ => _ end] => destruct x
         end; congruence.
Qed.

(** X10. The errors of the hook are the four it raises itself, and each
    leaves the document at the point reached: a missing field leaves it
    untouched; an invalid date comes after the slug has been regenerated;
    an invalid time comes after the slug has been regenerated and the date
    rewritten in canonical form. *)
Theorem eventPreSave_error_state (st : Store) (d d' : EventDocument)
    (e : error) (ops : list StoreOp) :
  eventPreSave st d = (Throw e, d', ops) ->
  match e with
  | FieldRequired k =>
      In k requiredStringFields /\ blank (get k d) = true /\ d' = d
  | FieldNonEmptyArray k =>
      In k requiredArrayFields /\ noItems (get k d) = true /\ d' = d
  | InvalidEventDate =>
      exists t dt,
        title d = VString t /\ date d = VString dt /\ dateParse dt = None
        /\ slug d' = (if titleModified d then VString (generateSlug t) else slug d)
        /\ date d' = date d /\ time d' = time d
  | InvalidEventTime =>
      exists t dt dt' tm,
        title d = VString t /\ date d = VString dt /\ time d = VString tm
        /\ normalizeDate dt = Ok dt' /\ normalizeTime tm = Throw InvalidEventTime
        /\ slug d' = (if titleModified d then VString (generateSlug t) else slug d)
        /\ date d' = VString dt' /\ time d' = time d
  | _ => False
  end.
Proof.
  intros H.
  destruct (eventPreSave_cases st d)
    as [(k & Hin & Hb & E)|[(k & Hin & Hb & E)|(t & dt & tm & Ht & Hdt & Htm & _ & _ & E)]];
    rewrite E in H.
  - inversion H; subst. auto.
  - inversion H; subst. auto.
  - unfold afterChecks in H.
    assert (Hslug : slug (if titleModified d
                          then assignValue Kslug (VString (generateSlug t)) d else d)
                    = (if titleModified d then VString (generateSlug t) else slug d)).
    { destruct (titleModified d); [apply (get_assignValue_same Kslug)|reflexivity]. }
    assert (Hdate : date (if titleModified d
                          then assignValue Kslug (VString (generateSlug t)) d else d)
                    = date d).
    { destruct (titleModified d); [|reflexivity].
      apply (@get_assignValue_other Kdate Kslug); discriminate. }
    assert (Htime : time (if titleModified d
                          then assignValue Kslug (VString (generateSlug t)) d else d)
                    = time d).
    { destruct (titleModified d); [|reflexivity].
      apply (@get_assignValue_other Ktime Kslug); discriminate. }
    destruct (normalizeDate dt) as [dt'|e1] eqn:Ed.
    + destruct (normalizeTime tm) as [tm'|e2] eqn:Et; [discriminate|].
      pose proof (normalizeTime_error _ _ Et) as He. subst e2.
      inversion H; subst. exists t, dt, dt', tm.
      repeat split; try assumption.
      * change (slug ?x) with (get Kslug x).
        rewrite get_assignValue_other by discriminate. exact Hslug.
      * apply (get_assignValue_same Kdate).
      * change (time ?x) with (get Ktime x).
        rewrite get_assignValue_other by discriminate. exact Htime.
    + pose proof (normalizeDate_error _ _ Ed) as He. subst e1.
      inversion H; subst. exists t, dt.
      repeat split; try assumption.
      unfold normalizeDate in Ed. destruct (dateParse dt); [discriminate|reflexivity].
Qed.

Lemma not_blank_In c s : In c s -> isWhiteSpace c = false -> blank (VString s) = false.
Proof.
  intros Hin Hc. unfold blank. pose proof (In_trim c s Hin Hc) as H.
  destruct (trim s); [contradiction|reflexivity].
Qed.

(** What [toISOString] writes starts with a digit or a sign. *)
Lemma toISOString_head t :
  exists c rest, toISOString t = c :: rest
                 /\ isWhiteSpace c = false /\ char_eqb c (cu "T") = false.
Proof.
  unfold toISOString.
  destruct ((0 <=? YearFromTime t)%Z && (YearFromTime t <=? 9999)%Z) eqn:Hy.
  - apply andb_true_iff in Hy. destruct Hy as [H0 H1].
    apply Z.leb_le in H0, H1.
    destruct (wellPadded_spec 4 _ (pad4_number _ (conj H0 H1))) as (L4 & D4 & _).
    destruct (pad 4 (YearFromTime t)) as [|c w]; [discriminate|].
    cbn [forallb] in D4. apply andb_true_iff in D4. destruct D4 as [Hc _].
    exists c. eexists. split; [reflexivity|]. split; [now apply digit_not_space|].
    pose proof (@digit_not_T c Hc) as HT. now destruct (char_eqb c (cu "T")).
  - destruct (YearFromTime t <? 0)%Z; eexists; eexists;
      (split; [reflexivity|split; reflexivity]).
Qed.

Lemma normalizeDate_not_blank s out : normalizeDate s = Ok out -> blank (VString out) = false.
Proof.
  unfold normalizeDate. destruct (dateParse s) as [t|]; [|discriminate].
  intros H. assert (Hout : out = nth 0 (split (cu "T") (toISOString t)) [])
    by congruence.
  subst out. clear H.
  destruct (toISOString_head t) as (c & rest & -> & Hws & HT).
  cbn [split]. destruct (@split_cons (cu "T") rest) as (w & ws & ->).
  rewrite HT. cbn [nth]. apply (not_blank_In c); [now left|exact Hws].
Qed.

Lemma clockShape_not_blank n s : clockShape n s = true -> blank (VString s) = false.
Proof.
  destruct s as [|h1 [|h2 [|c [|m1 [|m2 [|]]]]]]; try discriminate.
  unfold clockShape. cbn [forallb]. rewrite !andb_true_iff.
  intros ((((Hh1 & _) & _) & _) & _).
  apply (not_blank_In h1); [now left|now apply digit_not_space].
Qed.

Lemma find_all_false {A} (f : A -> bool) l :
  (forall x, In x l -> f x = false) -> find f l = None.
Proof.
  induction l as [|a l IH]; [reflexivity|]. intros H. cbn [find].
  rewrite (H a) by now left. apply IH. intros x Hx. apply H. now right.
Qed.

(** What a run that passes has done. *)
Lemma eventPreSave_passed st d d' ops :
  eventPreSave st d = (Ok tt, d', ops) ->
  exists t dt tm dt' tm',
    title d = VString t /\ date d = VString dt /\ time d = VString tm
    /\ normalizeDate dt = Ok dt' /\ normalizeTime tm = Ok tm'
    /\ date d' = VString dt' /\ time d' = VString tm'
    /\ slug d' = (if titleModified d then VString (generateSlug t) else slug d)
    /\ framed d d'
    /\ (forall k, In k requiredStringFields -> blank (get k d') = false)
    /\ (forall k, In k requiredArrayFields -> noItems (get k d') = false).
Proof.
  intros H.
  destruct (eventPreSave_cases st d)
    as [(k & _ & _ & E)|[(k & _ & _ & E)|(t & dt & tm & Ht & Hdt & Htm & F1 & F2 & E)]];
    rewrite E in H; try discriminate.
  pose proof (@afterChecks_slug _ _ _ _ _ _ H) as Hslug.
  destruct (afterChecks_framed _ _ _ _ _ _ _ H) as [Hf _].
  unfold afterChecks in H.
  destruct (normalizeDate dt) as [dt'|] eqn:Ed; [|discriminate].
  destruct (normalizeTime tm) as [tm'|] eqn:Et; [|discriminate].
  injection H as Hd' _. symmetry in Hd'.
  assert (Hdate : date d' = VString dt').
  { subst d'. change (date ?x) with (get Kdate x).
    rewrite get_assignValue_other by discriminate. apply get_assignValue_same. }
  assert (Htime : time d' = VString tm').
  { subst d'. apply (get_assignValue_same Ktime). }
  exists t, dt, tm, dt', tm'.
  refine (conj Ht (conj Hdt (conj Htm (conj Ed (conj Et
            (conj Hdate (conj Htime (conj Hslug (conj Hf (conj _ _)))))))))).
  - intros k Hk. destruct (normalised k) eqn:Hn.
    + destruct k; try discriminate; cbn [get].
      * cbn in Hk. intuition discriminate.
      * rewrite Hdate. exact (normalizeDate_not_blank _ _ Ed).
      * rewrite Htime.
        exact (clockShape_not_blank _ _ (@normalizeTime_shape _ _ Et)).
    + destruct Hf as (_ & Hg & _). rewrite (Hg k Hn).
      exact (@find_none_In _ (fun f => blank (get f d)) requiredStringFields k F1 Hk).
  - intros k Hk. destruct Hf as (_ & Hg & _).
    assert (Hn : normalised k = false)
      by (cbn in Hk; intuition (subst; reflexivity)).
    rewrite (Hg k Hn).
    exact (@find_none_In _ (fun f => noItems (get f d)) requiredArrayFields k F2 Hk).
Qed.

(** X11. A run that passes leaves a document that still has every
    required field: the date and the time hold the normalised texts, the
    time as two digits, a colon and two digits with an hour of at most 35,
    and no required text is blank nor a required list empty. *)
Theorem eventPreSave_success (st : Store) (d d' : EventDocument) (ops : list StoreOp) :
  eventPreSave st d = (Ok tt, d', ops) ->
  exists dt tm dt' tm',
    date d = VString dt /\ time d = VString tm
    /\ normalizeDate dt = Ok dt' /\ normalizeTime tm = Ok tm'
    /\ date d' = VString dt' /\ time d' = VString tm'
    /\ clockShape 35 tm' = true
    /\ (forall k, In k requiredStringFields -> blank (get k d') = false)
    /\ (forall k, In k requiredArrayFields -> noItems (get k d') = false).
Proof.
  intros H.
  destruct (eventPreSave_passed _ _ _ _ H)
    as (t & dt & tm & dt' & tm' & _ & Hdt & Htm & Ed & Et & Hd' & Ht' & _ & _ & Hs & Ha).
  exists dt, tm, dt', tm'.
  exact (conj Hdt (conj Htm (conj Ed (conj Et (conj Hd' (conj Ht'
           (conj (@normalizeTime_shape _ _ Et) (conj Hs Ha)))))))).
Qed.

Lemma isClockText_fixed s : isClockText s = true -> normalizeTime s = Ok s.
Proof.
  intros H. pose proof H as H'.
  destruct s as [|h1 [|h2 [|c [|m1 [|m2 [|]]]]]]; try discriminate.
  unfold isClockText, clockShape in H'. rewrite !andb_true_iff in H'.
  destruct H' as (((Hd & Hc) & _) & _).
  unfold char_eqb in Hc. apply N.eqb_eq in Hc. subst c.
  rewrite (normalizeTime_clock_text h1 h2 m1 m2 Hd), H. reflexivity.
Qed.

(** X12. A document that has passed the hook, with a date in canonical
    form and a time of the 24-hour clock, passes it again whatever the
    store, and is left exactly as it is. *)
Theorem eventPreSave_again (st st' : Store) (d d' : EventDocument)
    (ops : list StoreOp) (dt' tm' : jsstring) :
  eventPreSave st d = (Ok tt, d', ops) ->
  date d' = VString dt' -> isCanonicalDate dt' = true ->
  time d' = VString tm' -> isClockText tm' = true ->
  eventPreSave st' d' = (Ok tt, d', []).
Proof.
  intros H Hdate Hcanon Htime Hclock.
  destruct (eventPreSave_passed _ _ _ _ H)
    as (t & dt & tm & dt0 & tm0 & Ht & _ & _ & _ & _ & _ & _ & Hslug & Hf & Hs & Ha).
  assert (Htitle : title d' = VString t).
  { destruct Hf as (_ & Hg & _). rewrite <- Ht. exact (Hg Ktitle eq_refl). }
  rewrite (@eventPreSave_checked st' d' t dt' tm'
             (find_all_false (fun f => blank (get f d')) _ Hs)
             (find_all_false (fun f => noItems (get f d')) _ Ha)
             Htitle Hdate Htime).
  unfold afterChecks.
  rewrite (titleModified_framed _ _ Hf).
  assert (E1 : (if titleModified d
                then assignValue Kslug (VString (generateSlug t)) d' else d') = d').
  { destruct (titleModified d); [|reflexivity].
    apply assignValue_same. exact Hslug. }
  rewrite E1, (@normalizeDate_canonical dt' Hcanon).
  rewrite (assignValue_same Kdate (VString dt') d' Hdate).
  rewrite (isClockText_fixed tm' Hclock).
  rewrite (assignValue_same Ktime (VString tm') d' Htime).
  reflexivity.
Qed.

(** X13. The hook requires a title but not a slug: a document that passes
    with a modified title holding no ASCII letter and no digit is left
    with the empty slug. *)
Theorem eventPreSave_empty_slug (st : Store) (d d' : EventDocument)
    (ops : list StoreOp) (t : jsstring) :
  eventPreSave st d = (Ok tt, d', ops) ->
  titleModified d = true -> title d = VString t ->
  existsb isSlugChar (toLowerCase t) = false ->
  slug d' = VString [].
Proof.
  intros H Hm Ht Hno.
  destruct (eventPreSave_passed _ _ _ _ H)
    as (t0 & _ & _ & _ & _ & Ht0 & _ & _ & _ & _ & _ & _ & Hslug & _).
  rewrite Hm in Hslug. rewrite Hslug. rewrite Ht in Ht0. inversion Ht0; subst t0.
  f_equal. now apply generateSlug_nil.
Qed.

(** ** Further properties of the booking hook *)

Lemma address_chars s :
  forallb isAddressChar s = true ->
  count_occ N.eq_dec s (cu "@") = 0 /\ existsb isWhiteSpace s = false.
Proof.
  induction s as [|c s IH]; [split; reflexivity|].
  cbn [forallb]. rewrite andb_true_iff. intros [Hc Hs].
  destruct (IH Hs) as [H1 H2]. unfold isAddressChar in Hc.
  apply negb_true_iff in Hc. apply orb_false_iff in Hc. destruct Hc as [Hw Ha].
  split.
  - cbn [count_occ]. destruct (N.eq_dec c (cu "@")) as [E|E]; [|exact H1].
    unfold char_eqb in Ha. apply N.eqb_neq in Ha. congruence.
  - cbn [existsb]. rewrite Hw. exact H2.
Qed.

(** X18. A booking passes the hook only with an address that holds
    exactly one at sign and no white space and is at least five code units
    long, and only when the store holds the event it refers to; the hook
    has then asked for that event once and left the booking as it was. *)
Theorem bookingPreSave_passed (st : Store) (b b' : BookingDocument) (ops : list StoreOp) :
  bookingPreSave st b = (Ok tt, b', ops) ->
  b' = b /\ ops = [FindEventById (eventId b)]
  /\ count_occ N.eq_dec (email b) (cu "@") = 1
  /\ existsb isWhiteSpace (email b) = false
  /\ 5 <= length (email b)
  /\ exists e, In e (events st) /\ _id e = eventId b.
Proof.
  clear unicodeToLowerCase hostDateParse.
  rewrite bookingPreSave_run.
  destruct (regexTest EMAIL_REGEX (email b)) eqn:Hre; [|discriminate].
  destruct (findById (eventId b) st) as [e|] eqn:Hfind; [|discriminate].
  intros H. inversion H. subst b' ops. clear H.
  split; [reflexivity|]. split; [reflexivity|].
  apply EMAIL_REGEX_spec in Hre.
  destruct Hre as (l & d & t & Hs & Hl & Hd & Ht & Hchars).
  rewrite !forallb_app, !andb_true_iff in Hchars. destruct Hchars as (Cl & Cd & Ct).
  destruct (address_chars l Cl) as [Al Wl].
  destruct (address_chars d Cd) as [Ad Wd].
  destruct (address_chars t Ct) as [At Wt].
  rewrite Hs. split; [|split; [|split]].
  - rewrite count_occ_app. cbn [count_occ].
    destruct (N.eq_dec (cu "@") (cu "@")) as [_|E]; [|now elim E].
    rewrite count_occ_app. cbn [count_occ].
    destruct (N.eq_dec (cu ".") (cu "@")) as [E|_]; [discriminate|].
    change 1 with (0 + S (0 + 0)).
    f_equal; [exact Al|]. f_equal. f_equal; [exact Ad|exact At].
  - rewrite existsb_app. cbn [existsb]. rewrite existsb_app. cbn [existsb].
    rewrite Wl, Wd, Wt. reflexivity.
  - rewrite length_app. cbn [length]. rewrite length_app. cbn [length].
    destruct l; [congruence|]. destruct d; [congruence|]. destruct t; [congruence|].
    cbn [length]. lia.
  - exists e. unfold findById in Hfind. apply find_some in Hfind.
    destruct Hfind as [Hin Hid]. apply N.eqb_eq in Hid. auto.
Qed.

End Host.

(** ** Properties of the connection cache

    They hold for every schedule: whatever the order in which calls start,
    connection attempts end and suspended calls go on. *)

Section ConnectionProperties.
Context {Mongoose Failure : Type}.

Lemma length_setNth {A} i (x : A) xs : length (setNth i x xs) = length xs.
Proof.
  revert i. induction xs as [|y xs IH]; intros [|i]; simpl; auto.
Qed.

Lemma In_setNth {A} i (x y : A) xs : In y (setNth i x xs) -> y = x \/ In y xs.
Proof.
  revert i. induction xs as [|z xs IH]; intros [|i]; simpl; auto.
  - intros [H|H]; auto.
  - intros [H|H]; auto. destruct (IH _ H); auto.
Qed.

Lemma In_setNth_keep {A} i (x y z : A) xs :
  In y xs -> nth_error xs i = Some z -> y <> z -> In y (setNth i x xs).
Proof.
  revert i. induction xs as [|w xs IH]; intros [|i]; simpl; auto.
  - intros [H|H] Hz Hne; [congruence|auto].
  - intros [H|H] Hz Hne; [auto|right; eauto].
Qed.

Lemma nth_error_setNth_other {A} i j (x : A) xs :
  i <> j -> nth_error (setNth i x xs) j = nth_error xs j.
Proof.
  revert i j. induction xs as [|w xs IH]; intros [|i] [|j] H; simpl; auto.
  contradiction.
Qed.

(** An invariant of the steps the schedule is made of holds all along. *)
Lemma run_invariant (P : Runtime Mongoose Failure -> Prop) (allowed : Action Mongoose Failure -> bool) :
  (forall st a st', allowed a = true -> P st -> step st a = Some st' -> P st') ->
  forall schedule st st',
    forallb allowed schedule = true -> P st -> run st schedule = Some st' -> P st'.
Proof.
  intros Hstep. induction schedule as [|a schedule IH]; intros st st' Hall HP Hrun.
  - simpl in Hrun. congruence.
  - simpl in Hall, Hrun. apply andb_true_iff in Hall. destruct Hall as [Ha Hall].
    destruct (step st a) as [st1|] eqn:E; [|discriminate].
    exact (IH st1 st' Hall (Hstep st a st1 Ha HP E) Hrun).
Qed.

Lemma forallb_true {A} (l : list A) : forallb (fun _ => true) l = true.
Proof. induction l; simpl; auto. Qed.

Lemma step_provenance (st st' : Runtime Mongoose Failure) a :
  provenance st -> step st a = Some st' -> provenance st'.
Proof.
  intros (Hc & Hr & Ht) H. destruct a as [|p o|c]; simpl in H.
  - inversion H. subst st'. clear H. unfold connectToDatabase, provenance.
    destruct (conn (cached st)) as [m0|] eqn:Ec; simpl.
    + rewrite Ec. split; [exact Hc|]. split.
      * intros m Hin. apply in_app_or in Hin. destruct Hin as [Hin|[Hin|[]]]; auto.
        inversion Hin. subst. auto.
      * intros e Hin. apply in_app_or in Hin. destruct Hin as [Hin|[Hin|[]]]; auto.
        discriminate.
    + destruct (promise (cached st)) as [p|]; simpl.
      * rewrite Ec. split; [discriminate|]. split.
        -- intros m Hin. apply in_app_or in Hin.
           destruct Hin as [Hin|[Hin|[]]]; [auto|discriminate].
        -- intros e Hin. apply in_app_or in Hin.
           destruct Hin as [Hin|[Hin|[]]]; [auto|discriminate].
      * split; [discriminate|]. split.
        -- intros m Hin. apply in_or_app. left. apply in_app_or in Hin.
           destruct Hin as [Hin|[Hin|[]]]; [auto|discriminate].
        -- intros e Hin. apply in_or_app. left. apply in_app_or in Hin.
           destruct Hin as [Hin|[Hin|[]]]; [auto|discriminate].
  - unfold settle in H.
    destruct (nth_error (promises st) p) as [[| |]|] eqn:Ep; try discriminate.
    inversion H. subst st'. clear H. unfold provenance. simpl.
    split; [|split].
    + intros m Hm. apply (In_setNth_keep _ _ _ Pending); auto. discriminate.
    + intros m Hm. apply (In_setNth_keep _ _ _ Pending); auto. discriminate.
    + intros e He. apply (In_setNth_keep _ _ _ Pending); auto. discriminate.
  - unfold resume in H.
    destruct (nth_error (calls st) c) as [[p| |]|] eqn:Ecall; try discriminate.
    destruct (nth_error (promises st) p) as [[|m0|e0]|] eqn:Ep; try discriminate;
      inversion H; subst st'; clear H; unfold provenance; simpl;
      apply nth_error_In in Ep.
    + split; [intros m Hm; inversion Hm; subst; exact Ep|]. split.
      * intros m Hin. apply In_setNth in Hin. destruct Hin as [Hin|Hin]; auto.
        inversion Hin. subst. exact Ep.
      * intros e Hin. apply In_setNth in Hin. destruct Hin as [Hin|Hin]; auto.
        discriminate.
    + split; [exact Hc|]. split.
      * intros m Hin. apply In_setNth in Hin. destruct Hin as [Hin|Hin]; auto.
        discriminate.
      * intros e Hin. apply In_setNth in Hin. destruct Hin as [Hin|Hin]; auto.
        inversion Hin. subst. exact Ep.
Qed.

Lemma start_provenance : provenance (@start Mongoose Failure).
Proof. unfold provenance. simpl. repeat split; intros; try discriminate; contradiction. Qed.

Lemma run_provenance schedule (st st' : Runtime Mongoose Failure) :
  provenance st -> run st schedule = Some st' -> provenance st'.
Proof.
  intros HP Hrun.
  apply (run_invariant provenance (fun _ => true)
           (fun s a s' _ => @step_provenance s s' a) schedule st st');
    auto using forallb_true.
Qed.

(** What the connection attempts have ended with is what the schedule
    made them end with. *)
Lemma run_settled schedule (st st' : Runtime Mongoose Failure) x :
  run st schedule = Some st' -> In x (promises st') -> x <> Pending ->
  In x (promises st) \/ exists p o, In (Settle p o) schedule /\ x = settled o.
Proof.
  revert st. induction schedule as [|a schedule IH]; intros st Hrun Hin Hx.
  - simpl in Hrun. inversion Hrun. subst. auto.
  - simpl in Hrun. destruct (step st a) as [st1|] eqn:E; [|discriminate].
    destruct (IH st1 Hrun Hin Hx) as [H1|(p & o & Hs & Ho)];
      [|right; exists p, o; split; [now right|exact Ho]].
    destruct a as [|p o|c]; simpl in E.
    + inversion E. subst st1. clear E. unfold connectToDatabase in H1.
      destruct (conn (cached st)); simpl in H1; auto.
      destruct (promise (cached st)); simpl in H1; auto.
      apply in_app_or in H1. destruct H1 as [H1|[H1|[]]]; auto. congruence.
    + unfold settle in E.
      destruct (nth_error (promises st) p) as [[| |]|]; try discriminate.
      inversion E. subst st1. clear E. simpl in H1.
      apply In_setNth in H1. destruct H1 as [H1|H1]; auto.
      right. exists p, o. split; [now left|exact H1].
    + unfold resume in E.
      destruct (nth_error (calls st) c) as [[p| |]|]; try discriminate.
      destruct (nth_error (promises st) p) as [[| |]|]; try discriminate;
        inversion E; subst st1; auto.
Qed.

(** X14. A call only ever returns what a connection attempt of the
    schedule connected with, and only ever throws what one failed with;
    the cached connection, too, is one an attempt connected with. *)
Theorem connectToDatabase_provenance (schedule : list (Action Mongoose Failure))
    (st : Runtime Mongoose Failure) :
  run start schedule = Some st ->
  (forall m, In (Returned m) (calls st) ->
     exists p, In (Settle p (Connects m)) schedule)
  /\ (forall e, In (Thrown e) (calls st) ->
        exists p, In (Settle p (Fails e)) schedule)
  /\ (forall m, conn (cached st) = Some m ->
        exists p, In (Settle p (Connects m)) schedule).
Proof.
  intros Hrun.
  destruct (run_provenance schedule start st start_provenance Hrun) as (Hc & Hr & Ht).
  assert (Hm : forall m, In (Fulfilled m) (promises st) ->
                 exists p, In (Settle p (Connects m)) schedule).
  { intros m Hin.
    destruct (run_settled schedule start st _ Hrun Hin ltac:(discriminate))
      as [[]|(p & o & Hs & Ho)].
    destruct o; simpl in Ho; inversion Ho. subst. eauto. }
  split; [auto|]. split; [|auto].
  intros e Hin. apply Ht in Hin.
  destruct (run_settled schedule start st _ Hrun Hin ltac:(discriminate))
    as [[]|(p & o & Hs & Ho)].
  destruct o; simpl in Ho; inversion Ho. subst. eauto.
Qed.

Lemma step_unfailed (st st' : Runtime Mongoose Failure) a :
  negb (isFailure a) = true -> unfailed st -> step st a = Some st' -> unfailed st'.
Proof.
  intros Ha (Hn & Hl & Hp) H. destruct a as [|p o|c]; simpl in H.
  - inversion H. subst st'. clear H. unfold connectToDatabase, unfailed.
    destruct (conn (cached st)) as [m0|]; simpl; [auto|].
    destruct (promise (cached st)) as [p|] eqn:E; simpl.
    + rewrite E. split; [exact Hn|]. split; [exact Hl|discriminate].
    + rewrite (Hp eq_refl). simpl. split; [|split; [lia|discriminate]].
      intros e [He|[]]. discriminate.
  - unfold settle in H.
    destruct (nth_error (promises st) p) as [[| |]|] eqn:Ep; try discriminate.
    inversion H. subst st'. clear H. unfold unfailed. simpl.
    rewrite length_setNth. split; [|split; [exact Hl|]].
    + intros e He. apply In_setNth in He. destruct He as [He|He]; [|exact (Hn e He)].
      destruct o; simpl in *; discriminate.
    + intros Hnone. rewrite (Hp Hnone) in Ep. destruct p; discriminate.
  - unfold resume in H.
    destruct (nth_error (calls st) c) as [[p| |]|] eqn:Ecall; try discriminate.
    destruct (nth_error (promises st) p) as [[|m0|e0]|] eqn:Ep; try discriminate.
    + inversion H. subst st'. clear H. unfold unfailed. simpl. auto.
    + apply nth_error_In in Ep. elim (Hn e0 Ep).
Qed.

Lemma start_unfailed : unfailed (@start Mongoose Failure).
Proof. unfold unfailed. simpl. repeat split; auto. Qed.

(** X15. As long as no connection attempt fails, [mongoose.connect] is
    called at most once however many calls overlap: no call throws, and
    all calls that return, return the same connection. *)
Theorem connectToDatabase_connects_once (schedule : list (Action Mongoose Failure))
    (st : Runtime Mongoose Failure) :
  run start schedule = Some st ->
  forallb (fun a => negb (isFailure a)) schedule = true ->
  length (promises st) <= 1
  /\ (forall e, ~ In (Thrown e) (calls st))
  /\ (forall m m', In (Returned m) (calls st) -> In (Returned m') (calls st) -> m = m').
Proof.
  intros Hrun Hok.
  destruct (run_provenance schedule start st start_provenance Hrun) as (_ & Hr & Ht).
  destruct (run_invariant unfailed (fun a => negb (isFailure a))
              (fun s a s' Ha => @step_unfailed s s' a Ha)
              schedule start st Hok start_unfailed Hrun) as (Hn & Hl & _).
  split; [exact Hl|]. split.
  - intros e He. exact (Hn e (Ht e He)).
  - intros m m' Hm Hm'. apply Hr in Hm, Hm'.
    destruct (promises st) as [|x [|y l]]; simpl in *; try lia; try contradiction.
    destruct Hm as [Hm|[]], Hm' as [Hm'|[]]. congruence.
Qed.

Lemma step_connected n attempts (st st' : Runtime Mongoose Failure) a :
  connected n attempts st -> step st a = Some st' -> connected n attempts st'.
Proof.
  intros (Hc & Hl & Hr) H. destruct a as [|p o|c]; simpl in H.
  - inversion H. subst st'. clear H. unfold connectToDatabase, connected.
    destruct (conn (cached st)) as [m0|] eqn:Ec; [|contradiction]. simpl.
    rewrite Ec. split; [discriminate|]. split; [exact Hl|].
    intros c cs Hn Hnth.
    destruct (Nat.lt_ge_cases c (length (calls st))) as [Hlt|Hge].
    + rewrite nth_error_app1 in Hnth by exact Hlt. eauto.
    + rewrite nth_error_app2 in Hnth by exact Hge.
      destruct (c - length (calls st)) as [|[|k]]; simpl in Hnth; try discriminate.
      inversion Hnth. eauto.
  - unfold settle in H.
    destruct (nth_error (promises st) p) as [[| |]|]; try discriminate.
    inversion H. subst st'. clear H. unfold connected. simpl.
    rewrite length_setNth. auto.
  - unfold resume in H.
    destruct (nth_error (calls st) c) as [[p| |]|] eqn:Ecall; try discriminate.
    assert (Hlt : forall c' cs v, n <= c' ->
              nth_error (setNth c v (calls st)) c' = Some cs -> exists m, cs = Returned m).
    { intros c' cs v Hn Hnth. destruct (Nat.eq_dec c c') as [->|Hne].
      - destruct (Hr c' _ Hn Ecall) as [m Hm]. discriminate.
      - rewrite nth_error_setNth_other in Hnth by exact Hne. eauto. }
    destruct (nth_error (promises st) p) as [[|m0|e0]|]; try discriminate;
      inversion H; subst st'; clear H; unfold connected; simpl.
    + split; [discriminate|]. split; [exact Hl|]. intros c' cs. apply Hlt.
    + split; [exact Hc|]. split; [exact Hl|]. intros c' cs. apply Hlt.
Qed.

(** X16. Once there is a cached connection there always is one, no
    further connection is attempted, and every call that starts from then
    on returns at once: it never waits and never throws, also when an
    attempt that was still under way fails later. *)
Theorem connectToDatabase_connected (schedule : list (Action Mongoose Failure))
    (st st' : Runtime Mongoose Failure) (m : Mongoose) :
  conn (cached st) = Some m -> run st schedule = Some st' ->
  conn (cached st') <> None
  /\ length (promises st') = length (promises st)
  /\ (forall c cs, length (calls st) <= c -> nth_error (calls st') c = Some cs ->
        exists m', cs = Returned m').
Proof.
  intros Hc Hrun.
  apply (run_invariant (connected (length (calls st)) (length (promises st)))
           (fun _ => true)
           (fun s a s' _ => @step_connected _ _ s s' a)
           schedule st st'); auto using forallb_true.
  unfold connected. rewrite Hc. split; [discriminate|]. split; [reflexivity|].
  intros c cs Hle Hnth. apply nth_error_None in Hle. congruence.
Qed.

Lemma step_awaited (st st' : Runtime Mongoose Failure) a :
  awaited st -> step st a = Some st' -> awaited st'.
Proof.
  intros Hw H. destruct a as [|p o|c]; simpl in H.
  - inversion H. subst st'. clear H. unfold connectToDatabase, awaited.
    destruct (conn (cached st)) as [m0|] eqn:Ec; simpl.
    + rewrite Ec. discriminate.
    + destruct (promise (cached st)) as [p|] eqn:Ep; simpl.
      * rewrite Ec, Ep. intros q _ Hq. inversion Hq. subst.
        apply in_or_app. right. now left.
      * intros q _ Hq. inversion Hq. subst. apply in_or_app. right. now left.
  - unfold settle in H.
    destruct (nth_error (promises st) p) as [[| |]|]; try discriminate.
    inversion H. subst st'. exact Hw.
  - unfold resume in H.
    destruct (nth_error (calls st) c) as [[p| |]|]; try discriminate.
    destruct (nth_error (promises st) p) as [[|m0|e0]|]; try discriminate;
      inversion H; subst st'; unfold awaited; simpl; discriminate.
Qed.

(** X17. A failed attempt does not stay in the cache: while there is no
    connection, a promise in the cache has a call waiting for it, so when
    no call is under way the cache holds no promise and the next call
    makes a new connection attempt. *)
Theorem connectToDatabase_failure_not_cached (schedule : list (Action Mongoose Failure))
    (st : Runtime Mongoose Failure) :
  run start schedule = Some st -> conn (cached st) = None ->
  (forall p, promise (cached st) = Some p -> In (Awaiting p) (calls st))
  /\ (existsb (@isAwaiting Mongoose Failure) (calls st) = false ->
      promise (cached st) = None
      /\ length (promises (connectToDatabase st)) = S (length (promises st))).
Proof.
  intros Hrun Hc.
  assert (Hw : awaited st).
  { apply (run_invariant awaited (fun _ => true)
             (fun s a s' _ => @step_awaited s s' a) schedule start st);
      auto using forallb_true.
    unfold awaited. simpl. discriminate. }
  split; [intros p Hp; exact (Hw p Hc Hp)|].
  intros Hidle.
  assert (Hp : promise (cached st) = None).
  { destruct (promise (cached st)) as [p|] eqn:Ep; [|reflexivity].
    pose proof (Hw p Hc Ep) as Hin.
    assert (Hex : existsb (@isAwaiting Mongoose Failure) (calls st) = true).
    { apply existsb_exists. exists (Awaiting p). split; [exact Hin|reflexivity]. }
    congruence. }
  split; [exact Hp|].
  unfold connectToDatabase. rewrite Hc, Hp. simpl.
  rewrite length_app. simpl. lia.
Qed.

End ConnectionProperties.







(** ** The theorems on sample inputs

    The host is taken with no case mapping beyond ASCII and no date format
    beyond the canonical one. *)

(** C2, refuted as stated: midnight with a meridiem is accepted. *)
Lemma normalizeTime_midnight_AM_accepted :
  normalizeTime (fun s => s) (js "00:00 AM") = Ok (js "00:00")
  /\ normalizeTime (fun s => s) (js "00:00 AM") <> Throw InvalidEventTime.
Proof. split; [vm_compute; reflexivity | vm_compute; discriminate]. Defined.

Lemma normalizeTime_hour_past_23_witness :
  clockShape 35 (js "14:30") = true.
Proof.
  apply (proj2 (proj2 (proj2 (proj2 (normalizeTime_hour_past_23 (fun s => s)))))
           (js "2:30 PM") (js "14:30")).
  vm_compute. reflexivity.
Defined.

Lemma normalizeTime_midnight_meridiem_witness :
  forallb isWhiteSpace (js " ") = true
  /\ normalizeTime (fun s => s) (js "00:00" ++ js " " ++ js "PM") = Ok (js "12:00").
Proof.
  split; [reflexivity|].
  exact (proj1 (proj2 (proj2
    (@normalizeTime_midnight_meridiem (fun s => s) (js " ") eq_refl)))).
Defined.

Lemma eventPreSave_missing_field_witness :
  eventPreSave (fun s => s) (fun _ => None) (mkStore [] [])
    (put Ktags (VArray []) [] (sampleEvent (js "14:30")))
  = (Throw (FieldNonEmptyArray Ktags),
     put Ktags (VArray []) [] (sampleEvent (js "14:30")), [])
  /\ kind (FieldNonEmptyArray Ktags) = MissingField "tags".
Proof.
  apply (proj2 (proj2 (proj2
    (@eventPreSave_missing_field (fun s => s) (fun _ => None) (mkStore [] [])
       (put Ktags (VArray []) [] (sampleEvent (js "14:30"))))))).
  - vm_compute. reflexivity.
  - vm_compute. reflexivity.
  - vm_compute. reflexivity.
Defined.

Lemma bookingPreSave_checks_witness :
  bookingPreSave (mkStore [] []) (mkBooking 1%N 7%N (js "ada@example.org"))
  = (Throw ReferencedEventMissing, mkBooking 1%N 7%N (js "ada@example.org"),
     [FindEventById 7%N]).
Proof.
  apply (proj1 (proj2
    (bookingPreSave_checks (mkStore [] []) (mkBooking 1%N 7%N (js "ada@example.org"))))).
  - exists (js "ada"), (js "example"), (js "org").
    repeat split; try reflexivity; discriminate.
  - vm_compute. reflexivity.
Defined.

Lemma eventPreSave_slug_witness :
  exists t,
    title (sampleEvent (js "2:30 PM")) = VString t
    /\ slug (snd (fst (eventPreSave (fun s => s) (fun _ => None) (mkStore [] [])
                          (sampleEvent (js "2:30 PM")))))
       = VString (generateSlug (fun s => s) t).
Proof.
  refine (proj1 (@eventPreSave_slug (fun s => s) (fun _ => None) (mkStore [] [])
                   (sampleEvent (js "2:30 PM")) _ [] _) _).
  - vm_compute. reflexivity.
  - vm_compute. reflexivity.
Defined.



Lemma create_error_writes_nothing_witness :
  store (createBooking (mkStore [] []) (mkBooking 1%N 7%N (js "not-an-email")))
  = mkStore [] []
  /\ (isValidationError InvalidEmailAddress = true ->
      existsb isWrite
        (operations (createBooking (mkStore [] []) (mkBooking 1%N 7%N (js "not-an-email"))))
      = false).
Proof.
  apply (proj2 (@create_error_writes_nothing (fun s => s) (fun _ => None) (mkStore [] []))
           (mkBooking 1%N 7%N (js "not-an-email")) InvalidEmailAddress).
  vm_compute. reflexivity.
Defined.

Lemma normalizeTime_24h_witness :
  normalizeTime (fun s => s) (js "9" ++ js ":" ++ js "05")
  = Ok (pad 2 (digitsValue (js "9")) ++ js ":" ++ js "05").
Proof.
  apply (normalizeTime_24h (fun s => s) (js "9") (js ":") (js "05")).
  - reflexivity.
  - left. reflexivity.
  - right. reflexivity.
  - reflexivity.
  - reflexivity.
  - vm_compute. discriminate.
  - vm_compute. discriminate.
Defined.

Lemma normalizeTime_12h_witness :
  normalizeTime (fun s => s) (js "2" ++ js ":" ++ js "30" ++ js " " ++ js "PM")
  = Ok (pad 2 ((digitsValue (js "2")) mod 12 + (if isPM (js "PM") then 12 else 0))%Z
          ++ js ":" ++ js "30").
Proof.
  apply (normalizeTime_12h (fun s => s) (js "2") (js ":") (js "30") (js " ") (js "PM")).
  - reflexivity.
  - left. reflexivity.
  - right. reflexivity.
  - reflexivity.
  - reflexivity.
  - reflexivity.
  - right. left. reflexivity.
  - vm_compute. split; discriminate.
  - vm_compute. discriminate.
Defined.

Lemma normalizeTime_out_of_range_witness :
  normalizeTime (fun s => s) (js "25" ++ js ":" ++ js "00" ++ [] ++ suffixText None)
  = Throw InvalidEventTime.
Proof.
  apply (normalizeTime_out_of_range (fun s => s) (js "25") (js ":") (js "00") [] None).
  - reflexivity.
  - right. reflexivity.
  - right. reflexivity.
  - reflexivity.
  - reflexivity.
  - reflexivity.
  - left. reflexivity.
  - reflexivity.
  - left. vm_compute. reflexivity.
Defined.

Lemma normalizeTime_again_witness :
  normalizeTime (fun s => s) (js "14:30") = Ok (js "14:30").
Proof.
  apply (proj2 (normalizeTime_again (fun s => s) (js "2:30 PM") (js "14:30")
                  ltac:(vm_compute; reflexivity))).
  vm_compute. reflexivity.
Defined.

Lemma normalizeTime_white_space_witness :
  normalizeTime (fun s => s) (js " " ++ js "9:05" ++ js "  ")
  = normalizeTime (fun s => s) (js "9:05").
Proof.
  apply (normalizeTime_white_space (fun s => s) (js " ") (js "9:05") (js "  "));
    reflexivity.
Defined.

Lemma normalizeDate_utc_day_witness :
  normalizeDate
    (fun s => if jsstring_eqb s (js "31 January 2025 17:45 UTC")
              then Some 1738345500000%Z else None)
    (js "31 January 2025 17:45 UTC")
  = Ok (js "2025-01-31").
Proof.
  refine (eq_trans
            (proj1 (normalizeDate_utc_day
                      (fun s => if jsstring_eqb s (js "31 January 2025 17:45 UTC")
                                then Some 1738345500000%Z else None)
                      (js "31 January 2025 17:45 UTC") 1738345500000%Z _ _)) _).
  - vm_compute. reflexivity.
  - vm_compute. split; discriminate.
  - vm_compute. reflexivity.
Defined.

Lemma eventPreSave_frame_witness :
  _id (snd (fst (eventPreSave (fun s => s) (fun _ => None) (mkStore [] [])
                   (sampleEvent (js "25:00")))))
  = _id (sampleEvent (js "25:00")).
Proof.
  refine (proj1
            (eventPreSave_frame (fun s => s) (fun _ => None) (mkStore [] [])
               (sampleEvent (js "25:00"))
               (snd (fst (eventPreSave (fun s => s) (fun _ => None) (mkStore [] [])
                            (sampleEvent (js "25:00")))))
               (Throw InvalidEventTime) [] _)).
  vm_compute. reflexivity.
Defined.

Lemma eventPreSave_error_state_witness :
  exists t dt dt' tm,
    title (sampleEvent (js "25:00")) = VString t
    /\ date (sampleEvent (js "25:00")) = VString dt
    /\ time (sampleEvent (js "25:00")) = VString tm
    /\ normalizeDate (fun _ => None) dt = Ok dt'
    /\ normalizeTime (fun s => s) tm = Throw InvalidEventTime
    /\ slug (snd (fst (eventPreSave (fun s => s) (fun _ => None) (mkStore [] [])
                         (sampleEvent (js "25:00")))))
       = (if titleModified (sampleEvent (js "25:00"))
          then VString (generateSlug (fun s => s) t)
          else slug (sampleEvent (js "25:00")))
    /\ date (snd (fst (eventPreSave (fun s => s) (fun _ => None) (mkStore [] [])
                         (sampleEvent (js "25:00")))))
       = VString dt'
    /\ time (snd (fst (eventPreSave (fun s => s) (fun _ => None) (mkStore [] [])
                         (sampleEvent (js "25:00")))))
       = time (sampleEvent (js "25:00")).
Proof.
  refine (eventPreSave_error_state (fun s => s) (fun _ => None) (mkStore [] [])
            (sampleEvent (js "25:00"))
            (snd (fst (eventPreSave (fun s => s) (fun _ => None) (mkStore [] [])
                         (sampleEvent (js "25:00")))))
            InvalidEventTime [] _).
  vm_compute. reflexivity.
Defined.

Lemma eventPreSave_success_witness :
  exists dt tm dt' tm',
    date (sampleEvent (js "2:30 PM")) = VString dt
    /\ time (sampleEvent (js "2:30 PM")) = VString tm
    /\ normalizeDate (fun _ => None) dt = Ok dt'
    /\ normalizeTime (fun s => s) tm = Ok tm'
    /\ date (snd (fst (eventPreSave (fun s => s) (fun _ => None) (mkStore [] [])
                         (sampleEvent (js "2:30 PM")))))
       = VString dt'
    /\ time (snd (fst (eventPreSave (fun s => s) (fun _ => None) (mkStore [] [])
                         (sampleEvent (js "2:30 PM")))))
       = VString tm'
    /\ clockShape 35 tm' = true
    /\ (forall k, In k requiredStringFields ->
          blank (get k (snd (fst (eventPreSave (fun s => s) (fun _ => None)
                                    (mkStore [] []) (sampleEvent (js "2:30 PM"))))))
          = false)
    /\ (forall k, In k requiredArrayFields ->
          noItems (get k (snd (fst (eventPreSave (fun s => s) (fun _ => None)
                                      (mkStore [] []) (sampleEvent (js "2:30 PM"))))))
          = false).
Proof.
  refine (eventPreSave_success (fun s => s) (fun _ => None) (mkStore [] [])
            (sampleEvent (js "2:30 PM"))
            (snd (fst (eventPreSave (fun s => s) (fun _ => None) (mkStore [] [])
                         (sampleEvent (js "2:30 PM")))))
            [] _).
  vm_compute. reflexivity.
Defined.

Lemma eventPreSave_again_witness :
  eventPreSave (fun s => s) (fun _ => None) (mkStore [] [])
    (snd (fst (eventPreSave (fun s => s) (fun _ => None) (mkStore [] [])
                 (sampleEvent (js "2:30 PM")))))
  = (Ok tt,
     snd (fst (eventPreSave (fun s => s) (fun _ => None) (mkStore [] [])
                 (sampleEvent (js "2:30 PM")))),
     []).
Proof.
  refine (eventPreSave_again (fun s => s) (fun _ => None) (mkStore [] []) (mkStore [] [])
            (sampleEvent (js "2:30 PM"))
            (snd (fst (eventPreSave (fun s => s) (fun _ => None) (mkStore [] [])
                         (sampleEvent (js "2:30 PM")))))
            [] (js "2025-01-31") (js "14:30") _ _ _ _ _);
    vm_compute; reflexivity.
Defined.

Lemma eventPreSave_empty_slug_witness :
  slug (snd (fst (eventPreSave (fun s => s) (fun _ => None) (mkStore [] [])
                    (put Ktitle (VString (js "!!!")) [Ktitle]
                       (sampleEvent (js "2:30 PM"))))))
  = VString [].
Proof.
  refine (eventPreSave_empty_slug (fun s => s) (fun _ => None) (mkStore [] [])
            (put Ktitle (VString (js "!!!")) [Ktitle] (sampleEvent (js "2:30 PM")))
            (snd (fst (eventPreSave (fun s => s) (fun _ => None) (mkStore [] [])
                         (put Ktitle (VString (js "!!!")) [Ktitle]
                            (sampleEvent (js "2:30 PM"))))))
            [] (js "!!!") _ _ _ _);
    vm_compute; reflexivity.
Defined.

Lemma connectToDatabase_provenance_witness :
  exists p,
    In (Settle p (Fails "ECONNREFUSED"%string))
       [Call; Settle 0 (Fails "ECONNREFUSED"%string); Resume 0;
        Call; Settle 1 (Connects 7%N); Resume 1].
Proof.
  refine (proj1 (proj2
            (connectToDatabase_provenance
               [Call; Settle 0 (Fails "ECONNREFUSED"%string); Resume 0;
                Call; Settle 1 (Connects 7%N); Resume 1]
               (mkRuntime (mkCache (Some 7%N) (Some 1))
                  [Rejected "ECONNREFUSED"%string; Fulfilled 7%N]
                  [Thrown "ECONNREFUSED"%string; Returned 7%N]) _))
            "ECONNREFUSED"%string _).
  - vm_compute. reflexivity.
  - left. reflexivity.
Defined.

Lemma connectToDatabase_connects_once_witness :
  length (promises (mkRuntime (Failure := string) (mkCache (Some 7%N) (Some 0))
                      [Fulfilled 7%N] [Returned 7%N; Returned 7%N; Returned 7%N]))
  <= 1.
Proof.
  refine (proj1 (connectToDatabase_connects_once
                   [Call; Call; Settle 0 (Connects 7%N); Resume 1; Resume 0; Call]
                   _ _ _)).
  - vm_compute. reflexivity.
  - reflexivity.
Defined.

Lemma connectToDatabase_connected_witness :
  length (promises (mkRuntime (Failure := string) (mkCache (Some 7%N) (Some 0))
                      [Fulfilled 7%N] [Returned 7%N; Returned 7%N; Returned 7%N]))
  = length (promises (mkRuntime (Failure := string) (mkCache (Some 7%N) (Some 0))
                        [Fulfilled 7%N] [Returned 7%N])).
Proof.
  refine (proj1 (proj2 (connectToDatabase_connected [Call; Call] _ _ 7%N _ _))).
  - reflexivity.
  - vm_compute. reflexivity.
Defined.

Lemma connectToDatabase_failure_not_cached_witness :
  promise (cached (mkRuntime (Mongoose := N) (mkCache None None)
                     [Rejected "ECONNREFUSED"%string] [Thrown "ECONNREFUSED"%string]))
  = None
  /\ length (promises (connectToDatabase
                         (mkRuntime (Mongoose := N) (mkCache None None)
                            [Rejected "ECONNREFUSED"%string]
                            [Thrown "ECONNREFUSED"%string])))
     = S (length (promises (mkRuntime (Mongoose := N) (mkCache None None)
                              [Rejected "ECONNREFUSED"%string]
                              [Thrown "ECONNREFUSED"%string]))).
Proof.
  refine (proj2 (connectToDatabase_failure_not_cached
                   [Call; Settle 0 (Fails "ECONNREFUSED"%string); Resume 0] _ _ _) _).
  - vm_compute. reflexivity.
  - reflexivity.
  - reflexivity.
Defined.

Lemma bookingPreSave_passed_witness :
  count_occ N.eq_dec (email (mkBooking 1%N 1%N (js "ada@example.org"))) (cu "@") = 1.
Proof.
  refine (proj1 (proj2 (proj2
            (bookingPreSave_passed (mkStore [sampleEvent (js "14:30")] [])
               (mkBooking 1%N 1%N (js "ada@example.org"))
               (mkBooking 1%N 1%N (js "ada@example.org"))
               [FindEventById 1%N] _)))).
  vm_compute. reflexivity.
Defined.
